(** * Electric Chair game: state codec, rule engine, solver pre/post-processing
      and analysis progress, embedded from the TypeScript sources.

    Sources embedded here:
    - [src/types/game.ts]          GameState, GameStatus, PlayerNumber, constants
    - [src/utils/stateHash.ts]     encodeGameStateHash, decodeGameStateHash,
                                   hashToGameState, getGameStatusFromHash
    - [src/utils/gameLogic.ts]     getCurrentAttacker, getAvailableChairs,
                                   processTurn, checkGameEnd, getWinner
    - [src/utils/stateTransition.ts]      generateStateTransitions,
                                          groupStatesByTurn
    - [src/utils/nashEquilibriumSolver.ts] shift and strategy normalisation
    - [src/utils/analysisProgress.ts]     getNextBatch, checkCompleteness,
                                          updateAnalyzedStates
    - [src/utils/hashLoader.ts]           loadTurnMetadata, loadTurnChunk,
                                          loadTurnHashRange
    - [src/scripts/generateHashes.ts]     generateNextTurnHashesComplete and
                                          the body of the script

    JavaScript numbers that hold counters, scores and hashes are modelled as
    [Z]; the 32-bit bitwise operators are written with their ToInt32
    wrap-around; the statement on calls of [processTurn] with arbitrary
    arguments bounds the operands so that binary64 addition is exact on
    them.  The solver works on doubles: its
    numbers are IEEE 754 binary64 values, the primitive [float].  Files are
    modelled by what they parse to. *)

From Stdlib Require Import ZArith Lia Floats.
From Stdlib Require Import HexadecimalString HexadecimalN.
From stdpp Require Import gmap list sorting strings.

Local Open Scope Z_scope.

(* ===================================================================== *)
(** * Part I. Definitions                                                 *)
(* ===================================================================== *)

(** ** JavaScript 32-bit integer operators *)

(** ToInt32: wrap to the signed range [-2^31, 2^31). *)
Definition toInt32 (x : Z) : Z := (x + 2^31) mod 2^32 - 2^31.

(** ToUint32, i.e. [x >>> 0]. *)
Definition toUint32 (x : Z) : Z := x mod 2^32.

(** [a << n] *)
Definition js_shl (a n : Z) : Z := toInt32 (Z.shiftl (toInt32 a) (n mod 32)).
(** [a >> n] (sign-propagating) *)
Definition js_sar (a n : Z) : Z := Z.shiftr (toInt32 a) (n mod 32).
(** [a >>> n] (zero-filling) *)
Definition js_shr (a n : Z) : Z := Z.shiftr (toUint32 a) (n mod 32).
(** [a & b] *)
Definition js_and (a b : Z) : Z := Z.land (toInt32 a) (toInt32 b).
(** [a | b] *)
Definition js_or (a b : Z) : Z := Z.lor (toInt32 a) (toInt32 b).

(** ** src/types/game.ts *)

Inductive GameStatus := IN_PROGRESS | PLAYER1_WIN | PLAYER2_WIN | DRAW.
Inductive PlayerNumber := PLAYER1 | PLAYER2.

(** The record is parameterised by how the [chairsRemaining] array is held:
    as its contents ([list bool]) in the functional reading of the code, or
    as a reference when objects and arrays live on a heap. *)
Record GameStateOf (C : Type) := mkGameState {
  currentTurn : Z;
  chairsRemaining : C;
  player1Score : Z;
  player2Score : Z;
  player1ElectricCount : Z;
  player2ElectricCount : Z;
  gameStatus : GameStatus;
  winner : option PlayerNumber
}.
Arguments mkGameState {C}.
Arguments currentTurn {C}.
Arguments chairsRemaining {C}.
Arguments player1Score {C}.
Arguments player2Score {C}.
Arguments player1ElectricCount {C}.
Arguments player2ElectricCount {C}.
Arguments gameStatus {C}.
Arguments winner {C}.

Abbreviation GameState := (GameStateOf (list bool)).

Record TurnResultOf (S : Type) := mkTurnResult {
  attacker : PlayerNumber;
  defender : PlayerNumber;
  attackerChoice : Z;
  defenderChoice : Z;
  matched : bool;
  scoreGained : Z;
  electricReceived : bool;
  chairRemoved : option Z;
  newGameState : S
}.
Arguments mkTurnResult {S}.
Arguments attacker {S}.
Arguments defender {S}.
Arguments attackerChoice {S}.
Arguments defenderChoice {S}.
Arguments matched {S}.
Arguments scoreGained {S}.
Arguments electricReceived {S}.
Arguments chairRemoved {S}.
Arguments newGameState {S}.

Abbreviation TurnResult := (TurnResultOf GameState).

Definition INITIAL_GAME_STATE : GameState :=
  {| currentTurn := 0;
     chairsRemaining := repeat true 12;
     player1Score := 0;
     player2Score := 0;
     player1ElectricCount := 0;
     player2ElectricCount := 0;
     gameStatus := IN_PROGRESS;
     winner := None |}.

Definition MAX_SCORE : Z := 40.
Definition MAX_ELECTRIC_COUNT : Z := 3.
Definition MAX_TURNS : Z := 16.
Definition CHAIR_COUNT : nat := 12.

Global Instance GameStatus_eq_dec : EqDecision GameStatus.
Proof. solve_decision. Defined.
Global Instance PlayerNumber_eq_dec : EqDecision PlayerNumber.
Proof. solve_decision. Defined.

(** ** src/utils/stateHash.ts *)

Record GameStateHash := mkGameStateHash {
  turn : Z;
  chairs : Z;
  h_player1Score : Z;
  h_player2Score : Z;
  player1Electric : Z;
  player2Electric : Z
}.

(** [arr[i]] used as a condition: an index past the end reads [undefined],
    which is falsy. *)
Definition truthy_at (arr : list bool) (i : nat) : bool := nth i arr false.

(** The loop [for (i = 0; i < 12; i++) if (chairsRemaining[i]) chairBits |= (1 << i)]. *)
Definition chairBits_loop (arr : list bool) (n : nat) : Z :=
  fold_left
    (fun acc i => if truthy_at arr i then js_or acc (js_shl 1 (Z.of_nat i)) else acc)
    (seq 0 n) 0.

Definition encodeGameStateHash (state : GameState) : Z :=
  let chairBits := chairBits_loop (chairsRemaining state) 12 in
  let turnBits := js_shl (js_and (currentTurn state) 15) 28 in
  let chairsBits := js_shl (js_and chairBits 4095) 16 in
  let p1ScoreBits := js_shl (js_and (player1Score state) 63) 10 in
  let p2ScoreBits := js_shl (js_and (player2Score state) 63) 4 in
  let p1ElecBits := js_shl (js_and (player1ElectricCount state) 3) 2 in
  let p2ElecBits := js_and (player2ElectricCount state) 3 in
  js_or (js_or (js_or (js_or (js_or turnBits chairsBits) p1ScoreBits) p2ScoreBits)
               p1ElecBits) p2ElecBits.

Definition decodeGameStateHash (hash : Z) : GameStateHash :=
  {| turn := js_and (js_sar hash 28) 15;
     chairs := js_and (js_sar hash 16) 4095;
     h_player1Score := js_and (js_sar hash 10) 63;
     h_player2Score := js_and (js_sar hash 4) 63;
     player1Electric := js_and (js_sar hash 2) 3;
     player2Electric := js_and hash 3 |}.

(** [(chairs & (1 << i)) !== 0] *)
Definition chair_bit_set (chairs : Z) (i : nat) : bool :=
  negb (js_and chairs (js_shl 1 (Z.of_nat i)) =? 0).

(** [Array.from({ length: 12 }, (_, i) => (chairs & (1 << i)) !== 0)], also the
    loop of [hashToGameState] that fills [chairsRemaining]. *)
Definition chairs_of_mask (chairs : Z) : list bool :=
  map (chair_bit_set chairs) (seq 0 12).

Definition getGameStatusFromHash (hash : GameStateHash) : GameStatus :=
  let MAX_SCORE := 40 in
  let MAX_ELECTRIC_COUNT := 3 in
  let MAX_TURNS := 16 in
  if player1Electric hash =? MAX_ELECTRIC_COUNT then PLAYER2_WIN
  else if player2Electric hash =? MAX_ELECTRIC_COUNT then PLAYER1_WIN
  else if h_player1Score hash >=? MAX_SCORE then PLAYER1_WIN
  else if h_player2Score hash >=? MAX_SCORE then PLAYER2_WIN
  else
    let remainingChairs :=
      Z.of_nat (length (filter (fun remaining => remaining = true)
                               (chairs_of_mask (chairs hash)))) in
    if (remainingChairs =? 1) || (turn hash >=? MAX_TURNS - 1) then
      if h_player1Score hash >? h_player2Score hash then PLAYER1_WIN
      else if h_player2Score hash >? h_player1Score hash then PLAYER2_WIN
      else DRAW
    else IN_PROGRESS.

Definition hashToGameState (hash : Z) : GameState :=
  let decoded := decodeGameStateHash hash in
  {| currentTurn := turn decoded;
     chairsRemaining := chairs_of_mask (chairs decoded);
     player1Score := h_player1Score decoded;
     player2Score := h_player2Score decoded;
     player1ElectricCount := player1Electric decoded;
     player2ElectricCount := player2Electric decoded;
     gameStatus := getGameStatusFromHash decoded;
     winner := None |}.

(** ** src/utils/gameLogic.ts *)

(** [turn % 2 === 0]; JavaScript's [%] takes the sign of the dividend. *)
Definition getCurrentAttacker (turn : Z) : PlayerNumber :=
  if Z.rem turn 2 =? 0 then PLAYER1 else PLAYER2.

Definition getCurrentDefender (turn : Z) : PlayerNumber :=
  if Z.rem turn 2 =? 0 then PLAYER2 else PLAYER1.

Definition getChairSelector (turn : Z) : PlayerNumber := getCurrentAttacker turn.
Definition getElectricSetter (turn : Z) : PlayerNumber := getCurrentDefender turn.

(** [chairsRemaining.map((remaining, index) => remaining ? index + 1 : -1)
       .filter(chair => chair !== -1)] *)
Definition getAvailableChairs (gameState : GameState) : list Z :=
  filter (fun chair => chair ≠ -1)
         (imap (fun index (remaining : bool) =>
                  if remaining then Z.of_nat index + 1 else -1)
               (chairsRemaining gameState)).

(** [arr[k] = false] on a JavaScript array, for an integer key [k]:
    - a negative key is an ordinary property, no element changes;
    - a key inside the array overwrites that element;
    - a key at or past the end, below 2^32 - 1, grows the array up to that
      index; the holes in between read as [undefined], which every reader in
      these sources (conditions, [filter], [map]) treats like [false];
    - a key of 2^32 - 1 or more is not an array index: an ordinary property
      again, no element changes. *)
Definition array_set_false (arr : list bool) (k : Z) : list bool :=
  if k <? 0 then arr
  else
    let i := Z.to_nat k in
    if (i <? length arr)%nat then <[i := false]> arr
    else if k <? 2^32 - 1 then arr ++ repeat false (i - length arr) ++ [false]
    else arr.

Definition set_currentTurn {C} (v : Z) (s : GameStateOf C) : GameStateOf C :=
  mkGameState v (chairsRemaining s) (player1Score s) (player2Score s) (player1ElectricCount s) (player2ElectricCount s) (gameStatus s) (winner s).
Definition set_chairsRemaining {C D} (v : D) (s : GameStateOf C) : GameStateOf D :=
  mkGameState (currentTurn s) v (player1Score s) (player2Score s) (player1ElectricCount s) (player2ElectricCount s) (gameStatus s) (winner s).
Definition set_player1Score {C} (v : Z) (s : GameStateOf C) : GameStateOf C :=
  mkGameState (currentTurn s) (chairsRemaining s) v (player2Score s) (player1ElectricCount s) (player2ElectricCount s) (gameStatus s) (winner s).
Definition set_player2Score {C} (v : Z) (s : GameStateOf C) : GameStateOf C :=
  mkGameState (currentTurn s) (chairsRemaining s) (player1Score s) v (player1ElectricCount s) (player2ElectricCount s) (gameStatus s) (winner s).
Definition set_player1ElectricCount {C} (v : Z) (s : GameStateOf C) : GameStateOf C :=
  mkGameState (currentTurn s) (chairsRemaining s) (player1Score s) (player2Score s) v (player2ElectricCount s) (gameStatus s) (winner s).
Definition set_player2ElectricCount {C} (v : Z) (s : GameStateOf C) : GameStateOf C :=
  mkGameState (currentTurn s) (chairsRemaining s) (player1Score s) (player2Score s) (player1ElectricCount s) v (gameStatus s) (winner s).
Definition set_gameStatus {C} (v : GameStatus) (s : GameStateOf C) : GameStateOf C :=
  mkGameState (currentTurn s) (chairsRemaining s) (player1Score s) (player2Score s) (player1ElectricCount s) (player2ElectricCount s) v (winner s).
Definition set_winner {C} (v : option PlayerNumber) (s : GameStateOf C) : GameStateOf C :=
  mkGameState (currentTurn s) (chairsRemaining s) (player1Score s) (player2Score s) (player1ElectricCount s) (player2ElectricCount s) (gameStatus s) v.

Definition checkGameEnd (gameState : GameState) : GameStatus :=
  if player1ElectricCount gameState =? MAX_ELECTRIC_COUNT then PLAYER2_WIN
  else if player2ElectricCount gameState =? MAX_ELECTRIC_COUNT then PLAYER1_WIN
  else if player1Score gameState >=? MAX_SCORE then PLAYER1_WIN
  else if player2Score gameState >=? MAX_SCORE then PLAYER2_WIN
  else
    let remainingChairs :=
      Z.of_nat (length (filter (fun chair => chair = true)
                               (chairsRemaining gameState))) in
    if (remainingChairs =? 1) || (currentTurn gameState >=? MAX_TURNS - 1) then
      if player1Score gameState >? player2Score gameState then PLAYER1_WIN
      else if player2Score gameState >? player1Score gameState then PLAYER2_WIN
      else DRAW
    else IN_PROGRESS.

Definition getWinner {C} (gameState : GameStateOf C) : option PlayerNumber :=
  match gameStatus gameState with
  | PLAYER1_WIN => Some PLAYER1
  | PLAYER2_WIN => Some PLAYER2
  | _ => None
  end.

(** The two branches of [processTurn], before the end-of-game check. *)
Definition apply_choices (gameState : GameState) (attackerChoice defenderChoice : Z)
  : GameState :=
  let attacker := getCurrentAttacker (currentTurn gameState) in
  if attackerChoice =? defenderChoice then
    match attacker with
    | PLAYER1 =>
        set_player1ElectricCount (player1ElectricCount gameState + 1)
          (set_player1Score 0 gameState)
    | PLAYER2 =>
        set_player2ElectricCount (player2ElectricCount gameState + 1)
          (set_player2Score 0 gameState)
    end
  else
    let scoreGained := attackerChoice in
    let removed :=
      set_chairsRemaining
        (array_set_false (chairsRemaining gameState) (attackerChoice - 1)) gameState in
    match attacker with
    | PLAYER1 => set_player1Score (player1Score removed + scoreGained) removed
    | PLAYER2 => set_player2Score (player2Score removed + scoreGained) removed
    end.

(** The tail of [processTurn]: derive status and winner, then advance the
    turn only when the game goes on. *)
Definition finish_turn (newState : GameState) : GameState :=
  let s1 := set_gameStatus (checkGameEnd newState) newState in
  let s2 := set_winner (getWinner s1) s1 in
  if decide (gameStatus s2 = IN_PROGRESS)
  then set_currentTurn (currentTurn s2 + 1) s2
  else s2.

Definition processTurn (gameState : GameState) (attackerChoice defenderChoice : Z)
  : TurnResult :=
  let attacker := getCurrentAttacker (currentTurn gameState) in
  let defender := getCurrentDefender (currentTurn gameState) in
  let matched := attackerChoice =? defenderChoice in
  {| attacker := attacker;
     defender := defender;
     attackerChoice := attackerChoice;
     defenderChoice := defenderChoice;
     matched := matched;
     scoreGained := if matched then 0 else attackerChoice;
     electricReceived := matched;
     chairRemoved := if matched then None else Some attackerChoice;
     newGameState := finish_turn (apply_choices gameState attackerChoice defenderChoice) |}.

(** ** src/utils/stateTransition.ts *)

Record StateTransition := mkStateTransition {
  fromHash : Z;
  toHash : Z;
  t_attackerChoice : Z;
  t_defenderChoice : Z
}.

(** [processTurn] contains no [throw] and no operation that can raise, so the
    [catch] arm around the call is never entered and every pair of choices
    contributes one transition. *)
Definition generateStateTransitions (stateHash : Z) : list StateTransition :=
  let gameState := hashToGameState stateHash in
  if decide (gameStatus gameState ≠ IN_PROGRESS) then []
  else
    let availableChairs := getAvailableChairs gameState in
    flat_map
      (fun attackerChoice =>
         map (fun defenderChoice =>
                let result := processTurn gameState attackerChoice defenderChoice in
                {| fromHash := stateHash;
                   toHash := encodeGameStateHash (newGameState result);
                   t_attackerChoice := attackerChoice;
                   t_defenderChoice := defenderChoice |})
             availableChairs)
      availableChairs.

(** ** Reachability *)

(** Both players pick among the chairs still present. *)
Definition legal_choices (s : GameState) (attackerChoice defenderChoice : Z) : Prop :=
  attackerChoice ∈ getAvailableChairs s ∧ defenderChoice ∈ getAvailableChairs s.

(** Game states reached from [INITIAL_GAME_STATE] by [processTurn] with legal
    choices, applied while the game is in progress. *)
Inductive reachable : GameState -> Prop :=
| reachable_initial : reachable INITIAL_GAME_STATE
| reachable_step s a d :
    reachable s ->
    gameStatus s = IN_PROGRESS ->
    legal_choices s a d ->
    reachable (newGameState (processTurn s a d)).

(** Hashes enumerated from the initial hash through
    [generateStateTransitions], as [generateReachableStates] collects them. *)
Inductive enumerated : Z -> Prop :=
| enumerated_initial : enumerated (encodeGameStateHash INITIAL_GAME_STATE)
| enumerated_step h t :
    enumerated h ->
    t ∈ generateStateTransitions h ->
    enumerated (toHash t).

(** Number of chairs still present. *)
Definition remaining_count (s : GameState) : Z :=
  Z.of_nat (length (filter (fun chair => chair = true) (chairsRemaining s))).

(** What every reachable state satisfies. The last field counts the moves:
    each move removes a chair or adds a shock, and the turn counts the moves
    made, but for the move that ended the game. *)
Record state_invariant (s : GameState) : Prop := {
  inv_length : length (chairsRemaining s) = 12%nat;
  inv_turn : 0 <= currentTurn s <= 14;
  inv_score1 : 0 <= player1Score s <= 51;
  inv_score2 : 0 <= player2Score s <= 51;
  inv_shock1 : 0 <= player1ElectricCount s <= 3;
  inv_shock2 : 0 <= player2ElectricCount s <= 3;
  inv_remaining : 1 <= remaining_count s;
  inv_status : checkGameEnd s = gameStatus s;
  inv_winner : winner s = getWinner s;
  inv_moves :
    (12 - remaining_count s) + player1ElectricCount s + player2ElectricCount s
    = currentTurn s + (if decide (gameStatus s = IN_PROGRESS) then 0 else 1)
}.

(** States whose fields fit the bit layout. *)
Definition encodable (s : GameState) : Prop :=
  length (chairsRemaining s) = 12%nat ∧
  0 <= currentTurn s < 16 ∧
  0 <= player1Score s < 64 ∧ 0 <= player2Score s < 64 ∧
  0 <= player1ElectricCount s < 4 ∧ 0 <= player2ElectricCount s < 4.

(** ** The status rule as the specification words it *)

(** [width] bits of the 32-bit word [x], starting at bit [lo]. *)
Definition bit_field (x lo width : Z) : Z := (x mod 2^32) / 2^lo mod 2^width.

(** Number of chairs present in a 12-bit mask. *)
Definition popcount12 (mask : Z) : Z :=
  fold_right (fun i acc => Z.b2z (Z.testbit mask (Z.of_nat i)) + acc) 0 (seq 0 12).

(** The priority list of the specification, parameterised by the test that
    decides a win on points. *)
Definition status_by_priority (wins_on_points : Z -> bool)
    (turn chairs scoreA scoreB shockA shockB : Z) : GameStatus :=
  if shockA =? 3 then PLAYER2_WIN
  else if shockB =? 3 then PLAYER1_WIN
  else if wins_on_points scoreA then PLAYER1_WIN
  else if wins_on_points scoreB then PLAYER2_WIN
  else if (popcount12 chairs =? 1) || (15 <=? turn) then
    match scoreA ?= scoreB with
    | Gt => PLAYER1_WIN
    | Lt => PLAYER2_WIN
    | Eq => DRAW
    end
  else IN_PROGRESS.

Definition status_of_word (wins_on_points : Z -> bool) (x : Z) : GameStatus :=
  status_by_priority wins_on_points
    (bit_field x 28 4) (bit_field x 16 12) (bit_field x 10 6) (bit_field x 4 6)
    (bit_field x 2 2) (bit_field x 0 2).

(** The rule with the exact comparison [score == 40]. *)
Definition spec_status_exact (x : Z) : GameStatus :=
  status_of_word (fun score => score =? 40) x.

(** The rule with the comparison [score >= 40]. *)
Definition spec_status_at_least (x : Z) : GameStatus :=
  status_of_word (fun score => 40 <=? score) x.

(** ** Player-indexed views used to state the rules *)

Definition score_of (p : PlayerNumber) (s : GameState) : Z :=
  match p with PLAYER1 => player1Score s | PLAYER2 => player2Score s end.

Definition shocks_of (p : PlayerNumber) (s : GameState) : Z :=
  match p with PLAYER1 => player1ElectricCount s | PLAYER2 => player2ElectricCount s end.

(** Chair number [c] (1-based) is present. *)
Definition chair_present (s : GameState) (c : Z) : Prop :=
  1 <= c ∧ chairsRemaining s !! Z.to_nat (c - 1) = Some true.

(** ** Outcome of a call: normal return or a raised error *)

Inductive completion (A : Type) : Type :=
| Returns (a : A)
| Throws (message : string).
Arguments Returns {A} a.
Arguments Throws {A} message.

(** The preconditions of the step operation. *)
Definition choice_in_range (c : Z) : Prop := 1 <= c <= 12.
Definition precondition_violated (s : GameState) (a d : Z) : Prop :=
  ¬ choice_in_range a ∨ ¬ choice_in_range d ∨
  ¬ chair_present s a ∨ ¬ chair_present s d ∨
  gameStatus s ≠ IN_PROGRESS.

(** ** Objects and arrays on a heap

    [processTurn] builds its result with an object spread and an array
    spread and then assigns to the properties of the new object. To speak
    about what the call leaves untouched, objects and arrays are placed in a
    store and [processTurn] is written once more, statement by statement,
    over that store. *)

Abbreviation loc := positive.

Record heap := mkHeap {
  arrays : gmap loc (list bool);
  objects : gmap loc (GameStateOf loc)
}.

(** A computation over the heap. [None] is a read through a reference that
    does not exist, which no well-formed heap allows. *)
Definition exec (A : Type) : Type := heap -> option (A * heap).

Global Instance exec_ret : MRet exec := λ A a h, Some (a, h).
Global Instance exec_bind : MBind exec := λ A B f m h,
  match m h with
  | Some (a, h') => f a h'
  | None => None
  end.

(** [[...arr]] *)
Definition alloc_array (v : list bool) : exec loc := λ h,
  let r := fresh (dom (arrays h)) in
  Some (r, mkHeap (<[r := v]> (arrays h)) (objects h)).

Definition read_array (r : loc) : exec (list bool) := λ h,
  match arrays h !! r with
  | Some v => Some (v, h)
  | None => None
  end.

(** [arr[k] = false] *)
Definition store_false (r : loc) (k : Z) : exec unit := λ h,
  match arrays h !! r with
  | Some v => Some (tt, mkHeap (<[r := array_set_false v k]> (arrays h)) (objects h))
  | None => None
  end.

(** [{ ...obj }] *)
Definition alloc_object (o : GameStateOf loc) : exec loc := λ h,
  let r := fresh (dom (objects h)) in
  Some (r, mkHeap (arrays h) (<[r := o]> (objects h))).

Definition read_object (r : loc) : exec (GameStateOf loc) := λ h,
  match objects h !! r with
  | Some o => Some (o, h)
  | None => None
  end.

(** [obj.field = ...] and [obj.field += ...] *)
Definition update_object (r : loc) (f : GameStateOf loc -> GameStateOf loc)
  : exec unit := λ h,
  match objects h !! r with
  | Some o => Some (tt, mkHeap (arrays h) (<[r := f o]> (objects h)))
  | None => None
  end.

(** The game state an object reference denotes. *)
Definition view (h : heap) (r : loc) : option GameState :=
  match objects h !! r with
  | Some o =>
      match arrays h !! chairsRemaining o with
      | Some v => Some (set_chairsRemaining v o)
      | None => None
      end
  | None => None
  end.

(** [checkGameEnd(newState)]: reads the object and its array. *)
Definition checkGameEnd_at (r : loc) : exec GameStatus :=
  o ← read_object r;
  v ← read_array (chairsRemaining o);
  mret (checkGameEnd (set_chairsRemaining v o)).

Definition processTurn_heap (gameState : loc) (attackerChoice defenderChoice : Z)
  : exec (TurnResultOf loc) :=
  g ← read_object gameState;
  let attacker := getCurrentAttacker (currentTurn g) in
  let defender := getCurrentDefender (currentTurn g) in
  let matched := attackerChoice =? defenderChoice in
  (* let newState = { ...gameState, chairsRemaining: [...gameState.chairsRemaining] } *)
  src ← read_array (chairsRemaining g);
  copy ← alloc_array src;
  newState ← alloc_object (set_chairsRemaining copy g);
  (if matched then
     match attacker with
     | PLAYER1 =>
         update_object newState (set_player1Score 0);;
         update_object newState
           (λ o, set_player1ElectricCount (player1ElectricCount o + 1) o)
     | PLAYER2 =>
         update_object newState (set_player2Score 0);;
         update_object newState
           (λ o, set_player2ElectricCount (player2ElectricCount o + 1) o)
     end
   else
     let scoreGained := attackerChoice in
     n ← read_object newState;
     store_false (chairsRemaining n) (attackerChoice - 1);;
     match attacker with
     | PLAYER1 =>
         update_object newState (λ o, set_player1Score (player1Score o + scoreGained) o)
     | PLAYER2 =>
         update_object newState (λ o, set_player2Score (player2Score o + scoreGained) o)
     end);;
  status ← checkGameEnd_at newState;
  update_object newState (set_gameStatus status);;
  update_object newState (λ o, set_winner (getWinner o) o);;
  n ← read_object newState;
  (if decide (gameStatus n = IN_PROGRESS)
   then update_object newState (λ o, set_currentTurn (currentTurn o + 1) o)
   else mret tt);;
  mret {| attacker := attacker;
          defender := defender;
          attackerChoice := attackerChoice;
          defenderChoice := defenderChoice;
          matched := matched;
          scoreGained := if matched then 0 else attackerChoice;
          electricReceived := matched;
          chairRemoved := if matched then None else Some attackerChoice;
          newGameState := newState |}.

(** [processTurn] as a call that may complete abruptly: the statements of
    [processTurn] run on the heap, and a read through a value that is no
    object or no array raises a [TypeError]. The body has no [throw]. *)
Definition call_processTurn (h : heap) (gameState : loc)
    (attackerChoice defenderChoice : Z) : completion (TurnResultOf loc * heap) :=
  match processTurn_heap gameState attackerChoice defenderChoice h with
  | Some result => Returns result
  | None => Throws "TypeError"
  end.

(** Integers of magnitude at most 2^52. A sum or difference of two of them
    is an integer of magnitude at most 2^53, which binary64 represents: on
    such operands the additions of [processTurn] are exact, and [Z] computes
    what the doubles compute. *)
Definition exact_integer (x : Z) : Prop := - 2^52 <= x <= 2^52.

(** The numbers [processTurn] computes with are such integers, and the board
    has its twelve entries. *)
Definition exact_operands (s : GameState) (a d : Z) : Prop :=
  length (chairsRemaining s) = 12%nat ∧
  exact_integer (currentTurn s) ∧
  exact_integer (player1Score s) ∧ exact_integer (player2Score s) ∧
  exact_integer (player1ElectricCount s) ∧ exact_integer (player2ElectricCount s) ∧
  exact_integer a ∧ exact_integer d.

(** Integers of magnitude at most 2^53: binary64 represents each of them. *)
Definition binary64_integer (x : Z) : Prop := - 2^53 <= x <= 2^53.

(** A state whose numbers are such integers and whose array has a length an
    array can have. *)
Definition representable_state (s : GameState) : Prop :=
  Z.of_nat (length (chairsRemaining s)) <= 2^32 - 1 ∧
  binary64_integer (currentTurn s) ∧
  binary64_integer (player1Score s) ∧ binary64_integer (player2Score s) ∧
  binary64_integer (player1ElectricCount s) ∧
  binary64_integer (player2ElectricCount s).

(** The heap that holds the state [s] at object 1, with its array at 1. *)
Definition heap_of (s : GameState) : heap :=
  mkHeap {[1%positive := chairsRemaining s]}
         {[1%positive := set_chairsRemaining 1%positive s]}.

(** ** src/utils/nashEquilibriumSolver.ts: shift and strategy normalisation

    The solver computes on JavaScript numbers, which are IEEE 754 binary64
    values. They are the primitive type [float]; its operations round to
    nearest, ties to even, as the language prescribes. *)

(** [5e-8]: the binary64 number nearest to it. *)
Definition EPSILON : float := 0x1.ad7f29abcaf48p-25%float.

(** One step of [Math.min(...xs)]: a [NaN] argument makes the result [NaN],
    and [-0] counts as smaller than [+0]. *)
Definition math_min_step (lowest number : float) : float :=
  if is_nan lowest then lowest
  else if is_nan number then number
  else if (number <? lowest)%float then number
  else if is_zero number && is_zero lowest && get_sign number then number
  else lowest.

(** [Math.min(...xs)]; with no argument the result is [Infinity]. *)
Definition math_min (xs : list float) : float :=
  fold_left math_min_step xs infinity.

(** [Math.max(a, b)]: a [NaN] argument makes the result [NaN], and [+0]
    counts as larger than [-0]. *)
Definition math_max (a b : float) : float :=
  if is_nan a then a
  else if is_nan b then b
  else if (a <? b)%float then b
  else if is_zero a && is_zero b && get_sign a then b
  else a.

(** [minValue < 0 ? Math.abs(minValue) + 1 : 0] *)
Definition shift_of_min (minValue : float) : float :=
  if (minValue <? 0)%float then (abs minValue + 1)%float else 0%float.

(** The shift computed at the top of [solvePlayer1Strategy];
    [payoffMatrix.flat()] is [concat]. *)
Definition player1_shift (payoffMatrix : list (list float)) : float :=
  let minValue := math_min (concat payoffMatrix) in
  shift_of_min minValue.

(** The shift computed at the top of [solvePlayer2Strategy]. *)
Definition player2_shift (payoffMatrix : list (list float)) : float :=
  let minValue := math_min (concat payoffMatrix) in
  shift_of_min minValue.

(** [payoffMatrix.map(row => row.map(val => val + shift))] *)
Definition shiftedMatrix (payoffMatrix : list (list float)) (shift : float)
  : list (list float) :=
  map (fun row => map (fun val => (val + shift)%float) row) payoffMatrix.

(** The shift the specification describes: [max(0, -min(matrix))]. *)
Definition spec_shift (payoffMatrix : list (list float)) : float :=
  math_max 0%float (- math_min (concat payoffMatrix))%float.

(** The LP solution object, read by variable index: [solution[`x${i}`]];
    [None] is a missing key. *)
Definition lp_solution := nat -> option float.

(** [value || 0]: [undefined], [NaN] and both zeros are falsy. *)
Definition or_zero (value : option float) : float :=
  match value with
  | Some x => if is_nan x || is_zero x then 0%float else x
  | None => 0%float
  end.

(** A count as a number: the binary64 value nearest to it, which is the
    count itself up to 2^53. *)
Definition number_of_nat (n : nat) : float :=
  SF2Prim (binary_normalize prec emax (Z.of_nat n) 0 false).

(** [strategy[i] = Math.max(0, solution[`x${i}`] || 0)] for [i < n]. *)
Definition clip_strategy (n : nat) (solution : lp_solution) : list float :=
  map (fun i => math_max 0%float (or_zero (solution i))) (seq 0 n).

(** [strategy.reduce((a, b) => a + b, 0)] *)
Definition strategy_sum (strategy : list float) : float :=
  fold_left PrimFloat.add strategy 0%float.

(** [strategy.fill(1 / n)] *)
Definition uniform_strategy (n : nat) : list float :=
  repeat (1 / number_of_nat n)%float n.

(** [if (sum > EPSILON) strategy[i] /= sum else strategy.fill(1 / n)] *)
Definition normalize_strategy (strategy : list float) : list float :=
  let sum := strategy_sum strategy in
  if (EPSILON <? sum)%float
  then map (fun x => (x / sum)%float) strategy
  else uniform_strategy (length strategy).

(** Whether the uniform fallback is taken: [sum > EPSILON] is false. *)
Definition takes_fallback (strategy : list float) : bool :=
  negb (EPSILON <? strategy_sum strategy)%float.

(** Post-processing in [solvePlayer1Strategy] (variables [x_i], [numRows]). *)
Definition player1_postprocess (numRows : nat) (solution : lp_solution) : list float :=
  normalize_strategy (clip_strategy numRows solution).

(** Post-processing in [solvePlayer2Strategy] (variables [y_j], [numCols]). *)
Definition player2_postprocess (numCols : nat) (solution : lp_solution) : list float :=
  normalize_strategy (clip_strategy numCols solution).

(** A binary64 value that is neither [NaN] nor below zero: a zero, a
    positive number or [Infinity]. *)
Definition SFnot_negative (x : spec_float) : Prop :=
  match x with
  | S754_zero _ => True
  | S754_finite false _ _ => True
  | S754_infinity false => True
  | _ => False
  end.

(** The same on numbers. *)
Definition not_negative (x : float) : Prop :=
  is_nan x = false ∧ (x <? 0)%float = false.

(** Some numbers and inputs used below. [3e-8] and [1e-8] are the binary64
    numbers nearest to them. *)
Definition number_3e8 : float := 0x1.01b2b29a4692bp-25%float.
Definition number_1e8 : float := 0x1.5798ee2308c3ap-27%float.
Definition matching_pennies : list (list float) := [[-1; 1]; [1; -1]]%float.

(** An LP solution with [x0 = 3e-8] and no other variable. *)
Definition solution_3e8 : lp_solution :=
  fun i => if (i =? 0)%nat then Some number_3e8 else None.

(** An LP solution with [x0 = 2], [x1 = 3], [x2 = 1]. *)
Definition solution_231 : lp_solution :=
  fun i => match i with
           | O => Some 2%float
           | S O => Some 3%float
           | S (S O) => Some 1%float
           | _ => None
           end.

(** ** src/utils/analysisProgress.ts *)

Record AnalysisProgress := mkAnalysisProgress {
  analyzedStates : gmap Z Z;
  totalStates : gmap Z Z;
  isComplete : bool
}.

Record Batch := mkBatch { b_turn : Z; remainingCount : Z }.

(** The order of the comparator [(a, b) => b - a]: larger turns first. *)
Definition descending : relation Z := λ a b, b <= a.

Global Instance descending_dec a b : Decision (descending a b).
Proof. unfold descending. apply _. Defined.

(** [Object.keys(progress.totalStates).map(Number).sort((a, b) => b - a)] *)
Definition sortedTurns (progress : AnalysisProgress) : list Z :=
  merge_sort descending (elements (dom (totalStates progress))).

(** [progress.analyzedStates[turn] || 0] *)
Definition analyzed_of (progress : AnalysisProgress) (turn : Z) : Z :=
  default 0 (analyzedStates progress !! turn).

(** The [for (const turn of sortedTurns)] loop of [getNextBatch]. *)
Fixpoint next_batch_loop (progress : AnalysisProgress) (requestedSize : Z)
    (turns : list Z) : option Batch :=
  match turns with
  | [] => None
  | turn :: rest =>
      match totalStates progress !! turn with
      | Some total =>
          let analyzed := analyzed_of progress turn in
          let remaining := total - analyzed in
          if total =? 0 then next_batch_loop progress requestedSize rest
          else if remaining >? 0
               then Some {| b_turn := turn;
                            remainingCount := Z.min remaining requestedSize |}
               else next_batch_loop progress requestedSize rest
      | None => next_batch_loop progress requestedSize rest
      end
  end.

Definition getNextBatch (progress : AnalysisProgress) (requestedSize : Z)
  : option Batch :=
  next_batch_loop progress requestedSize (sortedTurns progress).

(** A turn still has work: it is listed with a nonzero total and its
    analyzed count is below that total. *)
Definition pending (progress : AnalysisProgress) (t : Z) : Prop :=
  ∃ total, totalStates progress !! t = Some total ∧ total ≠ 0 ∧
           analyzed_of progress t < total.

(** ** src/utils/analysisProgress.ts: the progress file *)

(** [createInitialProgress]; the [lastUpdated] time stamp is not modelled. *)
Definition createInitialProgress : AnalysisProgress :=
  {| analyzedStates := ∅; totalStates := ∅; isComplete := false |}.

(** The content of [progress.json]: [None] is a missing or unreadable file,
    for which [loadProgress] creates the initial progress. *)
Definition loadProgress (file : option AnalysisProgress) : AnalysisProgress :=
  match file with
  | Some progress => progress
  | None => createInitialProgress
  end.

Definition saveProgress (progress : AnalysisProgress) : option AnalysisProgress :=
  Some progress.

(** The [for (const turn in progress.totalStates)] loop leaves with [false]
    at the first turn whose analyzed count is below its total; otherwise the
    result is [Object.keys(progress.totalStates).length > 0]. *)
Definition checkCompleteness (progress : AnalysisProgress) : bool :=
  if forallb (fun entry : Z * Z =>
                let total := entry.2 in
                let analyzed := analyzed_of progress entry.1 in
                negb (analyzed <? total))
             (map_to_list (totalStates progress))
  then (0 <? length (map_to_list (totalStates progress)))%nat
  else false.

Definition updateAnalyzedStates (turn count : Z) (file : option AnalysisProgress)
  : option AnalysisProgress :=
  let progress := loadProgress file in
  let progress :=
    {| analyzedStates := <[turn := count]> (analyzedStates progress);
       totalStates := totalStates progress;
       isComplete := isComplete progress |} in
  let progress :=
    {| analyzedStates := analyzedStates progress;
       totalStates := totalStates progress;
       isComplete := checkCompleteness progress |} in
  saveProgress progress.

(** ** src/utils/stateTransition.ts: grouping by turn *)

(** [groupStatesByTurn]; the argument lists the elements of the [Set] in its
    iteration order. A group, once created, is an array and so is truthy. *)
Definition groupStatesByTurn (stateHashes : list Z) : gmap Z (list Z) :=
  fold_left
    (fun groupedStates hash =>
       let state := hashToGameState hash in
       let turn := currentTurn state in
       let groupedStates :=
         match groupedStates !! turn with
         | None => <[turn := []]> groupedStates
         | Some _ => groupedStates
         end in
       match groupedStates !! turn with
       | Some group => <[turn := group ++ [hash]]> groupedStates
       | None => groupedStates
       end)
    stateHashes ∅.

(** ** src/utils/hashLoader.ts and src/scripts/generateHashes.ts *)

Record ChunkedTurnData := mkChunkedTurnData {
  m_turn : Z;
  totalCount : Z;
  chunkSize : Z;
  chunks : Z
}.

Record ChunkData := mkChunkData {
  c_turn : Z;
  c_chunk : Z;
  c_count : Z;
  hashes : list string
}.

(** The directory [./state-hashes] as its files parse: [meta_json] holds
    [turn-<turn>/meta.json] and [chunk_json] holds
    [turn-<turn>/chunk-<chunk>.json]. A missing or unreadable file is a
    missing key. *)
Record HashFiles := mkHashFiles {
  meta_json : gmap Z ChunkedTurnData;
  chunk_json : gmap (Z * Z) ChunkData
}.

Definition loadTurnMetadata (files : HashFiles) (turn : Z) : option ChunkedTurnData :=
  meta_json files !! turn.

Definition loadTurnChunk (files : HashFiles) (turn chunk : Z) : option ChunkData :=
  chunk_json files !! (turn, chunk).

(** [Array.prototype.slice(start, stop)] for integer arguments: a negative
    index counts from the end, and both ends are clamped to the array. *)
Definition slice_index (len k : Z) : Z :=
  if k <? 0 then Z.max (len + k) 0 else Z.min k len.

Definition js_slice {A} (arr : list A) (start stop : Z) : list A :=
  let len := Z.of_nat (length arr) in
  let from := slice_index len start in
  let to := slice_index len stop in
  take (Z.to_nat (to - from)) (drop (Z.to_nat from) arr).

(** [n.toString(16)] for a non-negative integer: lower-case digits, no
    leading zeros, ["0"] for zero. *)
Definition toString16 (n : Z) : string :=
  NilZero.string_of_uint (N.to_hex_uint (Z.to_N n)).

(** A reader of unsigned hexadecimal numerals, used to run the functions
    below on examples; 0 stands for a string that is no numeral. *)
Definition parse_hex (s : string) : Z :=
  match NilZero.uint_of_string s with
  | Some d => Z.of_N (N.of_hex_uint d)
  | None => 0
  end.

(** [Math.ceil(a / b)] for integers [a] and [b]. *)
Definition ceil_div (a b : Z) : Z := - ((- a) / b).

Definition CHUNK_SIZE : Z := 10000.

(** [Set.prototype.add]: a set of numbers in insertion order. *)
Definition set_add (x : Z) (s : list Z) : list Z :=
  if decide (x ∈ s) then s else s ++ [x].

(** The body of the loop over the hashes of the current turn: the targets
    of the transitions that decode to the next turn are added to the set. *)
Definition add_next_turn_hashes (nextTurn : Z) (nextTurnHashes : list Z)
    (currentHash : Z) : list Z :=
  fold_left
    (fun nextTurnHashes transition =>
       let decoded := decodeGameStateHash (toHash transition) in
       if turn decoded =? nextTurn then set_add (toHash transition) nextTurnHashes
       else nextTurnHashes)
    (generateStateTransitions currentHash) nextTurnHashes.

(** Writing the chunk files and the metadata of a turn. *)
Definition write_turn_files (nextTurn : Z) (hashArray : list Z) (files : HashFiles)
  : ChunkedTurnData * HashFiles :=
  let totalChunks := ceil_div (Z.of_nat (length hashArray)) CHUNK_SIZE in
  let files :=
    fold_left
      (fun files chunkIndex =>
         let startIndex := chunkIndex * CHUNK_SIZE in
         let endIndex := Z.min (startIndex + CHUNK_SIZE) (Z.of_nat (length hashArray)) in
         let chunkHashes :=
           map (fun hash => toString16 (js_shr hash 0))
               (js_slice hashArray startIndex endIndex) in
         let chunkData :=
           {| c_turn := nextTurn; c_chunk := chunkIndex;
              c_count := Z.of_nat (length chunkHashes); hashes := chunkHashes |} in
         mkHashFiles (meta_json files)
                     (<[(nextTurn, chunkIndex) := chunkData]> (chunk_json files)))
      (seqZ 0 totalChunks) files in
  let nextMeta :=
    {| m_turn := nextTurn; totalCount := Z.of_nat (length hashArray);
       chunkSize := CHUNK_SIZE; chunks := totalChunks |} in
  (nextMeta, mkHashFiles (<[nextTurn := nextMeta]> (meta_json files)) (chunk_json files)).

Definition generateInitialHash : Z := encodeGameStateHash INITIAL_GAME_STATE.

(** The files of turn 0, written when [turn-0/meta.json] does not exist. *)
Definition write_turn0 (files : HashFiles) : HashFiles :=
  match meta_json files !! 0 with
  | Some _ => files
  | None =>
      let initialHash := generateInitialHash in
      let chunkData :=
        {| c_turn := 0; c_chunk := 0; c_count := 1;
           hashes := [toString16 (js_shr initialHash 0)] |} in
      let metaData :=
        {| m_turn := 0; totalCount := 1; chunkSize := CHUNK_SIZE; chunks := 1 |} in
      mkHashFiles (<[0 := metaData]> (meta_json files))
                  (<[(0, 0) := chunkData]> (chunk_json files))
  end.

Section HashFilesIO.

(** [parseInt(s, 16)], a built-in of the language; the hash files hold what
    [toString(16)] printed. *)
Variable parseInt16 : string -> Z.

(** The body of the loop over the chunks of [loadTurnHashRange]. *)
Definition load_chunk_range (files : HashFiles) (turn : Z) (metadata : ChunkedTurnData)
    (startIndex endIndex : Z) (hashes_acc : list Z) (chunkIndex : Z) : list Z :=
  match loadTurnChunk files turn chunkIndex with
  | None => hashes_acc
  | Some chunkData =>
      let chunkStartIndex := chunkIndex * chunkSize metadata in
      let localStartIndex := Z.max 0 (startIndex - chunkStartIndex) in
      let localEndIndex := Z.min (c_count chunkData) (endIndex - chunkStartIndex) in
      if localStartIndex <? localEndIndex then
        hashes_acc ++
        map parseInt16 (js_slice (hashes chunkData) localStartIndex localEndIndex)
      else hashes_acc
  end.

(** [Math.floor] of the quotients is [Z.div], for a chunk size that is not
    zero. *)
Definition loadTurnHashRange (files : HashFiles) (turn startIndex count : Z) : list Z :=
  match loadTurnMetadata files turn with
  | None => []
  | Some metadata =>
      let endIndex := Z.min (startIndex + count) (totalCount metadata) in
      let startChunk := startIndex / chunkSize metadata in
      let endChunk := (endIndex - 1) / chunkSize metadata in
      fold_left (load_chunk_range files turn metadata startIndex endIndex)
                (seqZ startChunk (endChunk - startChunk + 1)) []
  end.

(** The loop over the chunks of the current turn and their hashes. *)
Definition collect_next_turn_hashes (files : HashFiles) (currentTurn : Z)
    (currentMeta : ChunkedTurnData) : list Z :=
  let nextTurn := currentTurn + 1 in
  fold_left
    (fun nextTurnHashes chunkIndex =>
       match chunk_json files !! (currentTurn, chunkIndex) with
       | None => nextTurnHashes
       | Some chunkData =>
           fold_left
             (fun nextTurnHashes hexHash =>
                add_next_turn_hashes nextTurn nextTurnHashes (parseInt16 hexHash))
             (hashes chunkData) nextTurnHashes
       end)
    (seqZ 0 (chunks currentMeta)) [].

(** [generateNextTurnHashesComplete]: [None] is the [null] returned when the
    current turn has no metadata. The comparator [(a, b) => a - b] sorts in
    ascending order. *)
Definition generateNextTurnHashesComplete (currentTurn : Z) (files : HashFiles)
  : option ChunkedTurnData * HashFiles :=
  match meta_json files !! currentTurn with
  | None => (None, files)
  | Some currentMeta =>
      let nextTurn := currentTurn + 1 in
      let nextTurnHashes := collect_next_turn_hashes files currentTurn currentMeta in
      let hashArray := merge_sort Z.le nextTurnHashes in
      let written := write_turn_files nextTurn hashArray files in
      (Some written.1, written.2)
  end.

(** The top-level statements of the script: turn 0 is written unless its
    metadata exists, then the turns are generated one after the other. A
    turn whose metadata exists is skipped; the loop stops when a turn cannot
    be generated or comes out empty. *)
Fixpoint generate_turns (turns : list Z) (files : HashFiles) : HashFiles :=
  match turns with
  | [] => files
  | currentTurn :: rest =>
      let nextTurn := currentTurn + 1 in
      match meta_json files !! nextTurn with
      | Some existingMeta => generate_turns rest files
      | None =>
          match generateNextTurnHashesComplete currentTurn files with
          | (None, files) => files
          | (Some nextTurnData, files) =>
              if totalCount nextTurnData =? 0 then files
              else generate_turns rest files
          end
      end
  end.

Definition generateHashes_main (files : HashFiles) : HashFiles :=
  generate_turns (seqZ 0 16) (write_turn0 files).

End HashFilesIO.

(** The elements of a list from position [a] up to position [b]. *)
Definition segment {A} (l : list A) (a b : Z) : list A :=
  take (Z.to_nat (b - a)) (drop (Z.to_nat a) l).

(** The files of a turn hold the list [all], cut into chunks of [size]. *)
Definition chunked_as (files : HashFiles) (turn size : Z) (all : list string) : Prop :=
  0 < size ∧
  (∃ metadata, meta_json files !! turn = Some metadata ∧
     totalCount metadata = Z.of_nat (length all) ∧
     chunkSize metadata = size ∧
     chunks metadata = ceil_div (Z.of_nat (length all)) size) ∧
  ∀ k, 0 <= k -> k * size < Z.of_nat (length all) ->
       ∃ chunkData, chunk_json files !! (turn, k) = Some chunkData ∧
         hashes chunkData = take (Z.to_nat size) (drop (Z.to_nat (k * size)) all) ∧
         c_count chunkData = Z.of_nat (length (hashes chunkData)).

(** The encodings of the reachable states that are in progress at turn [k]. *)
Definition in_progress_at (k : Z) (x : Z) : Prop :=
  ∃ s, reachable s ∧ gameStatus s = IN_PROGRESS ∧ currentTurn s = k ∧
       x = encodeGameStateHash s.

(** The files of turn [k] list, in ascending order of the signed hashes,
    without repetition and as unsigned hexadecimal numerals, exactly the
    encodings of the reachable states in progress at turn [k]. *)
Definition lists_turn_states (files : HashFiles) (k : Z) : Prop :=
  ∃ states : list Z,
    chunked_as files k CHUNK_SIZE (map (fun hash => toString16 (js_shr hash 0)) states) ∧
    StronglySorted Z.lt states ∧
    ∀ x, x ∈ states <-> in_progress_at k x.

(** [x] is the target of a transition from [h] and decodes to [nextTurn]. *)
Definition next_turn_target (nextTurn h x : Z) : Prop :=
  ∃ t, t ∈ generateStateTransitions h ∧ toHash t = x ∧
       turn (decodeGameStateHash x) = nextTurn.

(** ** Auxiliary notions for the proofs *)

(** The state between the two halves of [processTurn]: the choices are
    applied, the move is counted, status and turn are not yet updated. *)
Definition mid_turn (n : GameState) : Prop :=
  length (chairsRemaining n) = 12%nat ∧
  0 <= currentTurn n <= 14 ∧
  0 <= player1Score n <= 51 ∧ 0 <= player2Score n <= 51 ∧
  0 <= player1ElectricCount n <= 3 ∧ 0 <= player2ElectricCount n <= 3 ∧
  1 <= remaining_count n ∧
  (12 - remaining_count n) + player1ElectricCount n + player2ElectricCount n
  = currentTurn n + 1.

(** Playing a list of (attackerChoice, defenderChoice) pairs in order. *)
Fixpoint play (moves : list (Z * Z)) (s : GameState) : GameState :=
  match moves with
  | [] => s
  | (a, d) :: rest => play rest (newGameState (processTurn s a d))
  end.

(** Every move of the list is made in an in-progress state with chairs that
    are present. *)
Fixpoint legal_play (moves : list (Z * Z)) (s : GameState) : bool :=
  match moves with
  | [] => true
  | (a, d) :: rest =>
      bool_decide (gameStatus s = IN_PROGRESS)
      && bool_decide (a ∈ getAvailableChairs s)
      && bool_decide (d ∈ getAvailableChairs s)
      && legal_play rest (newGameState (processTurn s a d))
  end.

(** Player 1 takes chairs 12, 11, 10 and 9; player 2 takes 1, 2 and 3. *)
Definition score_42_moves : list (Z * Z) :=
  [(12, 1); (1, 2); (11, 2); (2, 3); (10, 3); (3, 4); (9, 4)].
Definition score_42_state : GameState := play score_42_moves INITIAL_GAME_STATE.

(** Player 1 reaches 39 points and then takes chair 12. *)
Definition score_51_moves : list (Z * Z) :=
  [(11, 1); (2, 1); (10, 1); (3, 1); (9, 1); (4, 1); (8, 1); (5, 1);
   (1, 6); (6, 7); (12, 7)].
Definition score_51_state : GameState := play score_51_moves INITIAL_GAME_STATE.

(** The state in which the last move of [score_42_moves] is made. *)
Definition score_33_moves : list (Z * Z) :=
  [(12, 1); (1, 2); (11, 2); (2, 3); (10, 3); (3, 4)].
Definition score_33_state : GameState := play score_33_moves INITIAL_GAME_STATE.

(** Turn 14 with all twelve chairs, a state no play reaches. *)
Definition turn_14_full_board : GameState :=
  set_currentTurn 14 INITIAL_GAME_STATE.

(** A turn result with its [newGameState] component replaced. *)
Definition with_newGameState {S T} (x : T) (r : TurnResultOf S) : TurnResultOf T :=
  {| attacker := attacker r; defender := defender r;
     attackerChoice := attackerChoice r; defenderChoice := defenderChoice r;
     matched := matched r; scoreGained := scoreGained r;
     electricReceived := electricReceived r; chairRemoved := chairRemoved r;
     newGameState := x |}.

(** What [processTurn_heap] returns and the heap it leaves, from a heap [h]
    where the input object is [g] and its array holds [src]. *)
Definition heap_result (h : heap) (g : GameStateOf loc) (src : list bool) (a d : Z)
  : TurnResultOf loc * heap :=
  let copy := fresh (dom (arrays h)) in
  let new := fresh (dom (objects h)) in
  let res := processTurn (set_chairsRemaining src g) a d in
  (with_newGameState new res,
   mkHeap (<[copy := chairsRemaining (newGameState res)]> (arrays h))
          (<[new := set_chairsRemaining copy (newGameState res)]> (objects h))).

(** A heap computation that completes with a value and a final heap. *)
Definition runs {A} (m : exec A) (h : heap) (a : A) (h' : heap) : Prop :=
  m h = Some (a, h').

(* ===================================================================== *)
(** * Part II. Properties                                                 *)
(* ===================================================================== *)

(** ** 32-bit operators, bit by bit *)

Lemma toInt32_range x : - 2^31 <= toInt32 x < 2^31.
Proof. unfold toInt32. pose proof (Z.mod_pos_bound (x + 2^31) (2^32)). lia. Qed.

Lemma toInt32_mod x : toInt32 x mod 2^32 = x mod 2^32.
Proof.
  unfold toInt32.
  rewrite Zminus_mod, Zmod_mod, <- Zminus_mod.
  f_equal. lia.
Qed.

Lemma toInt32_id x : - 2^31 <= x < 2^31 -> toInt32 x = x.
Proof. intros H. unfold toInt32. rewrite Z.mod_small; lia. Qed.

Lemma int32_sign_bits y i :
  - 2^31 <= y < 2^31 -> 31 <= i -> Z.testbit y i = (y <? 0).
Proof.
  intros Hy Hi.
  assert (Hp : 2^31 <= 2^i) by (apply Z.pow_le_mono_r; lia).
  destruct (Z.ltb_spec y 0) as [Hn|Hn].
  - apply Z.bits_above_log2_neg; [lia|].
    destruct (Z.eq_dec y (-1)) as [->|Hne]; [simpl; lia|].
    apply Z.log2_lt_pow2; lia.
  - destruct (Z.eq_dec y 0) as [->|Hne]; [apply Z.bits_0|].
    apply Z.bits_above_log2; [lia|]. apply Z.log2_lt_pow2; lia.
Qed.

(** Bit [i] of [ToInt32 x]: the low 32 bits are those of [x], the rest copy
    bit 31. *)
Lemma toInt32_testbit x i :
  Z.testbit (toInt32 x) i = Z.testbit x (Z.min i 31).
Proof.
  destruct (Z.lt_ge_cases i 0) as [Hneg|Hi].
  { rewrite Z.min_l by lia. now rewrite !Z.testbit_neg_r. }
  assert (Hlow : forall j, 0 <= j < 32 -> Z.testbit (toInt32 x) j = Z.testbit x j).
  { intros j Hj. rewrite <- (Z.mod_pow2_bits_low (toInt32 x) 32 j) by lia.
    rewrite toInt32_mod. apply Z.mod_pow2_bits_low. lia. }
  destruct (Z.lt_ge_cases i 31).
  - rewrite Z.min_l by lia. apply Hlow. lia.
  - rewrite Z.min_r by lia. rewrite <- (Hlow 31) by lia.
    rewrite !(int32_sign_bits (toInt32 x)) by (auto using toInt32_range; lia).
    reflexivity.
Qed.

Lemma shiftl_testbit a n m :
  Z.testbit (Z.shiftl a n) m = negb (m <? 0) && Z.testbit a (m - n).
Proof.
  destruct (Z.ltb_spec m 0); simpl.
  - now rewrite Z.testbit_neg_r.
  - now apply Z.shiftl_spec.
Qed.

Lemma shiftr_testbit a n m :
  Z.testbit (Z.shiftr a n) m = negb (m <? 0) && Z.testbit a (m + n).
Proof.
  destruct (Z.ltb_spec m 0); simpl.
  - now rewrite Z.testbit_neg_r.
  - now apply Z.shiftr_spec.
Qed.

Lemma ones_testbit n i : 0 <= n ->
  Z.testbit (Z.ones n) i = negb (i <? 0) && (i <? n).
Proof.
  intros Hn. destruct (Z.ltb_spec i 0); simpl.
  - now rewrite Z.testbit_neg_r.
  - destruct (Z.ltb_spec i n).
    + apply Z.ones_spec_low; lia.
    + apply Z.ones_spec_high; lia.
Qed.

(** Expose the [Z] operations behind the JavaScript operators, with the
    masks written as [Z.ones]. *)
Ltac js_unfold :=
  unfold js_and, js_or, js_sar, js_shl, js_shr, toUint32;
  rewrite ?(toInt32_id 1), ?(toInt32_id 3), ?(toInt32_id 15), ?(toInt32_id 63), ?(toInt32_id 4095) by lia;
  change (28 mod 32) with 28; change (16 mod 32) with 16;
  change (10 mod 32) with 10; change (4 mod 32) with 4; change (2 mod 32) with 2;
  change 3 with (Z.ones 2); change 15 with (Z.ones 4);
  change 63 with (Z.ones 6); change 4095 with (Z.ones 12).

(** Push [Z.testbit] through the bitwise operations. *)
Ltac bit_rewrite :=
  repeat (rewrite ?Z.land_spec, ?Z.lor_spec, ?shiftl_testbit, ?shiftr_testbit,
            ?toInt32_testbit, ?ones_testbit by lia).

(** Decide the comparisons and minima on bit indices once the range of the
    index is known. *)
Ltac resolve_cmp :=
  repeat match goal with
    | |- context [Z.min ?a ?b] =>
        first [rewrite (Z.min_l a b) by lia | rewrite (Z.min_r a b) by lia]
    | |- context [?a <? ?b] =>
        first [rewrite (proj2 (Z.ltb_lt a b)) by lia
              | rewrite (proj2 (Z.ltb_ge a b)) by lia]
    end.

Ltac finish_bits :=
  cbn [negb];
  rewrite ?andb_false_r, ?andb_true_r, ?orb_false_r, ?orb_false_l,
    ?andb_true_l, ?andb_false_l;
  try reflexivity; try (f_equal; lia).

(** One decoded field of an encoding, bit by bit. *)
Ltac field_bits width :=
  js_unfold;
  apply Z.bits_inj'; intros i Hi; bit_rewrite;
  destruct (Z.ltb_spec i width); [|now rewrite !andb_false_r];
  resolve_cmp; finish_bits.

Lemma decode_encode_turn s :
  turn (decodeGameStateHash (encodeGameStateHash s)) = Z.land (currentTurn s) 15.
Proof. unfold decodeGameStateHash, encodeGameStateHash; cbn [turn]. field_bits 4. Qed.

Lemma decode_encode_chairs s :
  chairs (decodeGameStateHash (encodeGameStateHash s))
  = Z.land (chairBits_loop (chairsRemaining s) 12) 4095.
Proof. unfold decodeGameStateHash, encodeGameStateHash; cbn [chairs]. field_bits 12. Qed.

Lemma decode_encode_player1Score s :
  h_player1Score (decodeGameStateHash (encodeGameStateHash s))
  = Z.land (player1Score s) 63.
Proof.
  unfold decodeGameStateHash, encodeGameStateHash; cbn [h_player1Score]. field_bits 6.
Qed.

Lemma decode_encode_player2Score s :
  h_player2Score (decodeGameStateHash (encodeGameStateHash s))
  = Z.land (player2Score s) 63.
Proof.
  unfold decodeGameStateHash, encodeGameStateHash; cbn [h_player2Score]. field_bits 6.
Qed.

Lemma decode_encode_player1Electric s :
  player1Electric (decodeGameStateHash (encodeGameStateHash s))
  = Z.land (player1ElectricCount s) 3.
Proof.
  unfold decodeGameStateHash, encodeGameStateHash; cbn [player1Electric]. field_bits 2.
Qed.

Lemma decode_encode_player2Electric s :
  player2Electric (decodeGameStateHash (encodeGameStateHash s))
  = Z.land (player2ElectricCount s) 3.
Proof.
  unfold decodeGameStateHash, encodeGameStateHash; cbn [player2Electric]. field_bits 2.
Qed.

Lemma land_ones_small x n : 0 <= n -> 0 <= x < 2^n -> Z.land x (Z.ones n) = x.
Proof. intros Hn Hx. rewrite Z.land_ones by lia. apply Z.mod_small. lia. Qed.

Lemma testbit_one j : Z.testbit 1 j = (j =? 0).
Proof. destruct j as [|p|p]; reflexivity. Qed.

(** [1 << i] for a chair index. *)
Lemma one_shl_testbit (i : nat) j :
  (i < 31)%nat ->
  Z.testbit (js_shl 1 (Z.of_nat i)) j = (j =? Z.of_nat i).
Proof.
  intros Hi. unfold js_shl. rewrite (toInt32_id 1) by lia.
  rewrite Z.mod_small by lia.
  rewrite toInt32_testbit, shiftl_testbit, testbit_one.
  destruct (Z.eqb_spec j (Z.of_nat i)) as [->|Hne].
  - rewrite Z.min_l by lia. 
    rewrite (proj2 (Z.ltb_ge _ _)) by lia. simpl. apply Z.eqb_eq. lia.
  - destruct (Z.ltb_spec (Z.min j 31) 0); simpl; [reflexivity|].
    apply Z.eqb_neq. lia.
Qed.

Lemma chair_bit_set_testbit mask (i : nat) :
  (i < 31)%nat -> chair_bit_set mask i = Z.testbit mask (Z.of_nat i).
Proof.
  intros Hi. unfold chair_bit_set.
  set (X := js_and mask (js_shl 1 (Z.of_nat i))).
  assert (HX : forall j, Z.testbit X j = Z.testbit mask j && (j =? Z.of_nat i)).
  { intros j. unfold X, js_and.
    rewrite Z.land_spec, !toInt32_testbit.
    rewrite one_shl_testbit by lia.
    destruct (Z.eqb_spec j (Z.of_nat i)) as [->|Hne].
    - rewrite Z.min_l by lia. now rewrite Z.eqb_refl.
    - destruct (Z.eqb_spec (Z.min j 31) (Z.of_nat i)); [lia|].
      now rewrite !andb_false_r. }
  destruct (Z.testbit mask (Z.of_nat i)) eqn:Hb.
  - destruct (Z.eqb_spec X 0) as [H0|]; [|reflexivity].
    specialize (HX (Z.of_nat i)). rewrite H0, Z.bits_0, Hb, Z.eqb_refl in HX.
    discriminate.
  - assert (X = 0) as ->; [|reflexivity].
    apply Z.bits_inj'; intros j _. rewrite HX, Z.bits_0.
    destruct (Z.eqb_spec j (Z.of_nat i)) as [->|]; [now rewrite Hb|apply andb_false_r].
Qed.

Lemma chairBits_loop_testbit arr (n : nat) j :
  (n <= 12)%nat ->
  Z.testbit (chairBits_loop arr n) j
  = negb (j <? 0) && (j <? Z.of_nat n) && truthy_at arr (Z.to_nat j).
Proof.
  intros Hn. revert j. induction n as [|n IH]; intros j.
  - unfold chairBits_loop; simpl. rewrite Z.bits_0.
    destruct (Z.ltb_spec j 0); simpl; [reflexivity|].
    now rewrite (proj2 (Z.ltb_ge j (Z.of_nat 0))) by lia.
  - unfold chairBits_loop in *. rewrite seq_S, fold_left_app. simpl.
    match goal with
    | |- context [fold_left ?f (seq 0 n) 0] => set (acc := fold_left f (seq 0 n) 0) in *
    end.
    assert (Hcase : forall b : bool,
      Z.testbit (if b then js_or acc (js_shl 1 (Z.of_nat n)) else acc) j
      = Z.testbit acc j || (b && (j =? Z.of_nat n))).
    { intros [|]; [|now rewrite orb_false_r].
      unfold js_or. rewrite Z.lor_spec, !toInt32_testbit.
      rewrite one_shl_testbit by lia.
      rewrite !IH by lia. simpl.
      destruct (Z.lt_ge_cases j 31).
      - now rewrite !Z.min_l by lia.
      - rewrite !Z.min_r by lia.
        rewrite (proj2 (Z.ltb_ge 31 (Z.of_nat n))) by lia.
        rewrite (proj2 (Z.ltb_ge j (Z.of_nat n))) by lia.
        rewrite !andb_false_r. cbn [orb].
        rewrite (proj2 (Z.eqb_neq 31 (Z.of_nat n))) by lia.
        symmetry. apply Z.eqb_neq. lia. }
    rewrite Hcase, IH by lia.
    destruct (Z.ltb_spec j 0); simpl.
    { destruct (Z.eqb_spec j (Z.of_nat n)); [lia|]. now rewrite andb_false_r. }
    clear Hcase.
    destruct (Z.eqb_spec j (Z.of_nat n)) as [Heq|Hne].
    + rewrite Heq, Nat2Z.id, (proj2 (Z.ltb_ge _ _)) by lia. cbn [andb orb].
      rewrite (proj2 (Z.ltb_lt _ _)) by lia. now rewrite andb_true_r.
    + rewrite andb_false_r, orb_false_r.
      destruct (Z.ltb_spec j (Z.of_nat n)), (Z.ltb_spec j (Z.of_nat (S n)));
        try lia; reflexivity.
Qed.

Lemma truthy_at_chairs_of_mask mask (i : nat) :
  truthy_at (chairs_of_mask mask) i
  = (i <? 12)%nat && Z.testbit mask (Z.of_nat i).
Proof.
  unfold truthy_at, chairs_of_mask.
  destruct (Nat.ltb_spec i 12) as [Hi|Hi]; cbn [andb].
  - rewrite (nth_indep _ false (chair_bit_set mask 0)) by (rewrite length_map, length_seq; lia).
    rewrite map_nth, seq_nth by lia. rewrite Nat.add_0_l.
    apply chair_bit_set_testbit. lia.
  - apply nth_overflow. rewrite length_map, length_seq. lia.
Qed.

Lemma chairs_of_mask_length mask : length (chairs_of_mask mask) = 12%nat.
Proof. unfold chairs_of_mask. now rewrite length_map, length_seq. Qed.

(** The mask built from an array and read back gives the array, when it
    has its twelve entries. *)
Lemma chairs_of_mask_chairBits arr :
  length arr = 12%nat ->
  chairs_of_mask (Z.land (chairBits_loop arr 12) 4095) = arr.
Proof.
  intros Hlen. apply nth_ext with (d := false) (d' := false).
  - now rewrite chairs_of_mask_length.
  - intros i Hi. rewrite chairs_of_mask_length in Hi.
    fold (truthy_at (chairs_of_mask (Z.land (chairBits_loop arr 12) 4095)) i).
    rewrite truthy_at_chairs_of_mask.
    rewrite (proj2 (Nat.ltb_lt _ _)) by lia. simpl.
    change 4095 with (Z.ones 12).
    rewrite Z.land_spec, chairBits_loop_testbit, ones_testbit by lia.
    rewrite Nat2Z.id.
    rewrite (proj2 (Z.ltb_ge _ 0)), (proj2 (Z.ltb_lt _ 12)) by lia.
    cbn [negb andb]. unfold truthy_at.
    rewrite ?(proj2 (Z.ltb_lt (Z.of_nat i) 12)) by lia. now rewrite ?andb_true_r.
Qed.

(** Conversely the mask of the array read from a mask is the mask's low
    twelve bits. *)
Lemma chairBits_chairs_of_mask mask :
  chairBits_loop (chairs_of_mask mask) 12 = Z.land mask (Z.ones 12).
Proof.
  apply Z.bits_inj'; intros j Hj.
  rewrite chairBits_loop_testbit, truthy_at_chairs_of_mask by lia.
  rewrite Z.land_spec, ones_testbit by lia.
  rewrite (proj2 (Z.ltb_ge j 0)) by lia. cbn [negb andb].
  change (Z.of_nat 12) with 12.
  destruct (Z.ltb_spec j 12); cbn [andb]; [|now rewrite ?andb_false_r].
  rewrite (proj2 (Nat.ltb_lt _ _)) by lia. cbn [andb].
  rewrite Z2Nat.id by lia. now rewrite ?andb_true_r.
Qed.

(** *** Decoding reads the fields of the bit layout *)

Lemma bit_field_bits x lo width :
  0 <= lo -> 0 <= width ->
  bit_field x lo width = Z.land (Z.shiftr (Z.land x (Z.ones 32)) lo) (Z.ones width).
Proof.
  intros Hlo Hw. unfold bit_field.
  now rewrite !Z.land_ones, Z.shiftr_div_pow2 by lia.
Qed.

(** One decoded field of an arbitrary word, bit by bit. *)
Ltac word_bits width :=
  rewrite bit_field_bits by lia; js_unfold;
  apply Z.bits_inj'; intros i Hi; bit_rewrite;
  destruct (Z.ltb_spec i width); [|now rewrite !andb_false_r];
  resolve_cmp; finish_bits.

Lemma decode_turn x : turn (decodeGameStateHash x) = bit_field x 28 4.
Proof. unfold decodeGameStateHash; cbn [turn]. word_bits 4. Qed.

Lemma decode_chairs x : chairs (decodeGameStateHash x) = bit_field x 16 12.
Proof. unfold decodeGameStateHash; cbn [chairs]. word_bits 12. Qed.

Lemma decode_player1Score x : h_player1Score (decodeGameStateHash x) = bit_field x 10 6.
Proof. unfold decodeGameStateHash; cbn [h_player1Score]. word_bits 6. Qed.

Lemma decode_player2Score x : h_player2Score (decodeGameStateHash x) = bit_field x 4 6.
Proof. unfold decodeGameStateHash; cbn [h_player2Score]. word_bits 6. Qed.

Lemma decode_player1Electric x : player1Electric (decodeGameStateHash x) = bit_field x 2 2.
Proof. unfold decodeGameStateHash; cbn [player1Electric]. word_bits 2. Qed.

Lemma decode_player2Electric x : player2Electric (decodeGameStateHash x) = bit_field x 0 2.
Proof. unfold decodeGameStateHash; cbn [player2Electric]. word_bits 2. Qed.

Lemma bit_field_range x lo width :
  0 <= width -> 0 <= bit_field x lo width < 2^width.
Proof. intros Hw. unfold bit_field. apply Z.mod_pos_bound. apply Z.pow_pos_nonneg; lia. Qed.

(** *** Counting chairs *)

Lemma count_true_map {A} (f : A -> bool) (l : list A) :
  Z.of_nat (length (filter (fun b => b = true) (map f l)))
  = fold_right (fun i acc => Z.b2z (f i) + acc) 0 l.
Proof.
  induction l as [|a l IH]; [reflexivity|].
  cbn [map fold_right]. rewrite filter_cons.
  destruct (f a) eqn:Hfa; case_decide; try congruence.
  - cbn [length Z.b2z]. lia.
  - cbn [Z.b2z]. lia.
Qed.

Lemma remaining_of_mask mask :
  Z.of_nat (length (filter (fun b => b = true) (chairs_of_mask mask)))
  = popcount12 mask.
Proof.
  unfold chairs_of_mask, popcount12.
  rewrite (map_ext_in _ (fun i => Z.testbit mask (Z.of_nat i))).
  - apply (count_true_map (fun i => Z.testbit mask (Z.of_nat i))).
  - intros i Hi. apply in_seq in Hi. apply chair_bit_set_testbit. lia.
Qed.

Lemma points_comparison (a b : Z) :
  (if a >? b then PLAYER1_WIN else if b >? a then PLAYER2_WIN else DRAW)
  = match a ?= b with Gt => PLAYER1_WIN | Lt => PLAYER2_WIN | Eq => DRAW end.
Proof.
  unfold Z.gtb. rewrite (Z.compare_antisym a b).
  destruct (a ?= b); reflexivity.
Qed.

Lemma getGameStatusFromHash_by_priority h :
  getGameStatusFromHash h
  = status_by_priority (fun score => 40 <=? score)
      (turn h) (chairs h) (h_player1Score h) (h_player2Score h)
      (player1Electric h) (player2Electric h).
Proof.
  unfold getGameStatusFromHash, status_by_priority.
  rewrite remaining_of_mask, points_comparison, !Z.geb_leb.
  reflexivity.
Qed.

Lemma status_of_decoded x :
  getGameStatusFromHash (decodeGameStateHash x) = spec_status_at_least x.
Proof.
  rewrite getGameStatusFromHash_by_priority.
  unfold spec_status_at_least, status_of_word.
  now rewrite decode_turn, decode_chairs, decode_player1Score, decode_player2Score,
    decode_player1Electric, decode_player2Electric.
Qed.

(** *** Encoding after decoding *)

Lemma encode_hashToGameState x :
  encodeGameStateHash (hashToGameState x) = toInt32 x.
Proof.
  unfold encodeGameStateHash, hashToGameState.
  cbn [currentTurn chairsRemaining player1Score player2Score
       player1ElectricCount player2ElectricCount].
  rewrite chairBits_chairs_of_mask.
  unfold decodeGameStateHash;
    cbn [turn chairs h_player1Score h_player2Score player1Electric player2Electric].
  js_unfold.
  apply Z.bits_inj'; intros i Hi. bit_rewrite.
  assert (Hcases : i < 2 \/ 2 <= i < 4 \/ 4 <= i < 10 \/ 10 <= i < 16 \/
                   16 <= i < 28 \/ 28 <= i < 31 \/ 31 <= i) by lia.
  destruct Hcases as [H|[H|[H|[H|[H|[H|H]]]]]]; resolve_cmp; finish_bits.
Qed.

Lemma toInt32_idem x : toInt32 (toInt32 x) = toInt32 x.
Proof. apply toInt32_id, toInt32_range. Qed.

Lemma toInt32_toUint32 x : toInt32 (toUint32 x) = toInt32 x.
Proof.
  unfold toInt32, toUint32. f_equal. now rewrite Zplus_mod_idemp_l.
Qed.

Lemma toUint32_toInt32 x : toUint32 (toInt32 x) = toUint32 x.
Proof. apply toInt32_mod. Qed.

Lemma js_or_range a b : - 2^31 <= js_or a b < 2^31.
Proof.
  unfold js_or.
  assert (Heq : toInt32 (Z.lor (toInt32 a) (toInt32 b)) = Z.lor (toInt32 a) (toInt32 b)).
  { apply Z.bits_inj'; intros i Hi.
    rewrite toInt32_testbit, !Z.lor_spec, !toInt32_testbit.
    now rewrite !Z.min_assoc, !Z.min_id || (f_equal; f_equal; lia). }
  rewrite <- Heq. apply toInt32_range.
Qed.

Lemma encode_range s : - 2^31 <= encodeGameStateHash s < 2^31.
Proof. unfold encodeGameStateHash. apply js_or_range. Qed.

(** Reading a hash back through its unsigned rendering changes nothing. *)
Lemma decode_toUint32 x : decodeGameStateHash (toUint32 x) = decodeGameStateHash x.
Proof.
  unfold decodeGameStateHash, js_sar, js_and. now rewrite !toInt32_toUint32.
Qed.

Lemma hashToGameState_toUint32 x : hashToGameState (toUint32 x) = hashToGameState x.
Proof. unfold hashToGameState. now rewrite decode_toUint32. Qed.

(** The top four bits of an encoding: [encode(s) >>> 28]. *)
Lemma encode_top_bits s :
  js_shr (encodeGameStateHash s) 28 = Z.land (currentTurn s) 15.
Proof.
  unfold js_shr, toUint32. change (28 mod 32) with 28.
  rewrite <- (Z.land_ones _ 32) by lia.
  unfold encodeGameStateHash. js_unfold.
  apply Z.bits_inj'; intros i Hi. bit_rewrite.
  destruct (Z.ltb_spec i 4); [|resolve_cmp; finish_bits].
  resolve_cmp; finish_bits.
Qed.

(** ** Rule engine *)

Lemma available_iff (s : GameState) c :
  c ∈ getAvailableChairs s <-> chair_present s c.
Proof.
  unfold getAvailableChairs, chair_present.
  rewrite list_elem_of_filter, elem_of_lookup_imap. split.
  - intros [Hne (i & y & -> & Hy)]. destruct y; [|now cbn in Hne].
    split; [lia|]. now replace (Z.to_nat (Z.of_nat i + 1 - 1)) with i by lia.
  - intros [Hc Hy]. split; [lia|].
    exists (Z.to_nat (c - 1)), true. split; [lia|assumption].
Qed.

Lemma chair_present_bounds (s : GameState) c :
  chair_present s c -> 1 <= c <= Z.of_nat (length (chairsRemaining s)).
Proof.
  intros [Hc Hy]. apply lookup_lt_Some in Hy. lia.
Qed.

Lemma array_set_false_inside arr k :
  0 <= k -> (Z.to_nat k < length arr)%nat ->
  array_set_false arr k = <[Z.to_nat k := false]> arr.
Proof.
  intros Hk Hlt. unfold array_set_false.
  rewrite (proj2 (Z.ltb_ge k 0)) by lia.
  now rewrite (proj2 (Nat.ltb_lt _ _)) by lia.
Qed.

Lemma count_true_insert_false (l : list bool) i :
  l !! i = Some true ->
  (length (filter (fun b => b = true) (<[i := false]> l)) + 1
   = length (filter (fun b => b = true) l))%nat.
Proof.
  revert i. induction l as [|b l IH]; intros i Hi; [discriminate|].
  destruct i as [|i].
  - injection Hi as ->. change (<[0%nat := false]> (true :: l)) with (false :: l).
    rewrite !filter_cons. repeat case_decide; try congruence. cbn [length]. lia.
  - change (<[S i := false]> (b :: l)) with (b :: <[i := false]> l).
    specialize (IH i Hi).
    rewrite !filter_cons. case_decide; cbn [length]; lia.
Qed.

(** *** [finish_turn] touches only status, winner and turn *)

Lemma finish_turn_status n : gameStatus (finish_turn n) = checkGameEnd n.
Proof. unfold finish_turn. cbn. case_decide; reflexivity. Qed.

Lemma finish_turn_turn n :
  currentTurn (finish_turn n)
  = if decide (checkGameEnd n = IN_PROGRESS) then currentTurn n + 1 else currentTurn n.
Proof. unfold finish_turn. cbn. repeat case_decide; reflexivity. Qed.

Lemma finish_turn_winner n :
  winner (finish_turn n) = getWinner (finish_turn n).
Proof. unfold finish_turn. cbn. case_decide; reflexivity. Qed.

Lemma finish_turn_chairs n : chairsRemaining (finish_turn n) = chairsRemaining n.
Proof. unfold finish_turn. cbn. case_decide; reflexivity. Qed.

Lemma finish_turn_score p n : score_of p (finish_turn n) = score_of p n.
Proof. unfold finish_turn. cbn. case_decide; destruct p; reflexivity. Qed.

Lemma finish_turn_shocks p n : shocks_of p (finish_turn n) = shocks_of p n.
Proof. unfold finish_turn. cbn. case_decide; destruct p; reflexivity. Qed.

Lemma attacker_defender_differ t : getCurrentAttacker t ≠ getCurrentDefender t.
Proof.
  unfold getCurrentAttacker, getCurrentDefender.
  destruct (Z.rem t 2 =? 0); discriminate.
Qed.

(** *** The two branches of [apply_choices] *)

Lemma apply_matched s a d :
  a = d ->
  let sel := getCurrentAttacker (currentTurn s) in
  let other := getCurrentDefender (currentTurn s) in
  let n := apply_choices s a d in
  score_of sel n = 0 ∧ shocks_of sel n = shocks_of sel s + 1 ∧
  score_of other n = score_of other s ∧ shocks_of other n = shocks_of other s ∧
  chairsRemaining n = chairsRemaining s ∧ currentTurn n = currentTurn s.
Proof.
  intros ->. unfold apply_choices, getCurrentAttacker, getCurrentDefender.
  rewrite Z.eqb_refl.
  destruct (Z.rem (currentTurn s) 2 =? 0); cbn; repeat apply conj; reflexivity.
Qed.

Lemma apply_unmatched s a d :
  a ≠ d ->
  let sel := getCurrentAttacker (currentTurn s) in
  let other := getCurrentDefender (currentTurn s) in
  let n := apply_choices s a d in
  score_of sel n = score_of sel s + a ∧ shocks_of sel n = shocks_of sel s ∧
  score_of other n = score_of other s ∧ shocks_of other n = shocks_of other s ∧
  chairsRemaining n = array_set_false (chairsRemaining s) (a - 1) ∧
  currentTurn n = currentTurn s.
Proof.
  intros Hne. unfold apply_choices, getCurrentAttacker, getCurrentDefender.
  rewrite (proj2 (Z.eqb_neq a d)) by assumption.
  destruct (Z.rem (currentTurn s) 2 =? 0); cbn; repeat apply conj; reflexivity.
Qed.

(** *** The reachability invariant *)

Lemma checkGameEnd_in_progress s :
  checkGameEnd s = IN_PROGRESS <->
  player1ElectricCount s ≠ 3 ∧ player2ElectricCount s ≠ 3 ∧
  player1Score s < 40 ∧ player2Score s < 40 ∧
  remaining_count s ≠ 1 ∧ currentTurn s < 15.
Proof.
  unfold checkGameEnd, remaining_count, MAX_ELECTRIC_COUNT, MAX_SCORE, MAX_TURNS.
  rewrite !Z.geb_leb, !Z.gtb_ltb. change (16 - 1) with 15.
  destruct (Z.eqb_spec (player1ElectricCount s) 3); [intuition (try discriminate; lia)|].
  destruct (Z.eqb_spec (player2ElectricCount s) 3); [intuition (try discriminate; lia)|].
  destruct (Z.leb_spec 40 (player1Score s)); [intuition (try discriminate; lia)|].
  destruct (Z.leb_spec 40 (player2Score s)); [intuition (try discriminate; lia)|].
  destruct (Z.eqb_spec
              (Z.of_nat (length (filter (fun chair => chair = true) (chairsRemaining s)))) 1);
    cbn [orb].
  { destruct (Z.ltb_spec (player2Score s) (player1Score s)); [intuition (try discriminate; lia)|].
    destruct (Z.ltb_spec (player1Score s) (player2Score s)); intuition (try discriminate; lia). }
  destruct (Z.leb_spec 15 (currentTurn s)).
  { destruct (Z.ltb_spec (player2Score s) (player1Score s)); [intuition (try discriminate; lia)|].
    destruct (Z.ltb_spec (player1Score s) (player2Score s)); intuition (try discriminate; lia). }
  intuition lia.
Qed.

Lemma remaining_count_le (s : GameState) :
  remaining_count s <= Z.of_nat (length (chairsRemaining s)).
Proof. unfold remaining_count. pose proof (length_filter (fun b => b = true) (chairsRemaining s)). lia. Qed.

Lemma invariant_initial : state_invariant INITIAL_GAME_STATE.
Proof.
  split; vm_compute; try reflexivity; try discriminate; split; discriminate.
Qed.

Lemma finish_turn_invariant n : mid_turn n -> state_invariant (finish_turn n).
Proof.
  intros (Hlen & Hturn & Hs1 & Hs2 & He1 & He2 & Hrem & Hmoves).
  pose proof (remaining_count_le n) as Hle. rewrite Hlen in Hle.
  unfold finish_turn. cbn [gameStatus set_winner set_gameStatus].
  case_decide as Hst.
  - pose proof (proj1 (checkGameEnd_in_progress n) Hst) as (? & ? & ? & ? & ? & ?).
    split; cbn; unfold remaining_count in *; cbn; try lia.
    + rewrite Hst. apply checkGameEnd_in_progress. unfold remaining_count. cbn.
      repeat apply conj; try assumption; try lia.
    + rewrite Hst. reflexivity.
    + rewrite decide_True by assumption. lia.
  - split; cbn; unfold remaining_count in *; cbn; try lia; try reflexivity.
    case_decide; [contradiction|lia].
Qed.

Lemma apply_choices_mid_turn s a d :
  state_invariant s -> gameStatus s = IN_PROGRESS -> legal_choices s a d ->
  mid_turn (apply_choices s a d).
Proof.
  intros Hinv Hprog [Ha _]. apply available_iff in Ha.
  pose proof (chair_present_bounds _ _ Ha) as Hbound.
  destruct Ha as [Ha1 Hlook].
  destruct Hinv as [Hlen Hturn Hs1 Hs2 He1 He2 Hrem Hst _ Hmoves].
  rewrite Hprog in Hst, Hmoves.
  apply checkGameEnd_in_progress in Hst as (? & ? & ? & ? & ? & ?).
  rewrite decide_True in Hmoves by reflexivity.
  rewrite Hlen in Hbound.
  assert (Hset : array_set_false (chairsRemaining s) (a - 1)
                 = <[Z.to_nat (a - 1) := false]> (chairsRemaining s)).
  { apply array_set_false_inside; [lia|]. eapply lookup_lt_Some, Hlook. }
  pose proof (count_true_insert_false _ _ Hlook) as Hcount.
  unfold mid_turn, apply_choices, remaining_count in *.
  destruct (Z.eqb_spec a d); destruct (getCurrentAttacker (currentTurn s));
    cbn; rewrite ?Hset, ?length_insert; repeat apply conj; try lia.
Qed.

Lemma invariant_step s a d :
  state_invariant s -> gameStatus s = IN_PROGRESS -> legal_choices s a d ->
  state_invariant (newGameState (processTurn s a d)).
Proof.
  intros. cbn [newGameState processTurn]. 
  apply finish_turn_invariant. now apply apply_choices_mid_turn.
Qed.

Lemma reachable_invariant s : reachable s -> state_invariant s.
Proof.
  induction 1 as [|s a d _ IH Hprog Hlegal].
  - apply invariant_initial.
  - now apply invariant_step.
Qed.

(** ** [processTurn] on the heap *)


Section Runs.
Context {A B : Type}.

Lemma runs_bind (m : exec A) (f : A -> exec B) h a h1 b h2 :
  runs m h a h1 -> runs (f a) h1 b h2 -> runs (m ≫= f) h b h2.
Proof. unfold runs, mbind, exec_bind. now intros ->. Qed.

Lemma runs_ret (a : A) h : runs (mret a) h a h.
Proof. reflexivity. Qed.

End Runs.

Lemma runs_read_object h r o :
  objects h !! r = Some o -> runs (read_object r) h o h.
Proof. unfold runs, read_object. now intros ->. Qed.

Lemma runs_read_array h r v :
  arrays h !! r = Some v -> runs (read_array r) h v h.
Proof. unfold runs, read_array. now intros ->. Qed.

Lemma runs_alloc_array h v :
  runs (alloc_array v) h (fresh (dom (arrays h)))
       (mkHeap (<[fresh (dom (arrays h)) := v]> (arrays h)) (objects h)).
Proof. reflexivity. Qed.

Lemma runs_alloc_object h o :
  runs (alloc_object o) h (fresh (dom (objects h)))
       (mkHeap (arrays h) (<[fresh (dom (objects h)) := o]> (objects h))).
Proof. reflexivity. Qed.

Lemma runs_update_object h r f o :
  objects h !! r = Some o ->
  runs (update_object r f) h tt (mkHeap (arrays h) (<[r := f o]> (objects h))).
Proof. unfold runs, update_object. now intros ->. Qed.

Lemma runs_store_false h r k v :
  arrays h !! r = Some v ->
  runs (store_false r k) h tt
       (mkHeap (<[r := array_set_false v k]> (arrays h)) (objects h)).
Proof. unfold runs, store_false. now intros ->. Qed.

(** Symbolic execution of a heap computation, one primitive at a time. *)
Ltac lookup_now :=
  cbn [arrays objects chairsRemaining set_chairsRemaining];
  first [eassumption | apply lookup_insert_eq].

Ltac run_prim :=
  first
    [ eapply runs_read_object; lookup_now
    | eapply runs_read_array; lookup_now
    | eapply runs_alloc_array
    | eapply runs_alloc_object
    | eapply runs_update_object; lookup_now
    | eapply runs_store_false; lookup_now
    | eapply runs_ret ].

Ltac run_bind := eapply runs_bind; [run_prim | cbv beta].

Lemma processTurn_heap_run h gs g src a d :
  objects h !! gs = Some g ->
  arrays h !! chairsRemaining g = Some src ->
  processTurn_heap gs a d h = Some (heap_result h g src a d).
Proof.
  intros Hg Hsrc.
  enough (Hex : ∃ out, runs (processTurn_heap gs a d) h (fst out) (snd out) ∧
                       out = heap_result h g src a d).
  { destruct Hex as ([r h'] & Hrun & <-). exact Hrun. }
  unfold heap_result, with_newGameState, processTurn, apply_choices, finish_turn,
    processTurn_heap, checkGameEnd_at.
  destruct g as [t c s1 s2 e1 e2 st w].
  cbn [chairsRemaining currentTurn set_chairsRemaining] in *.
  destruct (a =? d) eqn:Hm; destruct (getCurrentAttacker t) eqn:Hatt;
    cbn -[fresh checkGameEnd];
    match goal with
    | |- context [decide (?x = IN_PROGRESS)] =>
        destruct (decide (x = IN_PROGRESS)) as [Hs|Hs]
    end.
  all: eexists (_, _); split;
    [ cbn [fst snd];
      do 4 run_bind;
      cbn [currentTurn]; rewrite ?Hm, ?Hatt;
      eapply runs_bind;
      [ repeat first [run_prim | run_bind] | cbv beta ];
      eapply runs_bind;
      [ repeat first [run_prim | run_bind] | cbv beta ];
      do 3 run_bind;
      cbn -[fresh checkGameEnd];
      rewrite ?insert_insert_eq;
      (rewrite decide_True by exact Hs) || (rewrite decide_False by exact Hs);
      repeat first [run_prim | run_bind]
    | cbn -[fresh checkGameEnd]; rewrite ?insert_insert_eq; reflexivity ].
Qed.


(** ** Analysis progress *)

Global Instance descending_trans : Transitive descending.
Proof. unfold descending. intros x y z ? ?. lia. Qed.

Global Instance descending_total : Total descending.
Proof. unfold descending. intros x y. lia. Qed.

Lemma pending_iff progress t total :
  totalStates progress !! t = Some total ->
  pending progress t <-> total ≠ 0 ∧ analyzed_of progress t < total.
Proof.
  intros Ht. unfold pending. split.
  - intros (total' & Ht' & ? & ?). rewrite Ht in Ht'. injection Ht' as <-. auto.
  - intros [? ?]. eauto.
Qed.

Lemma not_pending_unlisted progress t :
  totalStates progress !! t = None -> ¬ pending progress t.
Proof. intros Ht (total & Ht' & _). congruence. Qed.

(** The loop returns the first pending turn of the list it walks. *)
Lemma next_batch_loop_first progress requestedSize turns :
  match next_batch_loop progress requestedSize turns with
  | Some b =>
      ∃ before after total,
        turns = before ++ b_turn b :: after ∧
        Forall (λ t, ¬ pending progress t) before ∧
        pending progress (b_turn b) ∧
        totalStates progress !! b_turn b = Some total ∧
        remainingCount b
        = Z.min (total - analyzed_of progress (b_turn b)) requestedSize
  | None => Forall (λ t, ¬ pending progress t) turns
  end.
Proof.
  induction turns as [|t rest IH]; cbn [next_batch_loop]; [constructor|].
  destruct (totalStates progress !! t) as [total|] eqn:Ht.
  - destruct (Z.eqb_spec total 0) as [Hz|Hz].
    + assert (Hnp : ¬ pending progress t).
      { rewrite (pending_iff _ _ _ Ht). tauto. }
      destruct (next_batch_loop progress requestedSize rest) as [b|].
      * destruct IH as (before & after & tot & -> & Hb & Hp & Htot & Hc).
        exists (t :: before), after, tot. repeat split; auto.
      * constructor; assumption.
    + rewrite Z.gtb_ltb.
      destruct (Z.ltb_spec 0 (total - analyzed_of progress t)) as [Hr|Hr].
      * exists [], rest, total. cbn. repeat split; auto.
        apply (pending_iff _ _ _ Ht). split; [assumption|lia].
      * assert (Hnp : ¬ pending progress t).
        { rewrite (pending_iff _ _ _ Ht). lia. }
        destruct (next_batch_loop progress requestedSize rest) as [b|].
        -- destruct IH as (before & after & tot & -> & Hb & Hp & Htot & Hc).
           exists (t :: before), after, tot. repeat split; auto.
        -- constructor; assumption.
  - pose proof (not_pending_unlisted _ _ Ht) as Hnp.
    destruct (next_batch_loop progress requestedSize rest) as [b|].
    + destruct IH as (before & after & tot & -> & Hb & Hp & Htot & Hc).
      exists (t :: before), after, tot. repeat split; auto.
    + constructor; assumption.
Qed.

Lemma sortedTurns_elem progress t :
  t ∈ sortedTurns progress <-> is_Some (totalStates progress !! t).
Proof.
  unfold sortedTurns. rewrite merge_sort_Permutation, elem_of_elements.
  apply elem_of_dom.
Qed.

Lemma sortedTurns_sorted progress : StronglySorted descending (sortedTurns progress).
Proof. apply StronglySorted_merge_sort; apply _. Qed.

Lemma pending_listed progress t : pending progress t -> t ∈ sortedTurns progress.
Proof. intros (total & Ht & _). apply sortedTurns_elem. eauto. Qed.

Lemma getNextBatch_spec progress requestedSize :
  match getNextBatch progress requestedSize with
  | Some b =>
      pending progress (b_turn b) ∧
      (∀ t, pending progress t -> t <= b_turn b) ∧
      (∃ total, totalStates progress !! b_turn b = Some total ∧
         remainingCount b
         = Z.min (total - analyzed_of progress (b_turn b)) requestedSize)
  | None => ∀ t, ¬ pending progress t
  end.
Proof.
  unfold getNextBatch.
  pose proof (next_batch_loop_first progress requestedSize (sortedTurns progress)) as Hloop.
  pose proof (sortedTurns_sorted progress) as Hsorted.
  destruct (next_batch_loop progress requestedSize (sortedTurns progress)) as [b|].
  - destruct Hloop as (before & after & total & Heq & Hbefore & Hp & Htot & Hc).
    split; [assumption|]. split; [|eauto].
    intros t Ht. pose proof (pending_listed _ _ Ht) as Hin.
    rewrite Heq in Hin, Hsorted.
    apply elem_of_app in Hin as [Hin|Hin].
    + rewrite Forall_forall in Hbefore. exfalso. exact (Hbefore t Hin Ht).
    + apply elem_of_cons in Hin as [->|Hin]; [lia|].
      apply StronglySorted_app_1_r in Hsorted.
      apply StronglySorted_inv in Hsorted as [_ Hall].
      rewrite Forall_forall in Hall. apply (Hall t Hin).
  - intros t Ht. pose proof (pending_listed _ _ Ht) as Hin.
    rewrite Forall_forall in Hloop. exact (Hloop t Hin Ht).
Qed.


(** *** The call and its result *)

Lemma view_inv h r s :
  view h r = Some s ->
  ∃ g src, objects h !! r = Some g ∧ arrays h !! chairsRemaining g = Some src ∧
           s = set_chairsRemaining src g.
Proof.
  unfold view. destruct (objects h !! r) as [g|] eqn:Hg; [|discriminate].
  destruct (arrays h !! chairsRemaining g) as [src|] eqn:Hsrc; [|discriminate].
  intros [= <-]. exists g, src. repeat split; [assumption|reflexivity..].
Qed.

Lemma view_heap_of s : view (heap_of s) 1%positive = Some s.
Proof.
  unfold view, heap_of. cbn [objects arrays].
  rewrite lookup_singleton_eq. cbn [chairsRemaining set_chairsRemaining].
  rewrite lookup_singleton_eq. now destruct s.
Qed.

(** A call on an object that denotes [s] returns, and the object it returns
    denotes the successor computed from [s]. *)
Lemma call_processTurn_returns h gameState s a d :
  view h gameState = Some s ->
  ∃ r h',
    call_processTurn h gameState a d = Returns (r, h') ∧
    view h' (newGameState r) = Some (newGameState (processTurn s a d)) ∧
    r = with_newGameState (newGameState r) (processTurn s a d).
Proof.
  intros Hview. apply view_inv in Hview as (g & src & Hg & Hsrc & ->).
  unfold call_processTurn.
  rewrite (processTurn_heap_run h gameState g src a d Hg Hsrc).
  unfold heap_result.
  eexists _, _. split; [reflexivity|].
  cbn [newGameState with_newGameState]. split; [|reflexivity].
  unfold view; cbn [objects arrays].
  rewrite lookup_insert_eq. cbn [chairsRemaining set_chairsRemaining].
  rewrite lookup_insert_eq. f_equal.
  now destruct (newGameState (processTurn (set_chairsRemaining src g) a d)).
Qed.

Lemma call_processTurn_on_heap_of s a d :
  ∃ r h' s',
    call_processTurn (heap_of s) 1%positive a d = Returns (r, h') ∧
    view h' (newGameState r) = Some s' ∧
    s' = newGameState (processTurn s a d).
Proof.
  destruct (call_processTurn_returns (heap_of s) 1%positive s a d (view_heap_of s))
    as (r & h' & Hcall & Hnew & _).
  exists r, h', (newGameState (processTurn s a d)). auto.
Qed.

(** The status of the successor is derived from the state the two branches
    leave, and the turn is advanced from there. *)
Lemma processTurn_status s a d :
  gameStatus (newGameState (processTurn s a d)) = checkGameEnd (apply_choices s a d).
Proof. unfold processTurn; cbn [newGameState]. apply finish_turn_status. Qed.

Lemma processTurn_turn s a d :
  currentTurn (newGameState (processTurn s a d))
  = if decide (gameStatus (newGameState (processTurn s a d)) = IN_PROGRESS)
    then currentTurn s + 1 else currentTurn s.
Proof.
  rewrite processTurn_status. unfold processTurn; cbn [newGameState].
  rewrite finish_turn_turn.
  assert (Hturn : currentTurn (apply_choices s a d) = currentTurn s).
  { destruct (Z.eq_dec a d) as [Heq|Hne].
    - now destruct (apply_matched s a d Heq) as (_ & _ & _ & _ & _ & ?).
    - now destruct (apply_unmatched s a d Hne) as (_ & _ & _ & _ & _ & ?). }
  now rewrite Hturn.
Qed.

Lemma length_array_set_false arr k :
  Z.of_nat (length (array_set_false arr k))
  <= Z.max (Z.of_nat (length arr)) (2^32 - 1).
Proof.
  unfold array_set_false.
  destruct (Z.ltb_spec k 0); [lia|].
  destruct (Nat.ltb_spec (Z.to_nat k) (length arr)).
  - rewrite length_insert. lia.
  - destruct (Z.ltb_spec k (2^32 - 1)); [|lia].
    rewrite !length_app, repeat_length. cbn [length]. lia.
Qed.

(** On exact operands every number of the successor is an integer that
    binary64 represents. *)
Lemma processTurn_representable s a d :
  exact_operands s a d -> representable_state (newGameState (processTurn s a d)).
Proof.
  intros (Hlen & Ht & Hs1 & Hs2 & He1 & He2 & Ha & Hd).
  unfold exact_integer in *. unfold representable_state, binary64_integer.
  pose proof (length_array_set_false (chairsRemaining s) (a - 1)) as Harr.
  rewrite Hlen in Harr.
  destruct s as [t c s1 s2 e1 e2 st w].
  cbn [currentTurn chairsRemaining player1Score player2Score
       player1ElectricCount player2ElectricCount] in *.
  unfold processTurn, finish_turn, apply_choices; cbn [newGameState].
  cbn [currentTurn].
  destruct (a =? d); destruct (getCurrentAttacker t); cbv zeta;
    case_decide; cbn; repeat apply conj; lia.
Qed.

(** ** Order of binary64 numbers *)

Lemma compare_cont_Eq (a b : positive) : Pos.compare_cont Eq a b = (a ?= b)%positive.
Proof. reflexivity. Qed.

Ltac order_cases :=
  repeat match goal with
         | H : context [Z.compare ?a ?b] |- _ => destruct (Z.compare_spec a b)
         | |- context [Z.compare ?a ?b] => destruct (Z.compare_spec a b)
         | H : context [Pos.compare_cont Eq ?a ?b] |- _ =>
             change (Pos.compare_cont Eq a b) with (Pos.compare a b) in *;
             destruct (Pos.compare_spec a b)
         | |- context [Pos.compare_cont Eq ?a ?b] =>
             change (Pos.compare_cont Eq a b) with (Pos.compare a b) in *;
             destruct (Pos.compare_spec a b)
         end;
  subst; try discriminate; try reflexivity; try lia.

Ltac float_cases :=
  cbn in *; try discriminate; try reflexivity; order_cases.

Lemma SFleb_trans a b c :
  SFleb a b = true -> SFleb b c = true -> SFleb a c = true.
Proof.
  unfold SFleb.
  destruct a as [[]|[]| |[] ma ea], b as [[]|[]| |[] mb eb], c as [[]|[]| |[] mc ec];
    cbn; try discriminate; try reflexivity; intros Hab Hbc; float_cases.
Qed.

Lemma SFleb_ltb_trans a b c :
  SFleb a b = true -> SFltb b c = true -> SFltb a c = true.
Proof.
  unfold SFleb, SFltb.
  destruct a as [[]|[]| |[] ma ea], b as [[]|[]| |[] mb eb], c as [[]|[]| |[] mc ec];
    cbn; try discriminate; try reflexivity; intros Hab Hbc; float_cases.
Qed.

Lemma SFltb_negb_leb a b :
  a ≠ S754_nan -> b ≠ S754_nan -> SFltb a b = negb (SFleb b a).
Proof.
  unfold SFleb, SFltb.
  destruct a as [[]|[]| |[] ma ea], b as [[]|[]| |[] mb eb];
    cbn; try congruence; intros _ _; float_cases.
Qed.

Lemma SFltb_or_leb a b :
  a ≠ S754_nan -> b ≠ S754_nan -> SFltb a b = true ∨ SFleb b a = true.
Proof.
  intros Ha Hb. rewrite (SFltb_negb_leb a b Ha Hb).
  destruct (SFleb b a); [now right|now left].
Qed.

Lemma SFleb_not_ltb a b : SFleb a b = true -> SFltb b a = false.
Proof.
  unfold SFleb, SFltb.
  destruct a as [[]|[]| |[] ma ea], b as [[]|[]| |[] mb eb];
    cbn; try discriminate; try reflexivity; intros Hab; float_cases.
Qed.

Lemma SFltb_leb a b : SFltb a b = true -> SFleb a b = true.
Proof.
  unfold SFleb, SFltb. destruct (SFcompare a b) as [[]|]; try discriminate; reflexivity.
Qed.

Lemma SFeqb_refl a : SFeqb a a = negb (match a with S754_nan => true | _ => false end).
Proof.
  unfold SFeqb. destruct a as [[]|[]| |[] ma ea]; cbn; try reflexivity;
    rewrite Z.compare_refl;
    change (Pos.compare_cont Eq ma ma) with (Pos.compare ma ma);
    rewrite Pos.compare_refl; reflexivity.
Qed.

Lemma is_nan_spec x : is_nan x = true <-> Prim2SF x = S754_nan.
Proof.
  unfold is_nan. rewrite FloatAxioms.eqb_spec, SFeqb_refl, negb_involutive.
  destruct (Prim2SF x); split; congruence.
Qed.

Lemma is_nan_false x : is_nan x = false <-> Prim2SF x ≠ S754_nan.
Proof. rewrite <- is_nan_spec. destruct (is_nan x); split; congruence. Qed.

Lemma float_leb_trans x y z :
  (x <=? y)%float = true -> (y <=? z)%float = true -> (x <=? z)%float = true.
Proof. rewrite !FloatAxioms.leb_spec. apply SFleb_trans. Qed.

Lemma float_leb_ltb_trans x y z :
  (x <=? y)%float = true -> (y <? z)%float = true -> (x <? z)%float = true.
Proof. rewrite !FloatAxioms.leb_spec, !FloatAxioms.ltb_spec. apply SFleb_ltb_trans. Qed.

Lemma float_ltb_or_leb x y :
  is_nan x = false -> is_nan y = false ->
  (x <? y)%float = true ∨ (y <=? x)%float = true.
Proof. rewrite !is_nan_false, FloatAxioms.leb_spec, FloatAxioms.ltb_spec. apply SFltb_or_leb. Qed.

Lemma float_leb_not_ltb x y : (x <=? y)%float = true -> (y <? x)%float = false.
Proof. rewrite FloatAxioms.leb_spec, FloatAxioms.ltb_spec. apply SFleb_not_ltb. Qed.

Lemma float_ltb_leb x y : (x <? y)%float = true -> (x <=? y)%float = true.
Proof. rewrite FloatAxioms.leb_spec, FloatAxioms.ltb_spec. apply SFltb_leb. Qed.

Lemma float_leb_refl x : is_nan x = false -> (x <=? x)%float = true.
Proof.
  intros Hx. destruct (float_ltb_or_leb x x Hx Hx) as [H|H]; [now apply float_ltb_leb|exact H].
Qed.

Lemma float_ltb_not_nan x y : (x <? y)%float = true -> is_nan x = false ∧ is_nan y = false.
Proof.
  rewrite FloatAxioms.ltb_spec, !is_nan_false. unfold SFltb.
  destruct (Prim2SF x), (Prim2SF y); cbn; try discriminate; split; congruence.
Qed.

Lemma float_leb_not_nan x y : (x <=? y)%float = true -> is_nan x = false ∧ is_nan y = false.
Proof.
  rewrite FloatAxioms.leb_spec, !is_nan_false. unfold SFleb.
  destruct (Prim2SF x), (Prim2SF y); cbn; try discriminate; split; congruence.
Qed.

(** [x > y] is false exactly when [x <= y] or one of the two is [NaN]. *)
Lemma float_ltb_false_iff x y :
  (y <? x)%float = false <->
  (x <=? y)%float = true ∨ is_nan x = true ∨ is_nan y = true.
Proof.
  split.
  - intros Hlt. destruct (is_nan x) eqn:Hx; [now right; left|].
    destruct (is_nan y) eqn:Hy; [now right; right|].
    destruct (float_ltb_or_leb y x Hy Hx) as [H|H]; [congruence|now left].
  - intros [H|[H|H]].
    + now apply float_leb_not_ltb.
    + destruct (y <? x)%float eqn:E; [|reflexivity].
      apply float_ltb_not_nan in E as [_ E]. congruence.
    + destruct (y <? x)%float eqn:E; [|reflexivity].
      apply float_ltb_not_nan in E as [E _]. congruence.
Qed.

(** ** Solver: the minimum and the shift *)

Lemma Prim2SF_zero : Prim2SF 0%float = S754_zero false.
Proof. reflexivity. Qed.

Lemma is_zero_spec x : is_zero x = true <-> ∃ s, Prim2SF x = S754_zero s.
Proof.
  unfold is_zero. rewrite FloatAxioms.eqb_spec. change (Prim2SF zero) with (S754_zero false).
  unfold SFeqb. destruct (Prim2SF x) as [[]|[]| |[] mx ex]; cbn;
    split; try discriminate; try (intros [s Hs]; discriminate); eauto.
Qed.

Lemma zeros_leb x y : is_zero x = true -> is_zero y = true -> (x <=? y)%float = true.
Proof.
  intros [sx Hx]%is_zero_spec [sy Hy]%is_zero_spec.
  rewrite FloatAxioms.leb_spec, Hx, Hy. reflexivity.
Qed.

Lemma math_min_step_least lowest number :
  is_nan lowest = false -> is_nan number = false ->
  let m := math_min_step lowest number in
  is_nan m = false ∧ (m <=? lowest)%float = true ∧ (m <=? number)%float = true ∧
  (m = lowest ∨ m = number).
Proof.
  intros Hl Hn. unfold math_min_step. rewrite Hl, Hn.
  destruct (number <? lowest)%float eqn:Hlt.
  - repeat split; [exact Hn|now apply float_ltb_leb|now apply float_leb_refl|now right].
  - assert (Hle : (lowest <=? number)%float = true).
    { destruct (float_ltb_or_leb number lowest Hn Hl) as [H|H]; [congruence|exact H]. }
    destruct (is_zero number && is_zero lowest && get_sign number) eqn:Hz.
    + apply andb_true_iff in Hz as [[Hzn Hzl]%andb_true_iff _].
      repeat split; [exact Hn|now apply zeros_leb|now apply float_leb_refl|now right].
    + repeat split; [exact Hl|now apply float_leb_refl|exact Hle|now left].
Qed.

Lemma math_min_fold_least xs lowest :
  is_nan lowest = false -> Forall (λ v, is_nan v = false) xs ->
  let m := fold_left math_min_step xs lowest in
  is_nan m = false ∧ (m <=? lowest)%float = true ∧
  Forall (λ v, (m <=? v)%float = true) xs ∧ (m = lowest ∨ m ∈ xs).
Proof.
  cbn zeta. intros Hl Hxs. revert lowest Hl.
  induction Hxs as [|x xs Hx Hxs IH]; intros lowest Hl.
  - cbn. repeat split; [exact Hl|now apply float_leb_refl|constructor|now left].
  - cbn [fold_left].
    destruct (math_min_step_least lowest x Hl Hx) as (Hn & Hle1 & Hle2 & Hor).
    cbn zeta in *.
    destruct (IH _ Hn) as (Hn' & Hle & Hall & Hin).
    split; [exact Hn'|]. split; [eapply float_leb_trans; eassumption|].
    split; [constructor; [eapply float_leb_trans; eassumption|exact Hall]|].
    destruct Hin as [->|Hin]; [|right; now right].
    destruct Hor as [->| ->]; [now left|right; left].
Qed.

Lemma math_min_fold_nan xs lowest :
  is_nan lowest = true ∨ Exists (λ v, is_nan v = true) xs ->
  is_nan (fold_left math_min_step xs lowest) = true.
Proof.
  revert lowest. induction xs as [|x xs IH]; intros lowest [Hl|Hex].
  - exact Hl.
  - inversion Hex.
  - cbn [fold_left]. apply IH. left. unfold math_min_step. now rewrite Hl.
  - cbn [fold_left]. apply IH. inversion Hex as [? ? Hx|? ? Hx]; subst.
    + left. unfold math_min_step. destruct (is_nan lowest) eqn:Hl; [exact Hl|].
      now rewrite Hx.
    + now right.
Qed.

Lemma nan_not_below x y : is_nan x = true -> (x <? y)%float = false.
Proof.
  intros Hx. destruct (x <? y)%float eqn:E; [|reflexivity].
  apply float_ltb_not_nan in E as [E _]. congruence.
Qed.

(** ** Solver: sums of numbers that are not negative *)

Lemma shr_1_nonneg mrs : 0 <= shr_m mrs -> 0 <= shr_m (shr_1 mrs).
Proof.
  destruct mrs as [m r s]. cbn [shr_m]. intros Hm.
  destruct m as [|[p|p|]|p]; cbn; lia.
Qed.

Lemma iter_pos_shr_1_nonneg p mrs :
  0 <= shr_m mrs -> 0 <= shr_m (SpecFloat.iter_pos shr_1 p mrs).
Proof.
  revert mrs. induction p as [p IH|p IH|]; intros mrs Hm; cbn [SpecFloat.iter_pos].
  - apply IH, IH, shr_1_nonneg, Hm.
  - apply IH, IH, Hm.
  - apply shr_1_nonneg, Hm.
Qed.

Lemma shr_fexp_nonneg m e l :
  0 <= m -> 0 <= shr_m (fst (shr_fexp prec emax m e l)).
Proof.
  intros Hm. unfold shr_fexp, shr.
  assert (H0 : 0 <= shr_m (shr_record_of_loc m l)).
  { destruct l as [|[]]; exact Hm. }
  destruct (fexp prec emax (Zdigits2 m + e) - e) as [|p|p]; cbn [fst];
    [exact H0|now apply iter_pos_shr_1_nonneg|exact H0].
Qed.

Lemma round_nearest_even_nonneg m l : 0 <= m -> 0 <= round_nearest_even m l.
Proof.
  intros Hm. unfold round_nearest_even.
  destruct l as [|[]]; try destruct (Z.even m); lia.
Qed.

Lemma binary_round_aux_not_negative mx ex lx :
  0 <= mx -> SFnot_negative (binary_round_aux prec emax false mx ex lx).
Proof.
  intros Hm. unfold binary_round_aux.
  pose proof (shr_fexp_nonneg mx ex lx Hm) as H1.
  destruct (shr_fexp prec emax mx ex lx) as [mrs' e']. cbn [fst] in H1.
  pose proof (shr_fexp_nonneg _ e' loc_Exact
                (round_nearest_even_nonneg _ (loc_of_shr_record mrs') H1)) as H2.
  destruct (shr_fexp prec emax _ e' loc_Exact) as [mrs'' e'']. cbn [fst] in H2.
  destruct (shr_m mrs'') as [|m|m]; [exact I| |lia].
  destruct (e'' <=? emax - prec); exact I.
Qed.

Lemma SFadd_not_negative x y :
  SFnot_negative x -> SFnot_negative y -> SFnot_negative (SFadd prec emax x y).
Proof.
  destruct x as [sx|[]| |[] mx ex]; try contradiction;
    destruct y as [sy|[]| |[] my ey]; try contradiction; intros _ _;
    try exact I.
  - destruct sx, sy; exact I.
  - cbn [SFadd cond_Zopp]. unfold binary_normalize.
    match goal with
    | |- context [Z.pos ?a + Z.pos ?b] => change (Z.pos a + Z.pos b) with (Z.pos (a + b))
    end.
    unfold binary_round.
    match goal with
    | |- context [shl_align ?a ?b ?c] => destruct (shl_align a b c) as [mz ez]
    end.
    apply binary_round_aux_not_negative. lia.
Qed.

Lemma not_negative_spec x : not_negative x <-> SFnot_negative (Prim2SF x).
Proof.
  unfold not_negative. rewrite is_nan_false, FloatAxioms.ltb_spec.
  change (Prim2SF 0) with (S754_zero false).
  destruct (Prim2SF x) as [[]|[]| |[] mx ex]; cbn; intuition (try discriminate; try congruence).
Qed.

Lemma add_not_negative x y :
  not_negative x -> not_negative y -> not_negative (x + y).
Proof.
  rewrite !not_negative_spec, FloatAxioms.add_spec. apply SFadd_not_negative.
Qed.

Lemma fold_add_not_negative xs acc :
  not_negative acc -> Forall not_negative xs ->
  not_negative (fold_left PrimFloat.add xs acc).
Proof.
  intros Hacc Hxs. revert acc Hacc.
  induction Hxs as [|x xs Hx _ IH]; intros acc Hacc; [exact Hacc|].
  cbn [fold_left]. apply IH. now apply add_not_negative.
Qed.

(** A sum of numbers that are not negative is not negative, and so is no
    [NaN]. *)
Lemma strategy_sum_not_negative strategy :
  Forall not_negative strategy -> not_negative (strategy_sum strategy).
Proof. apply fold_add_not_negative. split; reflexivity. Qed.

(** ** Solver: strategy post-processing *)


Lemma math_max_zero_clipped v :
  is_nan v = false ->
  is_nan (math_max 0 v) = false ∧ (math_max 0 v <? 0)%float = false ∧
  (math_max 0 v = v ∨ math_max 0 v = 0%float).
Proof.
  intros Hv. unfold math_max. change (is_nan 0) with false. rewrite Hv. cbv iota.
  destruct (0 <? v)%float eqn:Hlt.
  - split; [exact Hv|]. split; [|now left]. now apply float_leb_not_ltb, float_ltb_leb.
  - change (is_zero 0 && is_zero v && get_sign 0) with (true && is_zero v && false).
    rewrite andb_false_r. split; [reflexivity|]. split; [reflexivity|now right].
Qed.

Lemma or_zero_not_nan value : is_nan (or_zero value) = false.
Proof.
  unfold or_zero. destruct value as [x|]; [|reflexivity].
  destruct (is_nan x) eqn:Hx; cbn [orb]; [reflexivity|].
  destruct (is_zero x); [reflexivity|exact Hx].
Qed.

Lemma clip_strategy_length n solution : length (clip_strategy n solution) = n.
Proof. unfold clip_strategy. now rewrite length_map, length_seq. Qed.

Lemma clip_strategy_nonneg n solution :
  Forall not_negative (clip_strategy n solution).
Proof.
  unfold clip_strategy. apply Forall_forall. intros x Hx.
  apply list_elem_of_fmap in Hx as (i & -> & _).
  destruct (math_max_zero_clipped (or_zero (solution i)) (or_zero_not_nan _))
    as (H1 & H2 & _).
  now split.
Qed.

Lemma takes_fallback_iff strategy :
  takes_fallback strategy = true <->
  (strategy_sum strategy <=? EPSILON)%float = true ∨ is_nan (strategy_sum strategy) = true.
Proof.
  unfold takes_fallback. rewrite negb_true_iff, float_ltb_false_iff.
  change (is_nan EPSILON) with false. split.
  - intros [H|[H|H]]; [now left|now right|discriminate].
  - intros [H|H]; [now left|right; now left].
Qed.

(** For a clipped strategy the sum is a number, and the test decides between
    [sum <= EPSILON] and [sum > EPSILON]. *)
Lemma takes_fallback_clipped strategy :
  Forall not_negative strategy ->
  takes_fallback strategy = true <-> (strategy_sum strategy <=? EPSILON)%float = true.
Proof.
  intros Hs. rewrite takes_fallback_iff.
  destruct (strategy_sum_not_negative strategy Hs) as [Hnan _].
  split; [intros [H|H]; [exact H|congruence]|now left].
Qed.

Lemma normalize_fallback strategy :
  takes_fallback strategy = true ->
  normalize_strategy strategy = uniform_strategy (length strategy).
Proof.
  unfold takes_fallback, normalize_strategy. intros H%negb_true_iff. now rewrite H.
Qed.

Lemma normalize_divides strategy :
  takes_fallback strategy = false ->
  (EPSILON <? strategy_sum strategy)%float = true ∧
  normalize_strategy strategy
  = map (fun x => (x / strategy_sum strategy)%float) strategy.
Proof.
  unfold takes_fallback, normalize_strategy. intros H%negb_false_iff.
  split; [exact H|]. now rewrite H.
Qed.


(** ** Reachability by play *)

Lemma play_reachable moves s :
  reachable s -> legal_play moves s = true -> reachable (play moves s).
Proof.
  revert s. induction moves as [|[a d] rest IH]; intros s Hs Hlegal; [exact Hs|].
  cbn [legal_play play] in *.
  apply andb_prop in Hlegal as [Hlegal Hrest].
  apply andb_prop in Hlegal as [Hlegal Hd].
  apply andb_prop in Hlegal as [Hst Ha].
  apply bool_decide_eq_true in Hst, Ha, Hd.
  apply IH; [|assumption]. apply reachable_step; [assumption..|]. now split.
Qed.

Lemma score_42_reachable : reachable score_42_state.
Proof. apply play_reachable; [apply reachable_initial|]. vm_compute. reflexivity. Qed.

Lemma score_51_reachable : reachable score_51_state.
Proof. apply play_reachable; [apply reachable_initial|]. vm_compute. reflexivity. Qed.

Lemma score_33_reachable : reachable score_33_state.
Proof. apply play_reachable; [apply reachable_initial|]. vm_compute. reflexivity. Qed.

Example score_42_state_value :
  score_42_state
  = {| currentTurn := 6;
       chairsRemaining := [false; false; false; true; true; true; true; true;
                           false; false; false; false];
       player1Score := 42; player2Score := 6;
       player1ElectricCount := 0; player2ElectricCount := 0;
       gameStatus := PLAYER1_WIN; winner := Some PLAYER1 |}.
Proof. vm_compute. reflexivity. Qed.

Example score_42_hash : encodeGameStateHash score_42_state = 0x60F8A860.
Proof. vm_compute. reflexivity. Qed.

Example score_51_state_value :
  player1Score score_51_state = 51 ∧ gameStatus score_51_state = PLAYER1_WIN.
Proof. vm_compute. split; reflexivity. Qed.

Example initial_hash : encodeGameStateHash INITIAL_GAME_STATE = 0x0FFF0000.
Proof. vm_compute. reflexivity. Qed.

(** ** Codec on encodable states *)

Lemma invariant_encodable s : state_invariant s -> encodable s.
Proof. intros [? ? ? ? ? ? ? ? ? ?]. unfold encodable. repeat apply conj; lia. Qed.

Lemma decode_encode_fields s :
  encodable s ->
  decodeGameStateHash (encodeGameStateHash s)
  = {| turn := currentTurn s;
       chairs := Z.land (chairBits_loop (chairsRemaining s) 12) 4095;
       h_player1Score := player1Score s;
       h_player2Score := player2Score s;
       player1Electric := player1ElectricCount s;
       player2Electric := player2ElectricCount s |}.
Proof.
  intros (Hlen & Ht & Hs1 & Hs2 & He1 & He2).
  pose proof (decode_encode_turn s) as H1.
  pose proof (decode_encode_chairs s) as H2.
  pose proof (decode_encode_player1Score s) as H3.
  pose proof (decode_encode_player2Score s) as H4.
  pose proof (decode_encode_player1Electric s) as H5.
  pose proof (decode_encode_player2Electric s) as H6.
  change 15 with (Z.ones 4) in H1. change 63 with (Z.ones 6) in H3, H4.
  change 3 with (Z.ones 2) in H5, H6.
  rewrite land_ones_small in H1, H3, H4, H5, H6 by lia.
  destruct (decodeGameStateHash (encodeGameStateHash s)); cbn in *. congruence.
Qed.

Lemma decode_encode_status s :
  encodable s ->
  getGameStatusFromHash (decodeGameStateHash (encodeGameStateHash s)) = checkGameEnd s.
Proof.
  intros Henc. rewrite (decode_encode_fields s Henc).
  destruct Henc as (Hlen & _).
  unfold getGameStatusFromHash, checkGameEnd, MAX_SCORE, MAX_ELECTRIC_COUNT, MAX_TURNS.
  cbn [turn chairs h_player1Score h_player2Score player1Electric player2Electric].
  now rewrite chairs_of_mask_chairBits by assumption.
Qed.

Lemma hashToGameState_encode s :
  encodable s ->
  hashToGameState (encodeGameStateHash s)
  = set_winner None (set_gameStatus (checkGameEnd s) s).
Proof.
  intros Henc. pose proof (decode_encode_status s Henc) as Hst.
  unfold hashToGameState. rewrite Hst, (decode_encode_fields s Henc).
  destruct Henc as (Hlen & _).
  cbn [turn chairs h_player1Score h_player2Score player1Electric player2Electric].
  rewrite chairs_of_mask_chairBits by assumption.
  destruct s; reflexivity.
Qed.

Lemma hashToGameState_encode_reachable s :
  reachable s -> hashToGameState (encodeGameStateHash s) = set_winner None s.
Proof.
  intros Hr. apply reachable_invariant in Hr as Hinv.
  rewrite hashToGameState_encode by now apply invariant_encodable.
  rewrite (inv_status s Hinv). destruct s; reflexivity.
Qed.

Lemma js_shr_top_field x : js_shr x 28 = bit_field x 28 4.
Proof.
  unfold js_shr, bit_field, toUint32. change (28 mod 32) with 28.
  rewrite Z.shiftr_div_pow2 by lia.
  pose proof (Z.mod_pos_bound x (2^32) ltac:(lia)) as Hx.
  symmetry. apply Z.mod_small. split.
  - apply Z.div_pos; lia.
  - apply Z.div_lt_upper_bound; lia.
Qed.

(** [processTurn] reads neither the status nor the winner of its input. *)
Lemma processTurn_ignores_winner w s a d :
  processTurn (set_winner w s) a d = processTurn s a d.
Proof.
  destruct s as [t c s1 s2 e1 e2 st w0].
  unfold processTurn, apply_choices, finish_turn. cbn.
  destruct (a =? d); destruct (getCurrentAttacker t); reflexivity.
Qed.

Lemma getAvailableChairs_set_winner w (s : GameState) :
  getAvailableChairs (set_winner w s) = getAvailableChairs s.
Proof. reflexivity. Qed.

Lemma gameStatus_set_winner w (s : GameState) :
  gameStatus (set_winner w s) = gameStatus s.
Proof. reflexivity. Qed.

Lemma elem_of_all_pairs {A B} (f : A -> A -> B) (l : list A) (t : B) :
  t ∈ flat_map (fun a => map (f a) l) l <-> ∃ a d, (a ∈ l ∧ d ∈ l) ∧ t = f a d.
Proof.
  rewrite list_elem_of_In, in_flat_map. split.
  - intros (a & Ha & Ht). apply in_map_iff in Ht as (d & <- & Hd).
    exists a, d. rewrite !list_elem_of_In. auto.
  - intros (a & d & [Ha Hd] & ->). rewrite !list_elem_of_In in *.
    exists a. split; [assumption|]. apply in_map_iff. eauto.
Qed.

(** The transitions out of the hash of a reachable state are the legal
    moves of that state. *)
Lemma transitions_of_reachable s t :
  reachable s ->
  t ∈ generateStateTransitions (encodeGameStateHash s) <->
  gameStatus s = IN_PROGRESS ∧
  ∃ a d, legal_choices s a d ∧
         t = {| fromHash := encodeGameStateHash s;
                toHash := encodeGameStateHash (newGameState (processTurn s a d));
                t_attackerChoice := a; t_defenderChoice := d |}.
Proof.
  intros Hs. unfold generateStateTransitions, legal_choices.
  rewrite (hashToGameState_encode_reachable s Hs).
  rewrite getAvailableChairs_set_winner, gameStatus_set_winner.
  cbv zeta.
  case_decide as Hst.
  - split; [intros []%elem_of_nil|]. intros [Hp _]. contradiction.
  - assert (Hprog : gameStatus s = IN_PROGRESS).
    { destruct (decide (gameStatus s = IN_PROGRESS)); [assumption|contradiction]. }
    rewrite (elem_of_all_pairs
               (fun a d =>
                  {| fromHash := encodeGameStateHash s;
                     toHash := encodeGameStateHash
                                 (newGameState (processTurn (set_winner None s) a d));
                     t_attackerChoice := a; t_defenderChoice := d |})).
    split.
    + intros (a & d & Hin & Heq). split; [exact Hprog|]. exists a, d.
      split; [exact Hin|]. rewrite Heq, processTurn_ignores_winner. reflexivity.
    + intros (_ & a & d & Hin & Heq). exists a, d.
      split; [exact Hin|]. rewrite Heq, processTurn_ignores_winner. reflexivity.
Qed.

Lemma toHash_mk f t a d : toHash (mkStateTransition f t a d) = t.
Proof. reflexivity. Qed.

Lemma enumerated_step_to h t x :
  enumerated h -> t ∈ generateStateTransitions h -> x = toHash t -> enumerated x.
Proof. intros Hh Ht ->. exact (enumerated_step h t Hh Ht). Qed.

Lemma enumerated_is_encoding x :
  enumerated x -> ∃ s, reachable s ∧ x = encodeGameStateHash s.
Proof.
  induction 1 as [|h t _ (s & Hs & ->) Ht].
  - exists INITIAL_GAME_STATE. split; [constructor|reflexivity].
  - apply (transitions_of_reachable s t Hs) in Ht as (Hprog & a & d & Hlegal & ->).
    exists (newGameState (processTurn s a d)). split; [|apply toHash_mk].
    now apply reachable_step.
Qed.

Lemma reachable_is_enumerated s : reachable s -> enumerated (encodeGameStateHash s).
Proof.
  induction 1 as [|s a d Hs IH Hprog Hlegal].
  - exact enumerated_initial.
  - assert (Ht : mkStateTransition (encodeGameStateHash s)
                   (encodeGameStateHash (newGameState (processTurn s a d))) a d
                 ∈ generateStateTransitions (encodeGameStateHash s)).
    { apply (transitions_of_reachable s _ Hs). split; [exact Hprog|].
      exists a, d. split; [exact Hlegal|reflexivity]. }
    exact (enumerated_step_to _ _ _ IH Ht (eq_sym (toHash_mk _ _ _ _))).
Qed.

Lemma enumerated_int32 x : enumerated x -> - 2^31 <= x < 2^31.
Proof. intros (s & _ & ->)%enumerated_is_encoding. apply encode_range. Qed.

(** [checkGameEnd] on a game state and the status derived from its encoding
    agree, so the rule engine follows the same priority order. *)
Lemma checkGameEnd_follows_priority s :
  encodable s -> checkGameEnd s = spec_status_at_least (encodeGameStateHash s).
Proof.
  intros Henc. rewrite <- status_of_decoded. symmetry. now apply decode_encode_status.
Qed.

(** Two reachable states with the same encoding are the same state. *)
Lemma encode_injective_on_reachable s1 s2 :
  reachable s1 -> reachable s2 ->
  encodeGameStateHash s1 = encodeGameStateHash s2 -> s1 = s2.
Proof.
  intros H1 H2 Heq.
  pose proof (hashToGameState_encode_reachable s1 H1) as E1.
  pose proof (hashToGameState_encode_reachable s2 H2) as E2.
  rewrite Heq, E2 in E1.
  pose proof (inv_winner s1 (reachable_invariant s1 H1)) as W1.
  pose proof (inv_winner s2 (reachable_invariant s2 H2)) as W2.
  destruct s1, s2. unfold set_winner, getWinner in *. cbn in *.
  injection E1 as -> -> -> -> -> -> ->. congruence.
Qed.

(* ===================================================================== *)
(** * Part III. The claims                                                *)
(* ===================================================================== *)

(** ** C1: status derivation *)

(** C1 (as amended). For every 32-bit word [x], the status derived from the
    decoded fields follows the priority order of the specification with the
    points test [score >= 40] (not [score == 40]): shockA = 3 gives
    PLAYER2_WIN; else shockB = 3 gives PLAYER1_WIN; else scoreA >= 40 gives
    PLAYER1_WIN; else scoreB >= 40 gives PLAYER2_WIN; else with one chair left
    or turn >= 15 the higher score wins and equal scores draw; else the game
    is in progress. *)
Theorem status_follows_priority_at_least_40 (x : Z) :
  getGameStatusFromHash (decodeGameStateHash x) = spec_status_at_least x.
Proof. apply status_of_decoded. Qed.

(** C1, counterexample. The encoding [0x60F8A860] of a reachable state
    (turn 6, five chairs left, scores 42 and 6, no shocks) is a win for
    player 1 in the code, while the rule with the exact test [score == 40]
    calls it in progress. *)
Lemma status_exact_40_differs :
  encodeGameStateHash score_42_state = 0x60F8A860 ∧
  getGameStatusFromHash (decodeGameStateHash 0x60F8A860) = PLAYER1_WIN ∧
  checkGameEnd score_42_state = PLAYER1_WIN ∧
  spec_status_exact 0x60F8A860 = IN_PROGRESS ∧
  getGameStatusFromHash (decodeGameStateHash 0x60F8A860) ≠ spec_status_exact 0x60F8A860.
Proof. vm_compute. repeat split; discriminate. Qed.

(** ** C2: the two branches of a turn *)

(** C2. In an in-progress state, with both choices among the chairs present,
    [processTurn] does one of two things. Matched choices: the selector's
    score becomes 0, the selector's shock count grows by 1, no chair is
    removed. Different choices: the selector's score grows by exactly
    [attackerChoice], that chair (and no other) is removed, the setter's score
    and shock count are unchanged. Exactly one branch applies. *)
Theorem processTurn_two_branches (s : GameState) (a d : Z) :
  gameStatus s = IN_PROGRESS ->
  legal_choices s a d ->
  let selector := getChairSelector (currentTurn s) in
  let setter := getElectricSetter (currentTurn s) in
  let r := processTurn s a d in
  let s' := newGameState r in
  selector ≠ setter ∧
  (a = d ->
     matched r = true ∧ electricReceived r = true ∧ chairRemoved r = None ∧
     score_of selector s' = 0 ∧
     shocks_of selector s' = shocks_of selector s + 1 ∧
     chairsRemaining s' = chairsRemaining s) ∧
  (a ≠ d ->
     matched r = false ∧ electricReceived r = false ∧ chairRemoved r = Some a ∧
     scoreGained r = a ∧
     score_of selector s' = score_of selector s + a ∧
     chairsRemaining s' = <[Z.to_nat (a - 1) := false]> (chairsRemaining s) ∧
     chair_present s a ∧ ¬ chair_present s' a ∧
     (∀ c, c ≠ a -> chair_present s' c <-> chair_present s c) ∧
     score_of setter s' = score_of setter s ∧
     shocks_of setter s' = shocks_of setter s) ∧
  (matched r = true ∧ a = d ∨ matched r = false ∧ a ≠ d).
Proof.
  intros Hprog [Ha Hd] selector setter r s'.
  apply available_iff in Ha.
  subst selector setter s' r.
  unfold getChairSelector, getElectricSetter, processTurn.
  cbn [matched electricReceived chairRemoved scoreGained newGameState].
  split; [apply attacker_defender_differ|].
  split; [|split].
  - intros Heq.
    destruct (apply_matched s a d Heq) as (H1 & H2 & _ & _ & H5 & _).
    rewrite (proj2 (Z.eqb_eq a d) Heq).
    rewrite finish_turn_score, finish_turn_shocks, finish_turn_chairs.
    repeat apply conj; auto.
  - intros Hne.
    destruct (apply_unmatched s a d Hne) as (H1 & _ & H3 & H4 & H5 & _).
    assert (Hset : array_set_false (chairsRemaining s) (a - 1)
                   = <[Z.to_nat (a - 1) := false]> (chairsRemaining s)).
    { destruct Ha as [Ha1 Hlook].
      apply array_set_false_inside; [lia|]. eapply lookup_lt_Some, Hlook. }
    rewrite (proj2 (Z.eqb_neq a d) Hne).
    rewrite !finish_turn_score, !finish_turn_shocks.
    unfold chair_present. rewrite !finish_turn_chairs, H5, Hset.
    repeat apply conj; try reflexivity; try assumption;
      try (destruct Ha; assumption).
    + intros [_ Hlook].
      destruct Ha as [_ Hlook0]. apply lookup_lt_Some in Hlook0.
      rewrite list_lookup_insert_eq in Hlook by assumption. discriminate.
    + intros c Hc. destruct Ha as [Ha1 _].
      split; intros [Hc1 Hlook]; (split; [assumption|]).
      * rewrite list_lookup_insert_ne in Hlook by lia. assumption.
      * rewrite list_lookup_insert_ne by lia. assumption.
  - destruct (Z.eqb_spec a d); [left|right]; auto.
Qed.

(** C2, witness: the first turn with choices 12 and 1. *)
Lemma processTurn_two_branches_witness :
  gameStatus INITIAL_GAME_STATE = IN_PROGRESS ∧
  legal_choices INITIAL_GAME_STATE 12 1 ∧
  score_of PLAYER1 (newGameState (processTurn INITIAL_GAME_STATE 12 1)) = 12.
Proof.
  assert (Hlegal : legal_choices INITIAL_GAME_STATE 12 1).
  { split; apply available_iff; (split; [lia|reflexivity]). }
  split; [reflexivity|]. split; [exact Hlegal|].
  pose proof (processTurn_two_branches INITIAL_GAME_STATE 12 1 eq_refl Hlegal) as H.
  cbv zeta in H. destruct H as (_ & _ & Hun & _).
  destruct (Hun ltac:(lia)) as (_ & _ & _ & _ & Hscore & _).
  exact Hscore.
Defined.

(** ** C3: codec round trip *)

(** C3 (as amended). For every reachable game state [s], decoding its
    encoding gives back turn, chairs, both scores, both shock counts and the
    derived status, and leaves [winner] undefined: the decoded state is [s]
    with its winner removed, and it is [s] itself exactly when [s] has no
    winner, that is when [s] is in progress or drawn. For every enumerated
    hash [x] (a signed 32-bit value), encoding the decoded state gives [x]
    again; read back from the unsigned rendering [x >>> 0], the stored form,
    the result is the signed [x] once more, which is the same 32-bit word and
    the same number exactly when [x] is not negative. The top four bits of
    the encoding of any state are its turn modulo 16, hence its turn whenever
    that lies in 0..15, and the top four bits of any hash are the turn of the
    decoded state. *)
Theorem codec_round_trip (s : GameState) (x : Z) :
  reachable s ->
  enumerated x ->
  let s' := hashToGameState (encodeGameStateHash s) in
  (currentTurn s' = currentTurn s ∧
   chairsRemaining s' = chairsRemaining s ∧
   player1Score s' = player1Score s ∧
   player2Score s' = player2Score s ∧
   player1ElectricCount s' = player1ElectricCount s ∧
   player2ElectricCount s' = player2ElectricCount s ∧
   gameStatus s' = gameStatus s ∧
   winner s' = None ∧
   s' = set_winner None s ∧
   (s' = s <-> winner s = None) ∧
   (winner s = None <-> gameStatus s = IN_PROGRESS ∨ gameStatus s = DRAW)) ∧
  (encodeGameStateHash (hashToGameState x) = x ∧
   encodeGameStateHash (hashToGameState (toUint32 x)) = x ∧
   toUint32 (encodeGameStateHash (hashToGameState (toUint32 x))) = toUint32 x ∧
   (encodeGameStateHash (hashToGameState (toUint32 x)) = toUint32 x <-> 0 <= x)) ∧
  (js_shr (encodeGameStateHash s) 28 = currentTurn s ∧
   js_shr x 28 = currentTurn (hashToGameState x) ∧
   (∀ t : GameState, js_shr (encodeGameStateHash t) 28 = currentTurn t mod 16) ∧
   (∀ t : GameState, 0 <= currentTurn t <= 15 ->
                     js_shr (encodeGameStateHash t) 28 = currentTurn t) ∧
   (∀ y : Z, js_shr y 28 = currentTurn (hashToGameState y))).
Proof.
  intros Hs Hx s'. subst s'.
  rewrite (hashToGameState_encode_reachable s Hs).
  pose proof (reachable_invariant s Hs) as Hinv.
  assert (Htop : ∀ t : GameState,
             js_shr (encodeGameStateHash t) 28 = currentTurn t mod 16).
  { intros t. rewrite encode_top_bits. change 15 with (Z.ones 4).
    rewrite Z.land_ones by lia. reflexivity. }
  assert (Hdec : ∀ y, js_shr y 28 = currentTurn (hashToGameState y)).
  { intros y. rewrite js_shr_top_field. unfold hashToGameState; cbn [currentTurn].
    now rewrite decode_turn. }
  split; [|split].
  - do 9 (split; [reflexivity|]). split.
    + split.
      * intros Heq. rewrite <- Heq. reflexivity.
      * intros Hw. destruct s; cbn in Hw; subst; reflexivity.
    + rewrite (inv_winner s Hinv). unfold getWinner.
      destruct (gameStatus s); split; try discriminate; auto;
        intros [H|H]; discriminate.
  - pose proof (enumerated_int32 x Hx) as Hrange.
    assert (Hback : encodeGameStateHash (hashToGameState (toUint32 x)) = x).
    { rewrite hashToGameState_toUint32, encode_hashToGameState. now apply toInt32_id. }
    split; [|split; [|split; [|split]]].
    + rewrite encode_hashToGameState. now apply toInt32_id.
    + exact Hback.
    + rewrite hashToGameState_toUint32, encode_hashToGameState. apply toUint32_toInt32.
    + rewrite Hback. unfold toUint32. intros Heq.
      pose proof (Z.mod_pos_bound x (2^32) ltac:(lia)). lia.
    + intros Hpos. rewrite Hback. unfold toUint32.
      symmetry. apply Z.mod_small. lia.
  - split; [|split; [|split; [|split]]].
    + rewrite Htop. apply Z.mod_small.
      pose proof (inv_turn s Hinv). lia.
    + apply Hdec.
    + exact Htop.
    + intros t Ht. rewrite Htop. apply Z.mod_small. lia.
    + exact Hdec.
Qed.

(** C3, witness: the initial state and its hash. *)
Lemma codec_round_trip_witness :
  reachable INITIAL_GAME_STATE ∧
  enumerated (encodeGameStateHash INITIAL_GAME_STATE) ∧
  hashToGameState (encodeGameStateHash INITIAL_GAME_STATE) = INITIAL_GAME_STATE ∧
  js_shr (encodeGameStateHash INITIAL_GAME_STATE) 28 = 0.
Proof.
  split; [exact reachable_initial|]. split; [exact enumerated_initial|].
  pose proof (codec_round_trip INITIAL_GAME_STATE
                (encodeGameStateHash INITIAL_GAME_STATE)
                reachable_initial enumerated_initial) as H.
  cbv zeta in H.
  destruct H as ((_ & _ & _ & _ & _ & _ & _ & _ & _ & [_ Hsame] & _) & _ & Htop & _).
  split; [apply Hsame; reflexivity|exact Htop].
Defined.

(** C3, counterexample. The finished game [score_42_state] is reachable and
    names player 1 as its winner; decoding its encoding gives a state with no
    winner, which therefore is not [score_42_state]. And the hash of the
    reachable state [score_51_state] is negative: read back from its unsigned
    rendering, encoding the decoded state does not return that rendering. *)
Lemma decoding_drops_the_winner :
  (reachable score_42_state ∧
   winner score_42_state = Some PLAYER1 ∧
   winner (hashToGameState (encodeGameStateHash score_42_state)) = None ∧
   hashToGameState (encodeGameStateHash score_42_state) ≠ score_42_state) ∧
  (let x := encodeGameStateHash score_51_state in
   enumerated x ∧
   x = -1606365888 ∧
   toUint32 x = 2688601408 ∧
   encodeGameStateHash (hashToGameState (toUint32 x)) = x ∧
   encodeGameStateHash (hashToGameState (toUint32 x)) ≠ toUint32 x).
Proof.
  split.
  - split; [exact score_42_reachable|]. split; [vm_compute; reflexivity|].
    split; [reflexivity|].
    intros H. apply (f_equal winner) in H. vm_compute in H. discriminate.
  - cbv zeta. split; [apply reachable_is_enumerated, score_51_reachable|].
    assert (Hx : encodeGameStateHash score_51_state = -1606365888)
      by (vm_compute; reflexivity).
    rewrite Hx. split; [reflexivity|]. split; [vm_compute; reflexivity|].
    assert (Hback : encodeGameStateHash (hashToGameState (toUint32 (-1606365888)))
                    = -1606365888).
    { rewrite hashToGameState_toUint32, encode_hashToGameState.
      vm_compute. reflexivity. }
    rewrite Hback. split; [reflexivity|]. vm_compute. discriminate.
Qed.

(** ** C4: scores of reachable states *)

(** C4 (as amended). In every state reachable from the initial state by
    legal play both scores lie between 0 and 51, and while the game is in
    progress both are at most 39: a score of 40 or more, up to 39 + 12 = 51,
    occurs only in a finished game. *)
Theorem reachable_scores_bounded (s : GameState) :
  reachable s ->
  (0 <= player1Score s <= 51 ∧ 0 <= player2Score s <= 51) ∧
  (gameStatus s = IN_PROGRESS -> player1Score s <= 39 ∧ player2Score s <= 39).
Proof.
  intros Hs. apply reachable_invariant in Hs as [_ _ Hs1 Hs2 _ _ _ Hst _ _].
  split; [split; assumption|].
  intros Hprog. rewrite Hprog in Hst.
  apply checkGameEnd_in_progress in Hst as (_ & _ & ? & ? & _). lia.
Qed.

(** C4, witness: the state after player 1 took chairs 11, 10, 9, 8, 1 and
    12, which holds the largest score, 51. *)
Lemma reachable_scores_bounded_witness :
  reachable score_51_state ∧
  player1Score score_51_state = 51 ∧
  0 <= player1Score score_51_state <= 51.
Proof.
  split; [exact score_51_reachable|]. split; [vm_compute; reflexivity|].
  exact (proj1 (proj1 (reachable_scores_bounded score_51_state score_51_reachable))).
Defined.

(** C4, counterexample. Seven legal moves from the initial state (player 1
    takes chairs 12, 11, 10, 9; player 2 takes 1, 2, 3) reach a state where
    player 1 holds 42 points. *)
Lemma score_above_40_is_reachable :
  reachable score_42_state ∧
  player1Score score_42_state = 42 ∧
  ¬ (player1Score score_42_state <= 40).
Proof.
  split; [exact score_42_reachable|].
  split; [vm_compute; reflexivity|]. vm_compute. intros H. now apply H.
Qed.

(** ** C5: the turn counter *)

(** C5. For an in-progress state and legal choices, the successor's turn is
    the predecessor's turn plus one when the successor is in progress, and
    the predecessor's turn unchanged when the successor is terminal. This
    holds with the successor's status read from its [gameStatus] field, for
    every state. For a reachable state it holds as well with the status that
    the end-of-game rule derives from the successor's own fields, which then
    is the status in the field, the status that decoding the successor's hash
    gives, and the status the priority list gives on that hash. *)
Theorem turn_advances_unless_terminal (s : GameState) (a d : Z) :
  gameStatus s = IN_PROGRESS ->
  legal_choices s a d ->
  let s' := newGameState (processTurn s a d) in
  ((gameStatus s' = IN_PROGRESS -> currentTurn s' = currentTurn s + 1) ∧
   (gameStatus s' ≠ IN_PROGRESS -> currentTurn s' = currentTurn s)) ∧
  (reachable s ->
   let status' := checkGameEnd s' in
   gameStatus s' = status' ∧
   gameStatus (hashToGameState (encodeGameStateHash s')) = status' ∧
   spec_status_at_least (encodeGameStateHash s') = status' ∧
   (status' = IN_PROGRESS -> currentTurn s' = currentTurn s + 1) ∧
   (status' ≠ IN_PROGRESS -> currentTurn s' = currentTurn s)).
Proof.
  intros Hprog Hlegal s'.
  assert (Hturn :
    (gameStatus s' = IN_PROGRESS -> currentTurn s' = currentTurn s + 1) ∧
    (gameStatus s' ≠ IN_PROGRESS -> currentTurn s' = currentTurn s)).
  { subst s'. rewrite processTurn_turn. split; intros Hst.
    - now rewrite decide_True.
    - now rewrite decide_False. }
  split; [exact Hturn|].
  intros Hs status'.
  assert (Hs' : reachable s') by now apply reachable_step.
  pose proof (reachable_invariant s' Hs') as Hinv.
  pose proof (inv_status s' Hinv) as Hstatus. fold status' in Hstatus.
  split; [now symmetry|].
  split; [rewrite (hashToGameState_encode_reachable s' Hs'); now symmetry|].
  split; [symmetry; apply checkGameEnd_follows_priority;
          now apply invariant_encodable|].
  rewrite Hstatus. exact Hturn.
Qed.

(** C5, witness: the first turn with choices 12 and 1 goes on to turn 1; in
    turn 6 of the game [score_42_moves] player 1 takes chair 9 and wins, and
    the turn stays 6. *)
Lemma turn_advances_unless_terminal_witness :
  (reachable INITIAL_GAME_STATE ∧
   gameStatus INITIAL_GAME_STATE = IN_PROGRESS ∧
   legal_choices INITIAL_GAME_STATE 12 1 ∧
   checkGameEnd (newGameState (processTurn INITIAL_GAME_STATE 12 1)) = IN_PROGRESS ∧
   currentTurn (newGameState (processTurn INITIAL_GAME_STATE 12 1)) = 0 + 1) ∧
  (reachable score_33_state ∧
   gameStatus score_33_state = IN_PROGRESS ∧
   legal_choices score_33_state 9 4 ∧
   currentTurn score_33_state = 6 ∧
   checkGameEnd (newGameState (processTurn score_33_state 9 4)) = PLAYER1_WIN ∧
   currentTurn (newGameState (processTurn score_33_state 9 4)) = 6).
Proof.
  assert (Hlegal : legal_choices INITIAL_GAME_STATE 12 1).
  { split; apply available_iff; (split; [lia|reflexivity]). }
  assert (Hlegal' : legal_choices score_33_state 9 4).
  { split; apply available_iff; (split; [lia|vm_compute; reflexivity]). }
  assert (Hprog' : gameStatus score_33_state = IN_PROGRESS) by (vm_compute; reflexivity).
  assert (Hturn' : currentTurn score_33_state = 6) by (vm_compute; reflexivity).
  split.
  - split; [exact reachable_initial|]. split; [reflexivity|]. split; [exact Hlegal|].
    split; [vm_compute; reflexivity|].
    pose proof (turn_advances_unless_terminal INITIAL_GAME_STATE 12 1
                  eq_refl Hlegal) as H.
    cbv zeta in H. destruct H as [_ H].
    destruct (H reachable_initial) as (_ & _ & _ & Hnext & _).
    apply Hnext. vm_compute. reflexivity.
  - split; [exact score_33_reachable|]. split; [exact Hprog'|].
    split; [exact Hlegal'|]. split; [exact Hturn'|].
    split; [vm_compute; reflexivity|].
    pose proof (turn_advances_unless_terminal score_33_state 9 4
                  Hprog' Hlegal') as H.
    cbv zeta in H. destruct H as [_ H].
    destruct (H score_33_reachable) as (_ & _ & _ & _ & Hstay).
    rewrite <- Hturn'. apply Hstay. vm_compute. discriminate.
Defined.

(** Outside the reachable states the status stored in the successor and the
    status derived from its fields can differ: from turn 14 with a full board
    the successor has turn 15 and is stored as in progress, while the rule
    applied to it, and the decoding of its hash, give a win for player 1. *)
Remark stored_status_outdated_at_turn_14 :
  let s' := newGameState (processTurn turn_14_full_board 12 1) in
  gameStatus turn_14_full_board = IN_PROGRESS ∧
  checkGameEnd turn_14_full_board = IN_PROGRESS ∧
  legal_choices turn_14_full_board 12 1 ∧
  currentTurn s' = 15 ∧
  gameStatus s' = IN_PROGRESS ∧
  checkGameEnd s' = PLAYER1_WIN ∧
  gameStatus (hashToGameState (encodeGameStateHash s')) = PLAYER1_WIN.
Proof.
  cbv zeta. split; [reflexivity|]. split; [reflexivity|].
  split; [split; apply available_iff; (split; [lia|reflexivity])|].
  repeat split; vm_compute; reflexivity.
Qed.

(** ** C6: violated preconditions *)




(** The decoded state never carries a winner; the field is left
    [undefined] by [hashToGameState]. *)
Remark decoded_winner_undefined x : winner (hashToGameState x) = None.
Proof. reflexivity. Qed.

(** ** C7: the shift of the payoff matrix *)

(** C7 (as amended). Both LP subproblems compute the same shift from the
    entries of the matrix, as binary64 numbers. If some entry is [NaN] the
    shift is 0. Otherwise, if no entry is below zero the shift is 0, and if
    some entry is below zero then the minimum [m] is an entry, is below zero
    and at most every entry, and the shift is the binary64 sum
    [Math.abs(m) + 1], one more than the negated minimum, rounded. *)
Theorem shift_is_one_more_than_negated_min (payoffMatrix : list (list float)) :
  let entries := concat payoffMatrix in
  let m := math_min entries in
  player2_shift payoffMatrix = player1_shift payoffMatrix ∧
  (Exists (λ v, is_nan v = true) entries -> player1_shift payoffMatrix = 0%float) ∧
  (Forall (λ v, is_nan v = false) entries ->
     (Forall (λ v, (v <? 0)%float = false) entries ->
        player1_shift payoffMatrix = 0%float) ∧
     (Exists (λ v, (v <? 0)%float = true) entries ->
        m ∈ entries ∧ (m <? 0)%float = true ∧
        Forall (λ v, (m <=? v)%float = true) entries ∧
        player1_shift payoffMatrix = (abs m + 1)%float)).
Proof.
  cbn zeta. split; [reflexivity|]. unfold player1_shift, shift_of_min. cbn zeta. split.
  - intros Hex. rewrite nan_not_below; [reflexivity|].
    apply math_min_fold_nan. now right.
  - intros Hnan.
    destruct (math_min_fold_least (concat payoffMatrix) infinity eq_refl Hnan)
      as (Hm & _ & Hall & Hin).
    cbn zeta in *. fold (math_min (concat payoffMatrix)) in *. split.
    + intros Hpos. destruct Hin as [->|Hin]; [reflexivity|].
      rewrite Forall_forall in Hpos. now rewrite (Hpos _ Hin).
    + intros (v & Hv & Hneg)%Exists_exists.
      assert (Hlt : (math_min (concat payoffMatrix) <? 0)%float = true).
      { rewrite Forall_forall in Hall.
        eapply float_leb_ltb_trans; [apply Hall, Hv|exact Hneg]. }
      rewrite Hlt. split; [|repeat split; assumption].
      destruct Hin as [Heq|Hin]; [|exact Hin].
      rewrite Heq in Hlt. discriminate.
Qed.

(** C7, witness: matching pennies, whose smallest entry is -1. *)
Lemma shift_is_one_more_than_negated_min_witness :
  Forall (λ v, is_nan v = false) (concat matching_pennies) ∧
  Exists (λ v, (v <? 0)%float = true) (concat matching_pennies) ∧
  math_min (concat matching_pennies) = (-1)%float ∧
  player1_shift matching_pennies = 2%float.
Proof.
  assert (Hnan : Forall (λ v, is_nan v = false) (concat matching_pennies))
    by (repeat constructor).
  assert (Hneg : Exists (λ v, (v <? 0)%float = true) (concat matching_pennies))
    by (left; reflexivity).
  split; [exact Hnan|]. split; [exact Hneg|]. split; [vm_compute; reflexivity|].
  destruct (shift_is_one_more_than_negated_min matching_pennies) as (_ & _ & H).
  destruct (H Hnan) as [_ H']. destruct (H' Hneg) as (_ & _ & _ & ->).
  vm_compute. reflexivity.
Defined.

(** C7, counterexample. For matching pennies the solver shifts by 2 in both
    subproblems, while [max(0, -min(matrix))] is 1. *)
Lemma shift_differs_from_negated_min :
  player1_shift matching_pennies = 2%float ∧
  player2_shift matching_pennies = 2%float ∧
  spec_shift matching_pennies = 1%float ∧
  player1_shift matching_pennies ≠ spec_shift matching_pennies.
Proof.
  vm_compute. repeat split. intros H.
  apply (f_equal (fun x => (x =? 2)%float)) in H. vm_compute in H. discriminate.
Qed.

(** The shift does not always lift the entries to 1 or more: with the
    minimum [-2^-53] the sum [2^-53 + 1] rounds to 1, and the shifted
    minimum is below 1. With the minimum [-2^53] the sum [2^53 + 1] rounds
    to [2^53], and the shifted minimum is 0. *)
Remark shifted_minimum_below_one :
  (player1_shift [[-0x1p-53; 0]]%float = 1%float ∧
   shiftedMatrix [[-0x1p-53; 0]]%float (player1_shift [[-0x1p-53; 0]]%float)
   = [[0x1.fffffffffffffp-1; 1]]%float ∧
   (0x1.fffffffffffffp-1 <? 1)%float = true) ∧
  (player1_shift [[-0x1p53; 0]]%float = 0x1p53%float ∧
   shiftedMatrix [[-0x1p53; 0]]%float (player1_shift [[-0x1p53; 0]]%float)
   = [[0; 0x1p53]]%float).
Proof. vm_compute. repeat split. Qed.

(** ** C8: renormalisation and the uniform fallback *)



(** The test is made on the rounded sum: the entries [EPSILON] and [2^-80]
    add up to more than [EPSILON], their binary64 sum is [EPSILON], and the
    fallback is taken. *)
Remark fallback_decided_on_rounded_sum :
  strategy_sum [EPSILON; 0x1p-80]%float = EPSILON ∧
  takes_fallback [EPSILON; 0x1p-80]%float = true.
Proof. vm_compute. split; reflexivity. Qed.

(** ** C9: order of the analysis *)

(** C9. [getNextBatch] returns the largest turn that is pending (listed with
    a nonzero total and an analyzed count below the total), with at most
    [requestedSize] states of it, and returns nothing exactly when no turn is
    pending. So a batch for turn [t] is handed out only when no turn greater
    than [t] has unanalyzed states. *)
Theorem getNextBatch_largest_pending_turn (progress : AnalysisProgress) (requestedSize : Z) :
  match getNextBatch progress requestedSize with
  | Some b =>
      pending progress (b_turn b) ∧
      (∀ t, pending progress t -> t <= b_turn b) ∧
      (∀ t, b_turn b < t -> ¬ pending progress t) ∧
      (∃ total, totalStates progress !! b_turn b = Some total ∧
         remainingCount b
         = Z.min (total - analyzed_of progress (b_turn b)) requestedSize)
  | None => True
  end ∧
  (getNextBatch progress requestedSize = None <-> ∀ t, ¬ pending progress t).
Proof.
  pose proof (getNextBatch_spec progress requestedSize) as Hspec.
  destruct (getNextBatch progress requestedSize) as [b|].
  - destruct Hspec as (Hp & Hmax & Hcount). split.
    + repeat split; try assumption.
      intros t Hlt Hpt. specialize (Hmax t Hpt). lia.
    + split; [discriminate|]. intros Hnone. exfalso. exact (Hnone _ Hp).
  - split; [exact I|]. split; [intros _; exact Hspec|reflexivity].
Qed.

(** ** C10: the input of [processTurn] is left untouched *)

(** C10. Running [processTurn] on a heap where [gameState] denotes the state
    [s]: the call completes; afterwards [gameState] still denotes [s], field
    by field and array entry by array entry; every object and every array
    that existed before is unchanged; the returned state is a new object with
    a new array, and it denotes the successor computed from [s]. *)
Theorem processTurn_leaves_input_unchanged
    (h : heap) (gameState : loc) (s : GameState) (a d : Z) :
  view h gameState = Some s ->
  ∃ r h',
    processTurn_heap gameState a d h = Some (r, h') ∧
    view h' gameState = Some s ∧
    (∀ l o, objects h !! l = Some o -> objects h' !! l = Some o) ∧
    (∀ l v, arrays h !! l = Some v -> arrays h' !! l = Some v) ∧
    objects h !! newGameState r = None ∧
    (∃ o', objects h' !! newGameState r = Some o' ∧
           arrays h !! chairsRemaining o' = None) ∧
    view h' (newGameState r) = Some (newGameState (processTurn s a d)) ∧
    r = with_newGameState (newGameState r) (processTurn s a d).
Proof.
  intros Hview. apply view_inv in Hview as (g & src & Hg & Hsrc & ->).
  pose proof (processTurn_heap_run h gameState g src a d Hg Hsrc) as Hrun.
  unfold heap_result in Hrun.
  set (copy := fresh (dom (arrays h))) in *.
  set (new := fresh (dom (objects h))) in *.
  set (res := processTurn (set_chairsRemaining src g) a d) in *.
  assert (Hcopy : arrays h !! copy = None).
  { apply not_elem_of_dom, is_fresh. }
  assert (Hnew : objects h !! new = None).
  { apply not_elem_of_dom, is_fresh. }
  assert (Hobjs : ∀ l o, objects h !! l = Some o ->
            <[new := set_chairsRemaining copy (newGameState res)]> (objects h) !! l
            = Some o).
  { intros l o Hl. rewrite lookup_insert_ne; [assumption|congruence]. }
  assert (Harrs : ∀ l v, arrays h !! l = Some v ->
            <[copy := chairsRemaining (newGameState res)]> (arrays h) !! l = Some v).
  { intros l v Hl. rewrite lookup_insert_ne; [assumption|congruence]. }
  eexists _, _. split; [exact Hrun|].
  cbn [newGameState with_newGameState objects arrays]. repeat apply conj.
  - unfold view; cbn [objects arrays].
    rewrite (Hobjs _ _ Hg), (Harrs _ _ Hsrc). reflexivity.
  - exact Hobjs.
  - exact Harrs.
  - exact Hnew.
  - eexists. split; [apply lookup_insert_eq|]. exact Hcopy.
  - unfold view; cbn [objects arrays].
    rewrite lookup_insert_eq. cbn [chairsRemaining set_chairsRemaining].
    rewrite lookup_insert_eq. f_equal. now destruct (newGameState res).
  - reflexivity.
Qed.

(** C10, witness: a heap holding the initial state at object 1 with its
    array at 1; playing 12 against 1 leaves that object and that array as
    they were. *)
Lemma processTurn_leaves_input_unchanged_witness :
  let h := mkHeap {[1%positive := repeat true 12]}
                  {[1%positive := set_chairsRemaining 1%positive INITIAL_GAME_STATE]} in
  view h 1%positive = Some INITIAL_GAME_STATE ∧
  ∃ r h', processTurn_heap 1%positive 12 1 h = Some (r, h') ∧
          view h' 1%positive = Some INITIAL_GAME_STATE.
Proof.
  intros h.
  assert (Hview : view h 1%positive = Some INITIAL_GAME_STATE) by reflexivity.
  split; [exact Hview|].
  destruct (processTurn_leaves_input_unchanged h 1%positive INITIAL_GAME_STATE 12 1 Hview)
    as (r & h' & Hrun & Hsame & _).
  exists r, h'. split; assumption.
Defined.

(* ===================================================================== *)
(** * Part IV. Further properties                                         *)
(* ===================================================================== *)

(** ** Available chairs *)

(** The list built by [getAvailableChairs] from the entries of an array that
    starts at index [k]. *)
Lemma available_from_offset (l : list bool) (k : nat) :
  let chairsList :=
    filter (fun chair => chair ≠ -1)
           (imap (fun index (remaining : bool) =>
                    if remaining then Z.of_nat (k + index) + 1 else -1) l) in
  StronglySorted Z.lt chairsList ∧
  Forall (λ c, Z.of_nat k < c) chairsList ∧
  length chairsList = length (filter (fun b => b = true) l).
Proof.
  revert k. induction l as [|b l IH]; intros k; cbn zeta.
  - cbn. repeat split; constructor.
  - rewrite imap_cons.
    rewrite (imap_ext _ (fun index (remaining : bool) =>
               if remaining then Z.of_nat (S k + index) + 1 else -1) l)
      by (intros i x _; cbn; destruct x; [f_equal; f_equal; lia|reflexivity]).
    destruct (IH (S k)) as (Hs & Hall & Hlen).
    assert (Hall' : Forall (λ c, Z.of_nat k + 1 < c)
              (filter (fun chair => chair ≠ -1)
                 (imap (fun index (remaining : bool) =>
                    if remaining then Z.of_nat (S k + index) + 1 else -1) l))).
    { eapply Forall_impl; [exact Hall|]. cbn. intros; lia. }
    rewrite !filter_cons. destruct b.
    + rewrite decide_True by lia. rewrite decide_True by reflexivity.
      repeat split.
      * constructor; [exact Hs|]. rewrite Nat.add_0_r. exact Hall'.
      * constructor; [lia|]. eapply Forall_impl; [exact Hall'|]. cbn. intros; lia.
      * cbn [length]. f_equal. exact Hlen.
    + rewrite decide_False by (intros Hne; now apply Hne).
      rewrite decide_False by discriminate.
      repeat split; [exact Hs| |exact Hlen].
      eapply Forall_impl; [exact Hall'|]. cbn. intros; lia.
Qed.

Lemma length_getAvailableChairs (s : GameState) :
  Z.of_nat (length (getAvailableChairs s)) = remaining_count s.
Proof.
  destruct (available_from_offset (chairsRemaining s) 0) as (_ & _ & Hlen).
  cbn zeta in *. unfold getAvailableChairs, remaining_count.
  f_equal. exact Hlen.
Qed.

(** X1. [getAvailableChairs] lists the chair numbers in strictly ascending
    order, hence without repetition; a number is listed exactly when that
    chair is present; and the list has as many entries as chairs remain. *)
Theorem getAvailableChairs_ascending (s : GameState) :
  StronglySorted Z.lt (getAvailableChairs s) ∧
  (∀ c, c ∈ getAvailableChairs s <-> chair_present s c) ∧
  Z.of_nat (length (getAvailableChairs s)) = remaining_count s.
Proof.
  destruct (available_from_offset (chairsRemaining s) 0) as (Hs & _ & _).
  cbn zeta in *.
  split; [exact Hs|]. split; [intros c; apply available_iff|].
  apply length_getAvailableChairs.
Qed.

(** ** The codec on arbitrary states and arbitrary numbers *)

Lemma chairs_of_mask_chairBits_any arr :
  chairs_of_mask (Z.land (chairBits_loop arr 12) 4095)
  = map (truthy_at arr) (seq 0 12).
Proof.
  unfold chairs_of_mask. apply map_ext_in. intros i Hi.
  apply in_seq in Hi.
  rewrite chair_bit_set_testbit by lia.
  rewrite Z.land_spec, chairBits_loop_testbit by lia.
  change 4095 with (Z.ones 12). rewrite ones_testbit by lia.
  rewrite Nat2Z.id.
  rewrite (proj2 (Z.ltb_ge (Z.of_nat i) 0)) by lia.
  rewrite (proj2 (Z.ltb_lt (Z.of_nat i) (Z.of_nat 12))) by lia.
  rewrite (proj2 (Z.ltb_lt (Z.of_nat i) 12)) by lia.
  cbn [negb andb]. now rewrite andb_true_r.
Qed.

(** X2. Encoding keeps the low bits of every field, whatever the state:
    decoding the encoding gives the turn modulo 16, the scores modulo 64, the
    shock counts modulo 4, and the first twelve array entries read by
    truthiness. A score of 64 or more, or a turn of 16 or more, is therefore
    not recovered. *)
Theorem encode_keeps_low_bits (s : GameState) :
  let s' := hashToGameState (encodeGameStateHash s) in
  currentTurn s' = currentTurn s mod 16 ∧
  chairsRemaining s' = map (truthy_at (chairsRemaining s)) (seq 0 12) ∧
  player1Score s' = player1Score s mod 64 ∧
  player2Score s' = player2Score s mod 64 ∧
  player1ElectricCount s' = player1ElectricCount s mod 4 ∧
  player2ElectricCount s' = player2ElectricCount s mod 4.
Proof.
  cbn zeta. unfold hashToGameState.
  cbn [currentTurn chairsRemaining player1Score player2Score
       player1ElectricCount player2ElectricCount].
  rewrite decode_encode_turn, decode_encode_chairs, decode_encode_player1Score,
    decode_encode_player2Score, decode_encode_player1Electric,
    decode_encode_player2Electric.
  rewrite chairs_of_mask_chairBits_any.
  change 15 with (Z.ones 4). change 63 with (Z.ones 6). change 3 with (Z.ones 2).
  rewrite !Z.land_ones by lia.
  repeat apply conj; reflexivity.
Qed.

Lemma hashToGameState_toInt32 x : hashToGameState (toInt32 x) = hashToGameState x.
Proof.
  rewrite <- (hashToGameState_toUint32 (toInt32 x)), toUint32_toInt32.
  apply hashToGameState_toUint32.
Qed.

(** X3. For every number [x], encoding the decoded state gives [x] wrapped
    to a signed 32-bit integer; decoding that again gives the same state; and
    two numbers decode to the same state exactly when they are the same
    32-bit word. *)
Theorem decode_then_encode_is_ToInt32 (x y : Z) :
  encodeGameStateHash (hashToGameState x) = toInt32 x ∧
  hashToGameState (encodeGameStateHash (hashToGameState x)) = hashToGameState x ∧
  (hashToGameState x = hashToGameState y <-> toInt32 x = toInt32 y).
Proof.
  split; [apply encode_hashToGameState|]. split.
  - rewrite encode_hashToGameState. apply hashToGameState_toInt32.
  - split.
    + intros H. rewrite <- !encode_hashToGameState. now rewrite H.
    + intros H. rewrite <- (hashToGameState_toInt32 x), H.
      apply hashToGameState_toInt32.
Qed.

Lemma hashToGameState_encodable x : encodable (hashToGameState x).
Proof.
  unfold encodable, hashToGameState.
  cbn [currentTurn chairsRemaining player1Score player2Score
       player1ElectricCount player2ElectricCount].
  rewrite chairs_of_mask_length, decode_turn, decode_player1Score,
    decode_player2Score, decode_player1Electric, decode_player2Electric.
  pose proof (bit_field_range x 28 4). pose proof (bit_field_range x 10 6).
  pose proof (bit_field_range x 4 6). pose proof (bit_field_range x 2 2).
  pose proof (bit_field_range x 0 2).
  repeat apply conj; try reflexivity; lia.
Qed.

Lemma checkGameEnd_hashToGameState x :
  checkGameEnd (hashToGameState x) = gameStatus (hashToGameState x).
Proof.
  rewrite <- (decode_encode_status _ (hashToGameState_encodable x)).
  rewrite encode_hashToGameState.
  change (gameStatus (hashToGameState x))
    with (getGameStatusFromHash (decodeGameStateHash x)).
  rewrite <- (decode_toUint32 (toInt32 x)), toUint32_toInt32, decode_toUint32.
  reflexivity.
Qed.

(** X4. Whatever number is decoded, the resulting state is well formed: it
    has twelve chairs, its fields are within the ranges of the bit layout,
    and the status it carries is the one [checkGameEnd] derives from its
    fields. *)
Theorem decoded_state_is_consistent (x : Z) :
  let s := hashToGameState x in
  length (chairsRemaining s) = 12%nat ∧
  0 <= currentTurn s <= 15 ∧
  0 <= player1Score s <= 63 ∧ 0 <= player2Score s <= 63 ∧
  0 <= player1ElectricCount s <= 3 ∧ 0 <= player2ElectricCount s <= 3 ∧
  checkGameEnd s = gameStatus s.
Proof.
  cbn zeta.
  destruct (hashToGameState_encodable x) as (? & ? & ? & ? & ? & ?).
  pose proof (checkGameEnd_hashToGameState x).
  repeat apply conj; try assumption; lia.
Qed.

(** ** Reachable states *)

(** X5. In a reachable state the chairs removed and the shocks received
    count the moves made: their number is the turn while the game is in
    progress and the turn plus one once it has ended. So the turn never
    exceeds 14, at least one chair is left, and while the game is in progress
    at least two chairs are left and nobody has three shocks. *)
Theorem reachable_counts_moves (s : GameState) :
  reachable s ->
  length (chairsRemaining s) = 12%nat ∧
  0 <= currentTurn s <= 14 ∧
  1 <= remaining_count s <= 12 ∧
  (12 - remaining_count s) + player1ElectricCount s + player2ElectricCount s
  = currentTurn s + (if decide (gameStatus s = IN_PROGRESS) then 0 else 1) ∧
  (gameStatus s = IN_PROGRESS ->
     2 <= remaining_count s ∧
     0 <= player1ElectricCount s <= 2 ∧ 0 <= player2ElectricCount s <= 2).
Proof.
  intros Hs. pose proof (reachable_invariant s Hs) as Hinv.
  destruct Hinv as [Hlen Hturn Hs1 Hs2 He1 He2 Hrem Hst _ Hmoves].
  pose proof (remaining_count_le s) as Hle. rewrite Hlen in Hle.
  repeat apply conj; try assumption; try lia.
  intros Hprog. rewrite Hprog in Hst.
  apply checkGameEnd_in_progress in Hst as (? & ? & ? & ? & ? & ?). lia.
Qed.

(** X5, witness: the finished game [score_42_state], seven moves, turn 6. *)
Lemma reachable_counts_moves_witness :
  reachable score_42_state ∧
  currentTurn score_42_state = 6 ∧
  remaining_count score_42_state = 5 ∧
  (12 - remaining_count score_42_state)
  + player1ElectricCount score_42_state + player2ElectricCount score_42_state
  = currentTurn score_42_state
    + (if decide (gameStatus score_42_state = IN_PROGRESS) then 0 else 1).
Proof.
  split; [exact score_42_reachable|].
  split; [reflexivity|]. split; [reflexivity|].
  exact (proj1 (proj2 (proj2 (proj2
           (reachable_counts_moves score_42_state score_42_reachable))))).
Defined.

(** X6. Two reachable states have the same hash only if they are the same
    state, winner included: a hash identifies a reachable state. *)
Theorem encoding_separates_reachable_states (s1 s2 : GameState) :
  reachable s1 -> reachable s2 ->
  (encodeGameStateHash s1 = encodeGameStateHash s2 <-> s1 = s2).
Proof.
  intros H1 H2. split; [now apply encode_injective_on_reachable|now intros ->].
Qed.

(** X6, witness: the initial state and [score_42_state]. *)
Lemma encoding_separates_reachable_states_witness :
  reachable INITIAL_GAME_STATE ∧ reachable score_42_state ∧
  (encodeGameStateHash INITIAL_GAME_STATE = encodeGameStateHash score_42_state
   <-> INITIAL_GAME_STATE = score_42_state).
Proof.
  split; [exact reachable_initial|]. split; [exact score_42_reachable|].
  exact (encoding_separates_reachable_states INITIAL_GAME_STATE score_42_state
           reachable_initial score_42_reachable).
Defined.

(** X7. The hashes enumerated from the initial hash through
    [generateStateTransitions] are exactly the hashes of the states reachable
    by legal play. *)
Theorem enumerated_iff_encodes_reachable (x : Z) :
  enumerated x <-> ∃ s, reachable s ∧ x = encodeGameStateHash s.
Proof.
  split; [apply enumerated_is_encoding|].
  intros (s & Hs & ->). now apply reachable_is_enumerated.
Qed.

(** ** Roles *)

Lemma apply_choices_turn s a d : currentTurn (apply_choices s a d) = currentTurn s.
Proof.
  destruct (Z.eq_dec a d) as [Heq|Hne].
  - apply (apply_matched s a d Heq).
  - apply (apply_unmatched s a d Hne).
Qed.

Lemma attacker_of_next_turn t :
  getCurrentAttacker (t + 1) = getCurrentDefender t ∧
  getCurrentDefender (t + 1) = getCurrentAttacker t.
Proof.
  unfold getCurrentAttacker, getCurrentDefender.
  destruct (Z.eqb_spec (Z.rem t 2) 0) as [H0|H0];
    destruct (Z.eqb_spec (Z.rem (t + 1) 2) 0) as [H1|H1];
    try (split; reflexivity); exfalso.
  - apply Z.rem_divide in H0; [|lia]. apply Z.rem_divide in H1; [|lia].
    destruct H0 as [k0 ->], H1 as [k1 H1]. lia.
  - assert (Ht : (2 | t) ∨ (2 | t + 1)).
    { destruct (Z.Even_or_Odd t) as [[k ->]|[k ->]].
      - left. exists k. lia.
      - right. exists (k + 1). lia. }
    destruct Ht as [Ht|Ht]; apply Z.rem_divide in Ht; try lia.
Qed.

(** X8. When the game goes on after a turn, the roles swap: the attacker of
    the next turn is the defender of this one and conversely. When the game
    ends, turn and roles stay as they were. *)
Theorem roles_swap_when_game_goes_on (s : GameState) (a d : Z) :
  let s' := newGameState (processTurn s a d) in
  (gameStatus s' = IN_PROGRESS ->
     currentTurn s' = currentTurn s + 1 ∧
     getCurrentAttacker (currentTurn s') = getCurrentDefender (currentTurn s) ∧
     getCurrentDefender (currentTurn s') = getCurrentAttacker (currentTurn s)) ∧
  (gameStatus s' ≠ IN_PROGRESS ->
     currentTurn s' = currentTurn s ∧
     getCurrentAttacker (currentTurn s') = getCurrentAttacker (currentTurn s)).
Proof.
  cbn zeta. cbn [newGameState processTurn].
  rewrite finish_turn_status, finish_turn_turn, apply_choices_turn.
  split; intros Hst.
  - rewrite decide_True by assumption. split; [reflexivity|].
    apply attacker_of_next_turn.
  - rewrite decide_False by assumption. split; reflexivity.
Qed.

(** ** Transitions *)

Lemma length_all_pairs {A B} (f : A -> A -> B) (l l' : list A) :
  length (flat_map (fun a => map (f a) l) l') = (length l' * length l)%nat.
Proof.
  induction l' as [|a l' IH]; [reflexivity|].
  cbn [flat_map]. rewrite length_app, length_map, IH. reflexivity.
Qed.

Lemma all_pairs_choices {A B C} (f : A -> A -> B) (g : B -> C) (l l' : list A) :
  map g (flat_map (fun a => map (f a) l) l')
  = flat_map (fun a => map (fun d => g (f a d)) l) l'.
Proof.
  induction l' as [|a l' IH]; [reflexivity|].
  cbn [flat_map]. rewrite map_app, map_map, IH. reflexivity.
Qed.

Lemma all_pairs_list_prod {A} (l l' : list A) :
  flat_map (fun a => map (fun d => (a, d)) l) l' = list_prod l' l.
Proof.
  induction l' as [|a l' IH]; [reflexivity|].
  cbn [flat_map list_prod]. now rewrite IH.
Qed.

(** X9. A hash whose state has ended has no transition. A hash whose state
    is in progress with [n] chairs has [n * n] transitions, one for each pair
    of present chairs, attacker's choice first, both in ascending order. *)
Theorem generateStateTransitions_count (h : Z) :
  let s := hashToGameState h in
  (gameStatus s ≠ IN_PROGRESS -> generateStateTransitions h = []) ∧
  (gameStatus s = IN_PROGRESS ->
     Z.of_nat (length (generateStateTransitions h))
     = remaining_count s * remaining_count s ∧
     map (fun t => (t_attackerChoice t, t_defenderChoice t))
         (generateStateTransitions h)
     = list_prod (getAvailableChairs s) (getAvailableChairs s)).
Proof.
  cbn zeta. unfold generateStateTransitions. split; intros Hst.
  - now rewrite decide_True.
  - rewrite decide_False by (intros Hne; now apply Hne). split.
    + rewrite length_all_pairs, <- length_getAvailableChairs. lia.
    + rewrite all_pairs_choices. cbn [t_attackerChoice t_defenderChoice].
      apply all_pairs_list_prod.
Qed.

Lemma checkGameEnd_finish_turn n :
  currentTurn n ≠ 14 -> checkGameEnd (finish_turn n) = checkGameEnd n.
Proof.
  intros Hturn. unfold finish_turn. cbn [gameStatus set_winner set_gameStatus].
  case_decide as Hst; [|reflexivity].
  rewrite Hst. apply checkGameEnd_in_progress.
  apply checkGameEnd_in_progress in Hst as (? & ? & ? & ? & ? & ?).
  unfold remaining_count in *. cbn. repeat apply conj; try assumption; lia.
Qed.

Lemma set_own_status (s : GameState) : set_gameStatus (gameStatus s) s = s.
Proof. now destruct s. Qed.

Lemma successor_encodable (s : GameState) a d :
  encodable s -> checkGameEnd s = IN_PROGRESS -> legal_choices s a d ->
  encodable (newGameState (processTurn s a d)).
Proof.
  intros (Hlen & Hturn & Hs1 & Hs2 & He1 & He2) Hst [Ha _].
  apply available_iff in Ha.
  pose proof (chair_present_bounds _ _ Ha) as Hbound. rewrite Hlen in Hbound.
  destruct Ha as [Ha1 Hlook].
  apply checkGameEnd_in_progress in Hst as (? & ? & ? & ? & ? & ?).
  assert (Hset : array_set_false (chairsRemaining s) (a - 1)
                 = <[Z.to_nat (a - 1) := false]> (chairsRemaining s)).
  { apply array_set_false_inside; [lia|]. eapply lookup_lt_Some, Hlook. }
  cbn [newGameState processTurn].
  pose proof (finish_turn_turn (apply_choices s a d)) as Ht.
  pose proof (finish_turn_chairs (apply_choices s a d)) as Hc.
  pose proof (finish_turn_score PLAYER1 (apply_choices s a d)) as Hp1.
  pose proof (finish_turn_score PLAYER2 (apply_choices s a d)) as Hp2.
  pose proof (finish_turn_shocks PLAYER1 (apply_choices s a d)) as Hk1.
  pose proof (finish_turn_shocks PLAYER2 (apply_choices s a d)) as Hk2.
  cbn [score_of shocks_of] in *.
  unfold encodable. rewrite Ht, Hc, Hp1, Hp2, Hk1, Hk2. clear Ht Hc Hp1 Hp2 Hk1 Hk2.
  rewrite apply_choices_turn.
  unfold apply_choices.
  destruct (Z.eqb_spec a d); destruct (getCurrentAttacker (currentTurn s));
    cbn; rewrite ?Hset, ?length_insert; repeat apply conj; try assumption; try lia;
    case_decide; lia.
Qed.

(** X10. Every transition generated from a hash [h], whatever number [h]
    is, starts at [h], is a move with present chairs in the in-progress state
    [h] decodes to, and leads to the hash of the successor; the successor
    fits the bit layout, so that the target hash decodes to the successor
    with its winner cleared (for a source turn other than 14, which is the
    last turn an in-progress state can have). *)
Theorem transition_targets_fit_the_layout (h : Z) (t : StateTransition) :
  t ∈ generateStateTransitions h ->
  let s := hashToGameState h in
  let s' := newGameState (processTurn s (t_attackerChoice t) (t_defenderChoice t)) in
  fromHash t = h ∧
  gameStatus s = IN_PROGRESS ∧
  legal_choices s (t_attackerChoice t) (t_defenderChoice t) ∧
  toHash t = encodeGameStateHash s' ∧
  encodable s' ∧
  hashToGameState (toHash t) = set_winner None (set_gameStatus (checkGameEnd s') s') ∧
  (currentTurn s ≠ 14 -> hashToGameState (toHash t) = set_winner None s').
Proof.
  intros Ht. cbn zeta. unfold generateStateTransitions in Ht.
  case_decide as Hst; [now apply elem_of_nil in Ht|].
  assert (Hprog : gameStatus (hashToGameState h) = IN_PROGRESS).
  { destruct (decide (gameStatus (hashToGameState h) = IN_PROGRESS)) as [Hp|Hp];
      [exact Hp|contradiction]. }
  apply elem_of_all_pairs in Ht as (a & d & Hlegal & ->).
  cbn [fromHash toHash t_attackerChoice t_defenderChoice].
  assert (Henc : encodable (newGameState (processTurn (hashToGameState h) a d))).
  { apply successor_encodable.
    - apply hashToGameState_encodable.
    - now rewrite checkGameEnd_hashToGameState.
    - exact Hlegal. }
  split; [reflexivity|]. split; [exact Hprog|]. split; [exact Hlegal|].
  split; [reflexivity|]. split; [exact Henc|]. split.
  - now apply hashToGameState_encode.
  - intros Hturn. rewrite (hashToGameState_encode _ Henc). f_equal.
    cbn [newGameState processTurn].
    rewrite checkGameEnd_finish_turn by now rewrite apply_choices_turn.
    rewrite <- finish_turn_status. apply set_own_status.
Qed.

(** X10, witness: from the initial hash, both players choosing chair 1. *)
Lemma transition_targets_fit_the_layout_witness :
  mkStateTransition 0x0FFF0000 0x1FFF0004 1 1 ∈ generateStateTransitions 0x0FFF0000 ∧
  hashToGameState 0x1FFF0004
  = set_winner None (newGameState (processTurn (hashToGameState 0x0FFF0000) 1 1)).
Proof.
  assert (Ht : mkStateTransition 0x0FFF0000 0x1FFF0004 1 1
               ∈ generateStateTransitions 0x0FFF0000)
    by (vm_compute; apply list_elem_of_here).
  split; [exact Ht|].
  apply (transition_targets_fit_the_layout 0x0FFF0000 _ Ht).
  vm_compute. discriminate.
Defined.

(** ** The completeness flag of the progress file *)

Lemma checkCompleteness_iff progress :
  checkCompleteness progress = true <->
  totalStates progress ≠ ∅ ∧
  ∀ t total, totalStates progress !! t = Some total -> total <= analyzed_of progress t.
Proof.
  unfold checkCompleteness.
  destruct (forallb _ _) eqn:Hall.
  - rewrite forallb_forall in Hall. split.
    + intros Hlen. apply Nat.ltb_lt in Hlen. split.
      * intros Hempty. rewrite Hempty, map_to_list_empty in Hlen. cbn in Hlen. lia.
      * intros t total Ht. apply elem_of_map_to_list, list_elem_of_In in Ht.
        apply Hall in Ht. cbn in Ht. apply negb_true_iff, Z.ltb_ge in Ht. exact Ht.
    + intros [Hne _]. apply Nat.ltb_lt.
      destruct (map_to_list (totalStates progress)) eqn:Hl; [|cbn; lia].
      apply map_to_list_empty_iff in Hl. contradiction.
  - split; [discriminate|]. intros [_ Hle]. exfalso.
    apply not_true_iff_false in Hall. apply Hall. apply forallb_forall.
    intros [t total] Ht. apply list_elem_of_In, elem_of_map_to_list in Ht.
    cbn. apply negb_true_iff, Z.ltb_ge. now apply Hle.
Qed.

Lemma getNextBatch_none_iff progress requestedSize :
  getNextBatch progress requestedSize = None <-> ∀ t, ¬ pending progress t.
Proof.
  pose proof (getNextBatch_spec progress requestedSize) as H.
  destruct (getNextBatch progress requestedSize) as [b|].
  - split; [discriminate|]. intros Hno. destruct H as [Hp _]. now apply Hno in Hp.
  - split; [intros _; exact H|reflexivity].
Qed.

Lemma complete_no_batch progress requestedSize :
  checkCompleteness progress = true -> getNextBatch progress requestedSize = None.
Proof.
  intros [_ Hle]%checkCompleteness_iff. apply getNextBatch_none_iff.
  intros t (total & Ht & _ & Hlt). apply Hle in Ht. lia.
Qed.

(** X11. When [checkCompleteness] holds there is no next batch. Conversely,
    when there is no next batch, some turn is listed and no analyzed count is
    negative, [checkCompleteness] holds. With no turn listed,
    [checkCompleteness] fails and there is no next batch. *)
Theorem complete_flag_and_next_batch (progress : AnalysisProgress) (requestedSize : Z) :
  (checkCompleteness progress = true -> getNextBatch progress requestedSize = None) ∧
  (getNextBatch progress requestedSize = None ->
   totalStates progress ≠ ∅ ->
   (∀ t, 0 <= analyzed_of progress t) ->
   checkCompleteness progress = true) ∧
  (totalStates progress = ∅ ->
   checkCompleteness progress = false ∧ getNextBatch progress requestedSize = None).
Proof.
  split; [|split].
  - apply complete_no_batch.
  - intros Hnone Hne Hpos. apply checkCompleteness_iff. split; [exact Hne|].
    intros t total Ht.
    destruct (Z.eq_dec total 0) as [->|Hz]; [apply Hpos|].
    destruct (Z.le_gt_cases total (analyzed_of progress t)) as [Hle|Hlt]; [exact Hle|].
    exfalso. apply (proj1 (getNextBatch_none_iff _ _) Hnone t).
    exists total. repeat split; [exact Ht|exact Hz|lia].
  - intros Hempty. split.
    + apply not_true_iff_false. intros [Hne _]%checkCompleteness_iff. contradiction.
    + apply getNextBatch_none_iff. intros t (total & Ht & _).
      rewrite Hempty, lookup_empty in Ht. discriminate.
Qed.

(** X12. [updateAnalyzedStates] saves a progress in which the analyzed count
    of the given turn is the given count, the other counts and all totals are
    as loaded, and [isComplete] is set exactly when some turn is listed and
    every listed turn has an analyzed count of at least its total; once the
    flag is set, [getNextBatch] on the saved progress returns nothing. *)
Theorem updateAnalyzedStates_records_and_flags
    (turn count : Z) (file : option AnalysisProgress) (requestedSize : Z) :
  ∃ saved, updateAnalyzedStates turn count file = Some saved ∧
    totalStates saved = totalStates (loadProgress file) ∧
    analyzed_of saved turn = count ∧
    (∀ t, t ≠ turn -> analyzed_of saved t = analyzed_of (loadProgress file) t) ∧
    (isComplete saved = true <->
       totalStates saved ≠ ∅ ∧
       ∀ t total, totalStates saved !! t = Some total -> total <= analyzed_of saved t) ∧
    (isComplete saved = true -> getNextBatch saved requestedSize = None).
Proof.
  eexists. split; [reflexivity|].
  set (p1 := {| analyzedStates := <[turn := count]> (analyzedStates (loadProgress file));
                totalStates := totalStates (loadProgress file);
                isComplete := isComplete (loadProgress file) |}).
  set (saved := {| analyzedStates := analyzedStates p1;
                   totalStates := totalStates p1;
                   isComplete := checkCompleteness p1 |}).
  assert (Hsame : ∀ t, analyzed_of saved t = analyzed_of p1 t) by reflexivity.
  assert (Hcc : checkCompleteness saved = checkCompleteness p1) by reflexivity.
  split; [reflexivity|]. split.
  { unfold analyzed_of. cbn. now rewrite lookup_insert_eq. }
  split.
  { intros t Hne. unfold analyzed_of. cbn. now rewrite lookup_insert_ne. }
  split.
  { change (isComplete saved) with (checkCompleteness p1). rewrite <- Hcc.
    apply checkCompleteness_iff. }
  change (isComplete saved) with (checkCompleteness p1). rewrite <- Hcc.
  apply complete_no_batch.
Qed.

(** ** Grouping by turn *)

Lemma groupStatesByTurn_lookup (stateHashes : list Z) (t : Z) :
  groupStatesByTurn stateHashes !! t
  = match filter (fun h => currentTurn (hashToGameState h) = t) stateHashes with
    | [] => None
    | group => Some group
    end.
Proof.
  unfold groupStatesByTurn.
  induction stateHashes as [|h l IH] using rev_ind; [reflexivity|].
  rewrite fold_left_app, filter_app. cbn [fold_left].
  set (g := fold_left _ l ∅) in *.
  set (turn := currentTurn (hashToGameState h)).
  assert (Hstep :
    (match match g !! turn with None => <[turn := []]> g | Some _ => g end !! turn with
     | Some group =>
         <[turn := group ++ [h]]> (match g !! turn with None => <[turn := []]> g | Some _ => g end)
     | None => match g !! turn with None => <[turn := []]> g | Some _ => g end
     end) = <[turn := default [] (g !! turn) ++ [h]]> g).
  { destruct (g !! turn) as [group|] eqn:Hg.
    - now rewrite Hg.
    - rewrite lookup_insert_eq. cbn. now rewrite insert_insert_eq. }
  rewrite Hstep. rewrite filter_cons, filter_nil.
  destruct (decide (turn = t)) as [<-|Hne].
  - rewrite lookup_insert_eq, IH. rewrite decide_True by reflexivity.
    destruct (filter _ l) as [|x group]; reflexivity.
  - rewrite lookup_insert_ne by exact Hne. rewrite decide_False by exact Hne.
    rewrite IH, app_nil_r. reflexivity.
Qed.

(** X13. [groupStatesByTurn] partitions the hashes by the turn they decode
    to: the group of a turn holds exactly the hashes of that turn, in the
    order in which they were given; a turn has a group exactly when some hash
    decodes to it; group keys lie in 0..15; and every hash is in the group of
    its turn. *)
Theorem groupStatesByTurn_partitions (stateHashes : list Z) :
  let groupedStates := groupStatesByTurn stateHashes in
  (∀ t, default [] (groupedStates !! t)
        = filter (fun h => currentTurn (hashToGameState h) = t) stateHashes) ∧
  (∀ t, is_Some (groupedStates !! t)
        <-> ∃ h, h ∈ stateHashes ∧ currentTurn (hashToGameState h) = t) ∧
  (∀ t, is_Some (groupedStates !! t) -> 0 <= t <= 15) ∧
  (∀ h, h ∈ stateHashes ->
        ∃ group, groupedStates !! currentTurn (hashToGameState h) = Some group ∧
                 h ∈ group).
Proof.
  cbn zeta.
  assert (Hsome : ∀ t, is_Some (groupStatesByTurn stateHashes !! t)
                       <-> ∃ h, h ∈ stateHashes ∧ currentTurn (hashToGameState h) = t).
  { intros t. rewrite groupStatesByTurn_lookup.
    destruct (filter _ stateHashes) as [|x group] eqn:Hf.
    - split; [now intros [? [=]]|]. intros (h & Hin & Ht).
      assert (Hh : h ∈ filter (fun h => currentTurn (hashToGameState h) = t) stateHashes)
        by now apply list_elem_of_filter.
      rewrite Hf in Hh. now apply elem_of_nil in Hh.
    - split; [|now eexists]. intros _. exists x.
      assert (Hx : x ∈ filter (fun h => currentTurn (hashToGameState h) = t) stateHashes)
        by (rewrite Hf; left).
      apply list_elem_of_filter in Hx as [Ht Hin]. now split. }
  split; [|split; [exact Hsome|split]].
  - intros t. rewrite groupStatesByTurn_lookup.
    destruct (filter _ stateHashes); reflexivity.
  - intros t (h & _ & <-)%Hsome.
    destruct (hashToGameState_encodable h) as (_ & ? & _). lia.
  - intros h Hin. rewrite groupStatesByTurn_lookup.
    assert (Hh : h ∈ filter (fun h' => currentTurn (hashToGameState h')
                                       = currentTurn (hashToGameState h)) stateHashes)
      by now apply list_elem_of_filter.
    destruct (filter _ stateHashes) as [|x group]; [now apply elem_of_nil in Hh|].
    now eexists.
Qed.

(** ** The hash files *)

(** ** Slices *)

Lemma segment_empty {A} (l : list A) a b : b <= a -> segment l a b = [].
Proof. intros H. unfold segment. now replace (Z.to_nat (b - a)) with 0%nat by lia. Qed.

Lemma segment_app {A} (l : list A) a b c :
  0 <= a -> a <= b -> b <= c -> segment l a b ++ segment l b c = segment l a c.
Proof.
  intros Ha Hab Hbc. unfold segment.
  replace (Z.to_nat b) with (Z.to_nat a + Z.to_nat (b - a))%nat by lia.
  rewrite <- drop_drop, take_take_drop. f_equal. lia.
Qed.

Lemma js_slice_inside {A} (l : list A) x y :
  0 <= x -> x <= y -> y <= Z.of_nat (length l) -> js_slice l x y = segment l x y.
Proof.
  intros Hx Hxy Hy. unfold js_slice, segment, slice_index.
  rewrite (proj2 (Z.ltb_ge x 0)), (proj2 (Z.ltb_ge y 0)) by lia.
  now rewrite !Z.min_l by lia.
Qed.

Lemma segment_of_chunk {A} (all : list A) (n : nat) (a x y : Z) :
  0 <= a -> 0 <= x -> x <= y -> y <= Z.of_nat n ->
  segment (take n (drop (Z.to_nat a) all)) x y = segment all (a + x) (a + y).
Proof.
  intros Ha Hx Hxy Hy. unfold segment.
  rewrite skipn_firstn_comm, take_take, drop_drop.
  replace (a + y - (a + x)) with (y - x) by lia.
  replace (Z.to_nat a + Z.to_nat x)%nat with (Z.to_nat (a + x)) by lia.
  f_equal. lia.
Qed.

Lemma take_segment_all {A} (all : list A) start count :
  0 <= start ->
  segment all start (Z.max start (Z.min (start + count) (Z.of_nat (length all))))
  = take (Z.to_nat count) (drop (Z.to_nat start) all).
Proof.
  intros Hs. unfold segment.
  destruct (Z.le_gt_cases (start + count) (Z.of_nat (length all))) as [Hle|Hgt].
  - rewrite Z.min_l by lia. f_equal. lia.
  - rewrite Z.min_r by lia.
    rewrite (take_ge _ (Z.to_nat count)) by (rewrite length_drop; lia).
    apply take_ge. rewrite length_drop. lia.
Qed.

(** ** Reading a range of hashes *)

Section RangeOfHashes.
Variable parseInt16 : string -> Z.
Variables (files : HashFiles) (turn size : Z) (all : list string).
Hypothesis Hfiles : chunked_as files turn size all.

(** The position reached before chunk [k], within the requested range. *)
Let cut (startIndex endIndex k : Z) : Z := Z.max startIndex (Z.min endIndex (k * size)).

Lemma load_chunk_range_step metadata startIndex endIndex acc k :
  meta_json files !! turn = Some metadata ->
  chunkSize metadata = size ->
  0 <= startIndex -> endIndex <= Z.of_nat (length all) -> 0 <= k ->
  load_chunk_range parseInt16 files turn metadata startIndex endIndex acc k
  = acc ++ map parseInt16
             (segment all (cut startIndex endIndex k) (cut startIndex endIndex (k + 1))).
Proof.
  intros Hmeta Hsize Hs He Hk. destruct Hfiles as (Hpos & _ & Hchunks).
  unfold load_chunk_range, loadTurnChunk, cut. rewrite Hsize.
  destruct (Z.le_gt_cases (Z.of_nat (length all)) (k * size)) as [Hout|Hin].
  - (* no hash of this chunk is below the end of the list *)
    rewrite (segment_empty all) by nia. rewrite app_nil_r.
    destruct (chunk_json files !! (turn, k)) as [chunkData|]; [|reflexivity].
    cbn zeta. destruct (Z.ltb_spec (Z.max 0 (startIndex - k * size))
                          (Z.min (c_count chunkData) (endIndex - k * size)));
      [lia|reflexivity].
  - destruct (Hchunks k Hk Hin) as (chunkData & -> & Hh & Hc). cbn zeta.
    assert (Hlen : Z.of_nat (length (hashes chunkData))
                   = Z.min size (Z.of_nat (length all) - k * size)).
    { rewrite Hh, length_take, length_drop. lia. }
    rewrite Hc, Hlen.
    destruct (Z.ltb_spec (Z.max 0 (startIndex - k * size))
                (Z.min (Z.min size (Z.of_nat (length all) - k * size))
                       (endIndex - k * size))) as [Hlt|Hge].
    + f_equal. f_equal. rewrite js_slice_inside by lia.
      rewrite Hh, segment_of_chunk by lia. f_equal; nia.
    + rewrite (segment_empty all) by nia. now rewrite app_nil_r.
Qed.

Lemma load_chunk_range_loop metadata startIndex endIndex (n : nat) k0 acc :
  meta_json files !! turn = Some metadata ->
  chunkSize metadata = size ->
  0 <= startIndex -> endIndex <= Z.of_nat (length all) -> 0 <= k0 ->
  fold_left (load_chunk_range parseInt16 files turn metadata startIndex endIndex)
            (seqZ k0 (Z.of_nat n)) acc
  = acc ++ map parseInt16
             (segment all (cut startIndex endIndex k0)
                          (cut startIndex endIndex (k0 + Z.of_nat n))).
Proof.
  intros Hmeta Hsize Hs He Hk. destruct Hfiles as (Hpos & _).
  induction n as [|n IH].
  - cbn. rewrite Z.add_0_r, segment_empty by lia. now rewrite app_nil_r.
  - rewrite seqZ_S, fold_left_app, IH. cbn [fold_left].
    rewrite load_chunk_range_step by (try assumption; lia).
    rewrite <- app_assoc, <- map_app. f_equal. f_equal.
    replace (k0 + Z.of_nat (S n)) with (k0 + Z.of_nat n + 1) by lia.
    apply segment_app; unfold cut; nia.
Qed.

Lemma loadTurnHashRange_slice startIndex count :
  0 <= startIndex ->
  loadTurnHashRange parseInt16 files turn startIndex count
  = map parseInt16 (take (Z.to_nat count) (drop (Z.to_nat startIndex) all)).
Proof.
  intros Hs. pose proof Hfiles as (Hpos & (metadata & Hmeta & Htotal & Hsize & _) & _).
  unfold loadTurnHashRange, loadTurnMetadata. rewrite Hmeta. cbn zeta.
  rewrite Hsize, Htotal.
  set (endIndex := Z.min (startIndex + count) (Z.of_nat (length all))).
  rewrite <- take_segment_all by exact Hs. fold endIndex.
  set (startChunk := startIndex / size). set (endChunk := (endIndex - 1) / size).
  assert (Hsc : 0 <= startChunk) by (apply Z.div_pos; lia).
  assert (Hs1 : startChunk * size <= startIndex < (startChunk + 1) * size).
  { pose proof (Z.mul_div_le startIndex size Hpos).
    pose proof (Z.mul_succ_div_gt startIndex size Hpos). subst startChunk. lia. }
  assert (He1 : endChunk * size <= endIndex - 1 < (endChunk + 1) * size).
  { pose proof (Z.mul_div_le (endIndex - 1) size Hpos).
    pose proof (Z.mul_succ_div_gt (endIndex - 1) size Hpos). subst endChunk. lia. }
  destruct (Z.le_gt_cases startChunk endChunk) as [Hle|Hgt].
  - replace (endChunk - startChunk + 1) with (Z.of_nat (Z.to_nat (endChunk - startChunk + 1)))
      by lia.
    rewrite (load_chunk_range_loop metadata) by (try assumption; subst endIndex; lia).
    cbn [app]. f_equal. unfold cut. f_equal; nia.
  - rewrite seqZ_nil by lia. cbn [fold_left].
    rewrite segment_empty; [reflexivity|]. nia.
Qed.

End RangeOfHashes.

(** ** Writing a turn *)

Lemma ceil_div_spec a b k : 0 < b -> (k < ceil_div a b <-> k * b < a).
Proof.
  intros Hb. unfold ceil_div.
  pose proof (Z.mul_div_le (- a) b Hb). pose proof (Z.mul_succ_div_gt (- a) b Hb).
  split; intros; nia.
Qed.

Lemma js_shr_0 x : js_shr x 0 = toUint32 x.
Proof. unfold js_shr. now rewrite Z.mod_0_l, Z.shiftr_0_r. Qed.

Lemma toUint32_range x : 0 <= toUint32 x < 2^32.
Proof. unfold toUint32. apply Z.mod_pos_bound. lia. Qed.

(** The chunk that the loop of [write_turn_files] writes at index [k]. *)
Lemma written_chunk_hashes (hashArray : list Z) (f : Z -> string) k :
  0 <= k ->
  map f (js_slice hashArray (k * CHUNK_SIZE)
           (Z.min (k * CHUNK_SIZE + CHUNK_SIZE) (Z.of_nat (length hashArray))))
  = take (Z.to_nat CHUNK_SIZE) (drop (Z.to_nat (k * CHUNK_SIZE)) (map f hashArray)).
Proof.
  intros Hk. unfold CHUNK_SIZE.
  destruct (Z.le_gt_cases (Z.of_nat (length hashArray)) (k * 10000)) as [Hout|Hin].
  - rewrite (drop_ge (map f hashArray)) by (rewrite length_map; lia).
    rewrite take_nil. unfold js_slice, slice_index.
    rewrite (proj2 (Z.ltb_ge (k * 10000) 0)) by lia.
    rewrite (proj2 (Z.ltb_ge _ 0)) by lia.
    rewrite drop_ge by lia. now rewrite take_nil.
  - rewrite js_slice_inside by lia. unfold segment.
    rewrite <- fmap_drop, <- fmap_take. f_equal.
    destruct (Z.le_gt_cases (k * 10000 + 10000) (Z.of_nat (length hashArray))).
    + rewrite Z.min_l by lia. f_equal. lia.
    + rewrite Z.min_r by lia.
      rewrite !take_ge; [reflexivity| |]; rewrite length_drop; lia.
Qed.

Lemma write_chunks_loop nextTurn (hashArray : list Z) (n : nat) files :
  let step := fun files chunkIndex =>
    let startIndex := chunkIndex * CHUNK_SIZE in
    let endIndex := Z.min (startIndex + CHUNK_SIZE) (Z.of_nat (length hashArray)) in
    let chunkHashes :=
      map (fun hash => toString16 (js_shr hash 0))
          (js_slice hashArray startIndex endIndex) in
    let chunkData :=
      {| c_turn := nextTurn; c_chunk := chunkIndex;
         c_count := Z.of_nat (length chunkHashes); hashes := chunkHashes |} in
    mkHashFiles (meta_json files)
                (<[(nextTurn, chunkIndex) := chunkData]> (chunk_json files)) in
  let files' := fold_left step (seqZ 0 (Z.of_nat n)) files in
  meta_json files' = meta_json files ∧
  (∀ t k, t ≠ nextTurn -> chunk_json files' !! (t, k) = chunk_json files !! (t, k)) ∧
  (∀ k, 0 <= k < Z.of_nat n ->
     ∃ chunkData, chunk_json files' !! (nextTurn, k) = Some chunkData ∧
       hashes chunkData
       = take (Z.to_nat CHUNK_SIZE)
              (drop (Z.to_nat (k * CHUNK_SIZE))
                    (map (fun hash => toString16 (js_shr hash 0)) hashArray)) ∧
       c_count chunkData = Z.of_nat (length (hashes chunkData))).
Proof.
  cbn zeta. induction n as [|n (IHm & IHo & IHk)].
  - cbn. repeat split; try reflexivity. intros; lia.
  - rewrite seqZ_S, fold_left_app. cbn [fold_left meta_json chunk_json].
    rewrite Z.add_0_l. split; [exact IHm|]. split.
    + intros t k Hne. rewrite lookup_insert_ne by congruence. now apply IHo.
    + intros k Hk. destruct (decide (k = Z.of_nat n)) as [->|Hne].
      * rewrite lookup_insert_eq. eexists. split; [reflexivity|].
        cbn [hashes c_count]. split; [|reflexivity].
        apply written_chunk_hashes. lia.
      * rewrite lookup_insert_ne by congruence. apply IHk. lia.
Qed.

Lemma write_turn_files_chunked nextTurn (hashArray : list Z) files :
  let written := write_turn_files nextTurn hashArray files in
  chunked_as written.2 nextTurn CHUNK_SIZE
    (map (fun hash => toString16 (js_shr hash 0)) hashArray) ∧
  totalCount written.1 = Z.of_nat (length hashArray) ∧
  meta_json written.2 = <[nextTurn := written.1]> (meta_json files) ∧
  (∀ t k, t ≠ nextTurn -> chunk_json written.2 !! (t, k) = chunk_json files !! (t, k)).
Proof.
  cbn zeta. unfold write_turn_files. cbn zeta.
  set (totalChunks := ceil_div (Z.of_nat (length hashArray)) CHUNK_SIZE).
  assert (Hc : 0 <= totalChunks).
  { assert (H : -1 < totalChunks); [|lia].
    apply ceil_div_spec; unfold CHUNK_SIZE; lia. }
  pose proof (write_chunks_loop nextTurn hashArray (Z.to_nat totalChunks) files) as H.
  cbn zeta in H. rewrite Z2Nat.id in H by exact Hc.
  destruct H as (Hm & Ho & Hk). cbn [fst snd meta_json chunk_json totalCount].
  split; [|split; [reflexivity|split; [now rewrite Hm|exact Ho]]].
  split; [unfold CHUNK_SIZE; lia|]. split.
  - eexists. split; [apply lookup_insert_eq|]. cbn [totalCount chunkSize chunks].
    rewrite length_map. repeat split.
  - intros k Hk0 Hlt. rewrite length_map in Hlt. apply Hk. split; [exact Hk0|].
    apply ceil_div_spec; [unfold CHUNK_SIZE; lia|exact Hlt].
Qed.

(** ** Collecting the hashes of the next turn *)

Lemma set_add_spec x y s : y ∈ set_add x s <-> y ∈ s ∨ y = x.
Proof.
  unfold set_add. case_decide as Hin.
  - split; [now left|]. intros [H| ->]; assumption.
  - rewrite elem_of_app, list_elem_of_singleton. reflexivity.
Qed.

Lemma set_add_NoDup x s : NoDup s -> NoDup (set_add x s).
Proof.
  intros Hs. unfold set_add. case_decide as Hin; [exact Hs|].
  apply NoDup_app. split; [exact Hs|]. split.
  - intros y Hy ->%list_elem_of_singleton. contradiction.
  - apply NoDup_singleton.
Qed.

Lemma add_transitions_spec nextTurn (l : list StateTransition) acc :
  let result :=
    fold_left (fun nextTurnHashes transition =>
                 let decoded := decodeGameStateHash (toHash transition) in
                 if turn decoded =? nextTurn
                 then set_add (toHash transition) nextTurnHashes
                 else nextTurnHashes) l acc in
  (NoDup acc -> NoDup result) ∧
  ∀ x, x ∈ result <->
       x ∈ acc ∨ ∃ t, t ∈ l ∧ toHash t = x ∧ turn (decodeGameStateHash x) = nextTurn.
Proof.
  cbn zeta. revert acc. induction l as [|t l IH]; intros acc.
  - cbn. split; [auto|]. intros x. split; [now left|].
    intros [H|(t & Ht & _)]; [exact H|now apply elem_of_nil in Ht].
  - cbn [fold_left]. cbn zeta.
    destruct (IH (if turn (decodeGameStateHash (toHash t)) =? nextTurn
                  then set_add (toHash t) acc else acc)) as [IHn IHx].
    split.
    + intros Hacc. apply IHn. destruct (_ =? _); [now apply set_add_NoDup|exact Hacc].
    + intros x. rewrite IHx. split.
      * intros [Hx|(t' & Ht' & Heq)].
        -- destruct (Z.eqb_spec (turn (decodeGameStateHash (toHash t))) nextTurn) as [He|He].
           ++ apply set_add_spec in Hx as [Hx| ->]; [now left|].
              right. exists t. repeat split; [left|exact He].
           ++ now left.
        -- right. exists t'. split; [now right|exact Heq].
      * intros [Hx|(t' & Ht' & Heq & Hturn)].
        -- left. destruct (_ =? _); [apply set_add_spec; now left|exact Hx].
        -- apply elem_of_cons in Ht' as [->|Ht'].
           ++ left. subst x. rewrite (proj2 (Z.eqb_eq _ _) Hturn).
              apply set_add_spec. now right.
           ++ right. exists t'. repeat split; assumption.
Qed.

Lemma add_next_turn_hashes_spec nextTurn acc h :
  (NoDup acc -> NoDup (add_next_turn_hashes nextTurn acc h)) ∧
  ∀ x, x ∈ add_next_turn_hashes nextTurn acc h <->
       x ∈ acc ∨ next_turn_target nextTurn h x.
Proof. apply add_transitions_spec. Qed.

Section Collect.
Variable parseInt16 : string -> Z.

Lemma collect_hashes_spec nextTurn (l : list string) acc :
  let result :=
    fold_left (fun nextTurnHashes hexHash =>
                 add_next_turn_hashes nextTurn nextTurnHashes (parseInt16 hexHash))
              l acc in
  (NoDup acc -> NoDup result) ∧
  ∀ x, x ∈ result <->
       x ∈ acc ∨ ∃ hexHash, hexHash ∈ l ∧ next_turn_target nextTurn (parseInt16 hexHash) x.
Proof.
  cbn zeta. revert acc. induction l as [|s l IH]; intros acc.
  - cbn. split; [auto|]. intros x. split; [now left|].
    intros [H|(t & Ht & _)]; [exact H|now apply elem_of_nil in Ht].
  - cbn [fold_left].
    destruct (IH (add_next_turn_hashes nextTurn acc (parseInt16 s))) as [IHn IHx].
    destruct (add_next_turn_hashes_spec nextTurn acc (parseInt16 s)) as [Hn Hx].
    split; [auto|]. intros x. rewrite IHx, Hx. split.
    + intros [[H|H]|(s' & Hs' & H)]; [now left|right; exists s; split; [left|exact H]|].
      right. exists s'. split; [now right|exact H].
    + intros [H|(s' & Hs' & H)]; [left; now left|].
      apply elem_of_cons in Hs' as [->|Hs']; [left; now right|].
      right. now exists s'.
Qed.

Lemma collect_chunks_spec files currentTurn (indices : list Z) acc :
  let nextTurn := currentTurn + 1 in
  let result :=
    fold_left
      (fun nextTurnHashes chunkIndex =>
         match chunk_json files !! (currentTurn, chunkIndex) with
         | None => nextTurnHashes
         | Some chunkData =>
             fold_left
               (fun nextTurnHashes hexHash =>
                  add_next_turn_hashes nextTurn nextTurnHashes (parseInt16 hexHash))
               (hashes chunkData) nextTurnHashes
         end) indices acc in
  (NoDup acc -> NoDup result) ∧
  ∀ x, x ∈ result <->
       x ∈ acc ∨
       ∃ k chunkData hexHash,
         k ∈ indices ∧ chunk_json files !! (currentTurn, k) = Some chunkData ∧
         hexHash ∈ hashes chunkData ∧
         next_turn_target nextTurn (parseInt16 hexHash) x.
Proof.
  cbn zeta. revert acc. induction indices as [|k l IH]; intros acc.
  - cbn. split; [auto|]. intros x. split; [now left|].
    intros [H|(k & cd & s & Hk & _)]; [exact H|now apply elem_of_nil in Hk].
  - cbn [fold_left].
    destruct (chunk_json files !! (currentTurn, k)) as [cd|] eqn:Hcd.
    + destruct (IH (fold_left
                      (fun nextTurnHashes hexHash =>
                         add_next_turn_hashes (currentTurn + 1) nextTurnHashes
                           (parseInt16 hexHash)) (hashes cd) acc)) as [IHn IHx].
      destruct (collect_hashes_spec (currentTurn + 1) (hashes cd) acc) as [Hn Hx].
      cbn zeta in Hn, Hx.
      split; [auto|]. intros x. rewrite IHx, Hx. split.
      * intros [[H|(s & Hs & H)]|(k' & cd' & s & Hk' & Hcd' & Hs & H)].
        -- now left.
        -- right. exists k, cd, s. repeat split; [left|assumption..].
        -- right. exists k', cd', s. repeat split; [now right|assumption..].
      * intros [H|(k' & cd' & s & Hk' & Hcd' & Hs & H)]; [left; now left|].
        apply elem_of_cons in Hk' as [->|Hk'].
        -- rewrite Hcd in Hcd'. injection Hcd' as <-. left; right. now exists s.
        -- right. exists k', cd', s. repeat split; assumption.
    + destruct (IH acc) as [IHn IHx]. split; [exact IHn|].
      intros x. rewrite IHx. split.
      * intros [H|(k' & cd' & s & Hk' & Hcd' & Hs & H)]; [now left|].
        right. exists k', cd', s. repeat split; [now right|assumption..].
      * intros [H|(k' & cd' & s & Hk' & Hcd' & Hs & H)]; [now left|].
        apply elem_of_cons in Hk' as [->|Hk']; [congruence|].
        right. exists k', cd', s. repeat split; assumption.
Qed.

(** With the files of a turn cut into chunks, the chunks hold exactly the
    strings of the list. *)
Lemma chunked_strings files k size all s :
  chunked_as files k size all ->
  s ∈ all <->
  ∃ metadata i chunkData,
    meta_json files !! k = Some metadata ∧ i ∈ seqZ 0 (chunks metadata) ∧
    chunk_json files !! (k, i) = Some chunkData ∧ s ∈ hashes chunkData.
Proof.
  intros (Hpos & (metadata & Hmeta & Htotal & Hsize & Hchunks) & Hall). split.
  - intros (j & Hj)%list_elem_of_lookup_1.
    pose proof (lookup_lt_Some _ _ _ Hj) as Hlt.
    set (i := Z.of_nat j / size).
    assert (Hi : i * size <= Z.of_nat j < (i + 1) * size).
    { pose proof (Z.mul_div_le (Z.of_nat j) size Hpos).
      pose proof (Z.mul_succ_div_gt (Z.of_nat j) size Hpos). subst i. lia. }
    assert (Hi0 : 0 <= i) by (apply Z.div_pos; lia).
    destruct (Hall i Hi0) as (chunkData & Hcd & Hh & _); [nia|].
    exists metadata, i, chunkData. split; [exact Hmeta|]. split.
    + apply elem_of_seqZ. rewrite Hchunks. split; [lia|].
      rewrite Z.add_0_l. apply ceil_div_spec; [exact Hpos|nia].
    + split; [exact Hcd|]. rewrite Hh.
      apply (list_elem_of_lookup_2 _ (j - Z.to_nat (i * size))%nat).
      rewrite lookup_take, lookup_drop. rewrite decide_True by lia.
      now replace (Z.to_nat (i * size) + (j - Z.to_nat (i * size)))%nat with j by lia.
  - intros (metadata' & i & chunkData & Hmeta' & Hi & Hcd & Hs).
    rewrite Hmeta in Hmeta'. injection Hmeta' as <-.
    apply elem_of_seqZ in Hi. rewrite Hchunks, Z.add_0_l in Hi.
    destruct Hi as [Hi0 Hi1]. apply ceil_div_spec in Hi1; [|exact Hpos].
    destruct (Hall i Hi0 Hi1) as (chunkData' & Hcd' & Hh & _).
    rewrite Hcd in Hcd'. injection Hcd' as <-. rewrite Hh in Hs.
    eapply subseteq_drop, subseteq_take, Hs.
Qed.

End Collect.

(** ** The next turn, state by state *)

Lemma transition_targets_toUint32 h :
  map toHash (generateStateTransitions (toUint32 h))
  = map toHash (generateStateTransitions h).
Proof.
  unfold generateStateTransitions. rewrite hashToGameState_toUint32.
  case_decide; [reflexivity|].
  cbv zeta. rewrite !all_pairs_choices.
  apply flat_map_ext. intros a. apply map_ext. intros d.
  rewrite !toHash_mk. reflexivity.
Qed.

Lemma next_turn_target_toUint32 nextTurn h x :
  next_turn_target nextTurn (toUint32 h) x <-> next_turn_target nextTurn h x.
Proof.
  assert (H : ∀ h1 h2,
             map toHash (generateStateTransitions h1)
             = map toHash (generateStateTransitions h2) ->
             next_turn_target nextTurn h1 x -> next_turn_target nextTurn h2 x).
  { intros h1 h2 Heq (t & Ht & Hx & Hturn).
    assert (Hin : x ∈ map toHash (generateStateTransitions h1)).
    { rewrite <- Hx. apply list_elem_of_fmap. now exists t. }
    rewrite Heq in Hin. apply list_elem_of_fmap in Hin as (t' & -> & Ht').
    now exists t'. }
  split; apply H; [|symmetry]; apply transition_targets_toUint32.
Qed.

Lemma successor_turn (s : GameState) a d :
  let s' := newGameState (processTurn s a d) in
  gameStatus s' = IN_PROGRESS <-> currentTurn s' = currentTurn s + 1.
Proof.
  cbn zeta. rewrite processTurn_turn.
  case_decide as Hst; split; intros H; try assumption; try reflexivity.
  - contradiction.
  - lia.
Qed.

Lemma decoded_turn_of_reachable s :
  reachable s -> turn (decodeGameStateHash (encodeGameStateHash s)) = currentTurn s.
Proof.
  intros Hs. rewrite decode_encode_fields; [reflexivity|].
  apply invariant_encodable, reachable_invariant, Hs.
Qed.

Lemma in_progress_successors k x :
  0 <= k ->
  in_progress_at (k + 1) x <-> ∃ h, in_progress_at k h ∧ next_turn_target (k + 1) h x.
Proof.
  intros Hk. split.
  - intros (s' & Hreach & Hprog & Hturn & ->).
    destruct Hreach as [|s a d Hs Hsprog Hlegal].
    { cbn in Hturn. lia. }
    pose proof (proj1 (successor_turn s a d) Hprog) as Hnext.
    exists (encodeGameStateHash s). split.
    + exists s. repeat split; [exact Hs|exact Hsprog|lia].
    + exists (mkStateTransition (encodeGameStateHash s)
                (encodeGameStateHash (newGameState (processTurn s a d))) a d).
      split; [|split].
      * apply (transitions_of_reachable s _ Hs). split; [exact Hsprog|].
        exists a, d. split; [exact Hlegal|reflexivity].
      * apply toHash_mk.
      * rewrite decoded_turn_of_reachable; [exact Hturn|].
        now apply reachable_step.
  - intros (h & (s & Hs & Hsprog & Hsturn & ->) & (t & Ht & Hx & Hturn)).
    apply (transitions_of_reachable s t Hs) in Ht as (_ & a & d & Hlegal & ->).
    rewrite toHash_mk in Hx. subst x.
    assert (Hreach : reachable (newGameState (processTurn s a d)))
      by now apply reachable_step.
    rewrite (decoded_turn_of_reachable _ Hreach) in Hturn.
    exists (newGameState (processTurn s a d)).
    split; [exact Hreach|]. split; [|split; [exact Hturn|reflexivity]].
    apply successor_turn. lia.
Qed.

Lemma in_progress_at_bounds k x : in_progress_at k x -> 0 <= k <= 14.
Proof.
  intros (s & Hs & _ & <- & _). apply (inv_turn s), reachable_invariant, Hs.
Qed.

Lemma in_progress_at_0 x :
  in_progress_at 0 x <-> x = encodeGameStateHash INITIAL_GAME_STATE.
Proof.
  split.
  - intros (s & Hs & Hprog & Hturn & ->).
    destruct Hs as [|s a d Hs Hsprog Hlegal]; [reflexivity|].
    pose proof (proj1 (successor_turn s a d) Hprog) as Hnext.
    pose proof (inv_turn s (reachable_invariant s Hs)). lia.
  - intros ->. exists INITIAL_GAME_STATE. repeat split. constructor.
Qed.

(** ** Hexadecimal numerals *)

Lemma to_hex_uint_nonnil (n : N) : N.to_hex_uint n ≠ Hexadecimal.Nil.
Proof.
  destruct n as [|p]; [discriminate|].
  intros Hnil. apply (f_equal N.of_hex_uint) in Hnil.
  rewrite Unsigned.of_to in Hnil. discriminate.
Qed.

Lemma parse_hex_toString16 n : 0 <= n -> parse_hex (toString16 n) = n.
Proof.
  intros Hn. unfold parse_hex, toString16.
  rewrite NilZero.usu by apply to_hex_uint_nonnil.
  rewrite Unsigned.of_to. lia.
Qed.

(** ** Sorting the collected hashes *)

Lemma sorted_distinct_ascending (l : list Z) :
  StronglySorted Z.le l -> NoDup l -> StronglySorted Z.lt l.
Proof.
  induction 1 as [|x l Hl IH Hall]; intros Hnd; [constructor|].
  apply NoDup_cons in Hnd as [Hx Hnd]. constructor; [now apply IH|].
  rewrite Forall_forall in *. intros y Hy.
  specialize (Hall y Hy). assert (x ≠ y) by (intros ->; contradiction). lia.
Qed.

Lemma ascending_NoDup (l : list Z) : StronglySorted Z.lt l -> NoDup l.
Proof.
  induction 1 as [|x l Hl IH Hall]; [constructor|].
  apply NoDup_cons. split; [|exact IH].
  intros Hx. rewrite Forall_forall in Hall. specialize (Hall x Hx). lia.
Qed.

Lemma merge_sort_ascending (l : list Z) :
  NoDup l ->
  StronglySorted Z.lt (merge_sort Z.le l) ∧ ∀ x, x ∈ merge_sort Z.le l <-> x ∈ l.
Proof.
  intros Hnd. pose proof (merge_sort_Permutation Z.le l) as Hperm. split.
  - apply sorted_distinct_ascending.
    + apply StronglySorted_merge_sort; apply _.
    + now rewrite Hperm.
  - intros x. now rewrite Hperm.
Qed.

(** ** One turn of the generator *)

Lemma lists_turn_states_frame files files' k :
  meta_json files' !! k = meta_json files !! k ->
  (∀ i, chunk_json files' !! (k, i) = chunk_json files !! (k, i)) ->
  lists_turn_states files k -> lists_turn_states files' k.
Proof.
  intros Hm Hc (states & (Hpos & Hmeta & Hchunks) & Hsorted & Hin).
  exists states. split; [|split; assumption].
  split; [exact Hpos|]. split.
  - rewrite Hm. exact Hmeta.
  - intros i Hi Hlt. rewrite Hc. now apply Hchunks.
Qed.

Lemma no_in_progress_after c k :
  0 <= c <= k -> (∀ x, ¬ in_progress_at c x) -> ∀ x, ¬ in_progress_at k x.
Proof.
  intros Hck Hnone.
  replace k with (c + Z.of_nat (Z.to_nat (k - c))) by lia.
  induction (Z.to_nat (k - c)) as [|n IH]; [now rewrite Z.add_0_r|].
  replace (c + Z.of_nat (S n)) with (c + Z.of_nat n + 1) by lia.
  intros x Hx. apply in_progress_successors in Hx as (h & Hh & _); [|lia].
  exact (IH h Hh).
Qed.

Section Generate.
Variable parseInt16 : string -> Z.
Hypothesis parseInt16_toString16 :
  ∀ n, 0 <= n < 2^32 -> parseInt16 (toString16 n) = n.

Lemma read_back_target nextTurn h x :
  next_turn_target nextTurn (parseInt16 (toString16 (js_shr h 0))) x
  <-> next_turn_target nextTurn h x.
Proof.
  rewrite js_shr_0, parseInt16_toString16 by apply toUint32_range.
  apply next_turn_target_toUint32.
Qed.

Lemma generateNextTurnHashesComplete_step currentTurn files :
  0 <= currentTurn ->
  lists_turn_states files currentTurn ->
  ∃ nextMeta files',
    generateNextTurnHashesComplete parseInt16 currentTurn files = (Some nextMeta, files') ∧
    lists_turn_states files' (currentTurn + 1) ∧
    (totalCount nextMeta = 0 -> ∀ x, ¬ in_progress_at (currentTurn + 1) x) ∧
    meta_json files' = <[currentTurn + 1 := nextMeta]> (meta_json files) ∧
    (∀ t k, t ≠ currentTurn + 1 ->
            chunk_json files' !! (t, k) = chunk_json files !! (t, k)).
Proof.
  intros Hturn (states & Hfiles & Hsorted & Hstates).
  pose proof Hfiles as (_ & (currentMeta & Hmeta & _) & _).
  unfold generateNextTurnHashesComplete. rewrite Hmeta. cbv zeta.
  set (collected := collect_next_turn_hashes parseInt16 files currentTurn currentMeta).
  assert (Hcollected : NoDup collected ∧
            ∀ x, x ∈ collected <-> in_progress_at (currentTurn + 1) x).
  { destruct (collect_chunks_spec parseInt16 files currentTurn
                (seqZ 0 (chunks currentMeta)) []) as [Hnd Hin].
    cbn zeta in Hnd, Hin. split; [apply Hnd, NoDup_nil_2|].
    intros x. unfold collected, collect_next_turn_hashes. cbv zeta.
    rewrite Hin, in_progress_successors by exact Hturn. split.
    - intros [Hnil|(k & chunkData & hexHash & Hk & Hcd & Hs & Htarget)];
        [now apply elem_of_nil in Hnil|].
      assert (Hstr : hexHash ∈ map (fun hash => toString16 (js_shr hash 0)) states).
      { apply (chunked_strings files currentTurn CHUNK_SIZE _ hexHash Hfiles).
        exists currentMeta, k, chunkData. repeat split; assumption. }
      apply list_elem_of_fmap in Hstr as (h & -> & Hh).
      exists h. split; [apply Hstates; exact Hh|].
      exact (proj1 (read_back_target _ _ _) Htarget).
    - intros (h & Hh & Htarget). right.
      apply Hstates in Hh.
      assert (Hstr : toString16 (js_shr h 0)
                     ∈ map (fun hash => toString16 (js_shr hash 0)) states).
      { apply list_elem_of_fmap. now exists h. }
      apply (chunked_strings files currentTurn CHUNK_SIZE _ _ Hfiles) in Hstr
        as (metadata & k & chunkData & Hmeta' & Hk & Hcd & Hs).
      rewrite Hmeta in Hmeta'. injection Hmeta' as <-.
      exists k, chunkData, (toString16 (js_shr h 0)).
      split; [exact Hk|]. split; [exact Hcd|]. split; [exact Hs|].
      exact (proj2 (read_back_target _ _ _) Htarget). }
  destruct Hcollected as [Hnd Hin].
  destruct (merge_sort_ascending collected Hnd) as [Hasc Hmem].
  set (hashArray := merge_sort Z.le collected) in *.
  destruct (write_turn_files_chunked (currentTurn + 1) hashArray files)
    as (Hchunked & Htotal & Hmetas & Hothers).
  cbn zeta in Hchunked, Htotal, Hmetas, Hothers.
  destruct (write_turn_files (currentTurn + 1) hashArray files) as [nextMeta files'] eqn:Hw.
  cbn [fst snd] in *.
  exists nextMeta, files'. split; [reflexivity|]. split; [|split; [|split]].
  - exists hashArray. split; [exact Hchunked|]. split; [exact Hasc|].
    intros x. now rewrite Hmem.
  - intros Hzero x Hx. apply Hin, Hmem in Hx.
    rewrite Hzero in Htotal. destruct hashArray; [now apply elem_of_nil in Hx|].
    cbn in Htotal. lia.
  - exact Hmetas.
  - exact Hothers.
Qed.

(** ** The turns, one after the other *)

Lemma generate_turns_spec (n : nat) c files :
  0 <= c ->
  (∀ k, 0 <= k <= c -> lists_turn_states files k) ->
  (∀ k, c < k -> meta_json files !! k = None) ->
  ∃ c', c <= c' <= c + Z.of_nat n ∧
    let files' := generate_turns parseInt16 (seqZ c (Z.of_nat n)) files in
    (∀ k, 0 <= k <= c' -> lists_turn_states files' k) ∧
    (∀ k, c' < k -> meta_json files' !! k = None) ∧
    (c' < c + Z.of_nat n -> ∀ x, ¬ in_progress_at c' x).
Proof.
  revert c files. induction n as [|n IH]; intros c files Hc Hlists Hnone.
  - exists c. split; [lia|]. cbn. repeat split; [assumption..|lia].
  - rewrite Nat2Z.inj_succ, seqZ_cons by lia.
    replace (Z.pred (Z.succ (Z.of_nat n))) with (Z.of_nat n) by lia.
    cbn [generate_turns]. cbv zeta.
    rewrite (Hnone (c + 1)) by lia.
    destruct (generateNextTurnHashesComplete_step c files Hc (Hlists c ltac:(lia)))
      as (nextMeta & files1 & -> & Hnext & Hzero & Hmetas & Hchunks).
    assert (Hlists1 : ∀ k, 0 <= k <= c + 1 -> lists_turn_states files1 k).
    { intros k Hk. destruct (decide (k = c + 1)) as [->|Hne]; [exact Hnext|].
      apply (lists_turn_states_frame files).
      - rewrite Hmetas. now rewrite lookup_insert_ne.
      - intros i. now apply Hchunks.
      - apply Hlists. lia. }
    assert (Hnone1 : ∀ k, c + 1 < k -> meta_json files1 !! k = None).
    { intros k Hk. rewrite Hmetas, lookup_insert_ne by lia. apply Hnone. lia. }
    destruct (Z.eqb_spec (totalCount nextMeta) 0) as [Hz|Hnz].
    + exists (c + 1). split; [lia|]. cbv zeta.
      split; [exact Hlists1|]. split; [exact Hnone1|]. intros _. now apply Hzero.
    + replace (Z.succ c) with (c + 1) by lia.
      destruct (IH (c + 1) files1 ltac:(lia) Hlists1 Hnone1) as (c' & Hc' & H).
      exists c'. split; [lia|]. cbv zeta in *.
      destruct H as (H1 & H2 & H3). split; [exact H1|]. split; [exact H2|].
      intros Hlt. apply H3. lia.
Qed.

Lemma write_turn0_lists_initial :
  lists_turn_states (write_turn0 (mkHashFiles ∅ ∅)) 0 ∧
  ∀ k, 0 < k -> meta_json (write_turn0 (mkHashFiles ∅ ∅)) !! k = None.
Proof.
  unfold write_turn0. cbn [meta_json chunk_json]. rewrite lookup_empty. cbv zeta.
  split.
  - exists [generateInitialHash]. split; [|split].
    + split; [unfold CHUNK_SIZE; lia|]. split.
      * eexists. cbn [meta_json]. split; [apply lookup_insert_eq|].
        cbn [totalCount chunkSize chunks]. repeat split.
      * intros k Hk Hlt. cbn [map length] in Hlt.
        assert (k = 0) by (unfold CHUNK_SIZE in Hlt; lia). subst k.
        eexists. cbn [chunk_json]. split; [apply lookup_insert_eq|].
        cbn [hashes c_count]. split; reflexivity.
    + repeat constructor.
    + intros x. rewrite list_elem_of_singleton. symmetry. apply in_progress_at_0.
  - intros k Hk. cbn [meta_json]. rewrite lookup_insert_ne by lia. apply lookup_empty.
Qed.

Lemma generateHashes_main_spec :
  let files := generateHashes_main parseInt16 (mkHashFiles ∅ ∅) in
  ∀ k, 0 <= k ->
       lists_turn_states files k ∨
       (meta_json files !! k = None ∧ ∀ x, ¬ in_progress_at k x).
Proof.
  cbv zeta. unfold generateHashes_main.
  destruct write_turn0_lists_initial as [H0 Hnone0].
  destruct (generate_turns_spec 16 0 (write_turn0 (mkHashFiles ∅ ∅)) ltac:(lia))
    as (c' & Hc' & Hlists & Hnone & Hstop).
  { intros k Hk. replace k with 0 by lia. exact H0. }
  { exact Hnone0. }
  change (Z.of_nat 16) with 16 in *. cbv zeta in *.
  intros k Hk. destruct (Z.le_gt_cases k c') as [Hle|Hgt].
  - left. apply Hlists. lia.
  - right. split; [now apply Hnone|].
    destruct (Z.eq_dec c' 16) as [->|Hne].
    + intros x Hx. apply in_progress_at_bounds in Hx. lia.
    + apply (no_in_progress_after c'); [lia|]. apply Hstop. lia.
Qed.

End Generate.

(** ** Reading the hash files *)

Lemma write_turn0_chunked :
  chunked_as (write_turn0 (mkHashFiles ∅ ∅)) 0 CHUNK_SIZE
    (map (fun hash => toString16 (js_shr hash 0)) [generateInitialHash]).
Proof.
  unfold write_turn0. cbn [meta_json chunk_json]. rewrite lookup_empty. cbv zeta.
  split; [unfold CHUNK_SIZE; lia|]. split.
  - eexists. cbn [meta_json]. split; [apply lookup_insert_eq|].
    cbn [totalCount chunkSize chunks]. repeat split.
  - intros k Hk Hlt. cbn [map length] in Hlt.
    assert (k = 0) by (unfold CHUNK_SIZE in Hlt; lia). subst k.
    eexists. cbn [chunk_json]. split; [apply lookup_insert_eq|].
    cbn [hashes c_count]. split; reflexivity.
Qed.

Lemma read_listed_states parseInt16 files k states startIndex count :
  (∀ n, 0 <= n < 2^32 -> parseInt16 (toString16 n) = n) ->
  chunked_as files k CHUNK_SIZE (map (fun hash => toString16 (js_shr hash 0)) states) ->
  0 <= startIndex ->
  loadTurnHashRange parseInt16 files k startIndex count
  = map toUint32 (take (Z.to_nat count) (drop (Z.to_nat startIndex) states)).
Proof.
  intros Hparse Hfiles Hstart.
  rewrite (loadTurnHashRange_slice parseInt16 files k CHUNK_SIZE _ Hfiles) by exact Hstart.
  rewrite <- fmap_drop, <- fmap_take.
  change (map parseInt16 (map ?f ?l)) with (parseInt16 <$> (f <$> l)).
  rewrite <- list_fmap_compose. apply list_fmap_ext. intros i h _. cbn.
  rewrite js_shr_0. apply Hparse, toUint32_range.
Qed.

(** X14. Where the files of a turn hold a list of strings cut into chunks
    of the recorded chunk size, [loadTurnHashRange(turn, startIndex, count)]
    returns the parsed strings at positions [startIndex] up to
    [startIndex + count] of that list, clipped at its end: chunk boundaries
    do not show. *)
Theorem loadTurnHashRange_is_slice
    (parseInt16 : string -> Z) (files : HashFiles) (turn size : Z)
    (all : list string) (startIndex count : Z) :
  chunked_as files turn size all ->
  0 <= startIndex ->
  loadTurnHashRange parseInt16 files turn startIndex count
  = map parseInt16 (take (Z.to_nat count) (drop (Z.to_nat startIndex) all)) ∧
  Z.of_nat (length (loadTurnHashRange parseInt16 files turn startIndex count))
  = Z.max 0 (Z.min count (Z.of_nat (length all) - startIndex)).
Proof.
  intros Hfiles Hstart.
  rewrite (loadTurnHashRange_slice parseInt16 files turn size all Hfiles) by exact Hstart.
  split; [reflexivity|].
  rewrite length_map, length_take, length_drop. lia.
Qed.

(** X14, witness: the files of turn 0, of which the one hash is read. *)
Lemma loadTurnHashRange_is_slice_witness :
  chunked_as (write_turn0 (mkHashFiles ∅ ∅)) 0 CHUNK_SIZE ["fff0000"] ∧
  loadTurnHashRange parse_hex (write_turn0 (mkHashFiles ∅ ∅)) 0 0 5 = [0x0FFF0000].
Proof.
  assert (Hfiles : chunked_as (write_turn0 (mkHashFiles ∅ ∅)) 0 CHUNK_SIZE ["fff0000"]).
  { exact write_turn0_chunked. }
  split; [exact Hfiles|].
  destruct (loadTurnHashRange_is_slice parse_hex _ 0 CHUNK_SIZE _ 0 5 Hfiles ltac:(lia))
    as [-> _].
  vm_compute. reflexivity.
Defined.

(** X15. One run of [generateNextTurnHashesComplete] on files that list the
    reachable in-progress states of the current turn writes files that list
    the reachable in-progress states of the next turn: each of them once, in
    ascending order of the signed hashes, as unsigned hexadecimal numerals in
    chunks of 10000, with their number in the metadata. States in which the
    game has ended are not stored. The files of the other turns are left as
    they were. [parseInt16] reads back what [toString(16)] printed. *)
Theorem generateNextTurnHashesComplete_lists_next_turn
    (parseInt16 : string -> Z) (currentTurn : Z) (files : HashFiles) :
  (∀ n, 0 <= n < 2^32 -> parseInt16 (toString16 n) = n) ->
  0 <= currentTurn ->
  lists_turn_states files currentTurn ->
  ∃ nextMeta files' states,
    generateNextTurnHashesComplete parseInt16 currentTurn files = (Some nextMeta, files') ∧
    chunked_as files' (currentTurn + 1) CHUNK_SIZE
      (map (fun hash => toString16 (js_shr hash 0)) states) ∧
    StronglySorted Z.lt states ∧
    (∀ x, x ∈ states <-> in_progress_at (currentTurn + 1) x) ∧
    m_turn nextMeta = currentTurn + 1 ∧
    totalCount nextMeta = Z.of_nat (length states) ∧
    meta_json files' = <[currentTurn + 1 := nextMeta]> (meta_json files) ∧
    (∀ t k, t ≠ currentTurn + 1 ->
            chunk_json files' !! (t, k) = chunk_json files !! (t, k)) ∧
    (∀ startIndex count, 0 <= startIndex ->
       loadTurnHashRange parseInt16 files' (currentTurn + 1) startIndex count
       = map toUint32 (take (Z.to_nat count) (drop (Z.to_nat startIndex) states))).
Proof.
  intros Hparse Hturn Hlists.
  destruct (generateNextTurnHashesComplete_step parseInt16 Hparse currentTurn files
              Hturn Hlists)
    as (nextMeta & files' & Hrun & (states & Hchunked & Hsorted & Hin) & _ & Hmetas & Hothers).
  exists nextMeta, files', states.
  split; [exact Hrun|]. split; [exact Hchunked|]. split; [exact Hsorted|].
  split; [exact Hin|].
  pose proof Hchunked as (_ & (metadata & Hmeta & Htotal & _) & _).
  rewrite Hmetas, lookup_insert_eq in Hmeta. injection Hmeta as <-.
  rewrite length_map in Htotal.
  assert (Hm : m_turn nextMeta = currentTurn + 1).
  { unfold generateNextTurnHashesComplete in Hrun.
    destruct (meta_json files !! currentTurn); [|discriminate].
    cbv zeta in Hrun. injection Hrun as <- _. reflexivity. }
  split; [exact Hm|]. split; [exact Htotal|]. split; [exact Hmetas|].
  split; [exact Hothers|].
  intros startIndex count Hstart. now apply read_listed_states.
Qed.

(** X15, witness: from the files of turn 0, which list the initial state. *)
Lemma generateNextTurnHashesComplete_lists_next_turn_witness :
  (∀ n, 0 <= n < 2^32 -> parse_hex (toString16 n) = n) ∧
  lists_turn_states (write_turn0 (mkHashFiles ∅ ∅)) 0 ∧
  ∃ nextMeta files',
    generateNextTurnHashesComplete parse_hex 0 (write_turn0 (mkHashFiles ∅ ∅))
    = (Some nextMeta, files') ∧
    m_turn nextMeta = 1.
Proof.
  assert (Hparse : ∀ n, 0 <= n < 2^32 -> parse_hex (toString16 n) = n).
  { intros n Hn. apply parse_hex_toString16. lia. }
  pose proof (proj1 write_turn0_lists_initial) as Hlists.
  split; [exact Hparse|]. split; [exact Hlists|].
  destruct (generateNextTurnHashesComplete_lists_next_turn parse_hex 0 _ Hparse
              ltac:(lia) Hlists)
    as (nextMeta & files' & states & Hrun & _ & _ & _ & Hm & _).
  exists nextMeta, files'. split; [exact Hrun|exact Hm].
Defined.

(** X16. Run on an empty directory, the script leaves files that list, for
    every turn, exactly the reachable states in progress at that turn: for
    every [k], either the files of turn [k] list those states (each of them
    once, ascending, as unsigned hexadecimal numerals in chunks of 10000), or
    turn [k] has no metadata and no reachable state is in progress at turn
    [k]. Turn 0 is always listed. *)
Theorem generateHashes_lists_reachable_states (parseInt16 : string -> Z) :
  (∀ n, 0 <= n < 2^32 -> parseInt16 (toString16 n) = n) ->
  let files := generateHashes_main parseInt16 (mkHashFiles ∅ ∅) in
  lists_turn_states files 0 ∧
  ∀ k, 0 <= k ->
       lists_turn_states files k ∨
       (meta_json files !! k = None ∧
        ∀ s, reachable s -> gameStatus s = IN_PROGRESS -> currentTurn s ≠ k).
Proof.
  intros Hparse files.
  pose proof (generateHashes_main_spec parseInt16 Hparse) as Hspec.
  cbv zeta in Hspec. fold files in Hspec.
  assert (Hrest : ∀ k, 0 <= k ->
            lists_turn_states files k ∨
            (meta_json files !! k = None ∧
             ∀ s, reachable s -> gameStatus s = IN_PROGRESS -> currentTurn s ≠ k)).
  { intros k Hk. destruct (Hspec k Hk) as [H|[Hnone Hno]]; [now left|right].
    split; [exact Hnone|]. intros s Hs Hprog Hturn.
    apply (Hno (encodeGameStateHash s)). now exists s. }
  split; [|exact Hrest].
  destruct (Hspec 0 ltac:(lia)) as [H|[_ Hno]]; [exact H|].
  exfalso. apply (Hno (encodeGameStateHash INITIAL_GAME_STATE)).
  apply in_progress_at_0. reflexivity.
Qed.

(** X16, witness: with a reader of hexadecimal numerals. *)
Lemma generateHashes_lists_reachable_states_witness :
  (∀ n, 0 <= n < 2^32 -> parse_hex (toString16 n) = n) ∧
  lists_turn_states (generateHashes_main parse_hex (mkHashFiles ∅ ∅)) 0.
Proof.
  assert (Hparse : ∀ n, 0 <= n < 2^32 -> parse_hex (toString16 n) = n).
  { intros n Hn. apply parse_hex_toString16. lia. }
  split; [exact Hparse|].
  exact (proj1 (generateHashes_lists_reachable_states parse_hex Hparse)).
Defined.
